(** * NEXUS smart voice assistant: a shallow embedding of its core components

    The development follows the TypeScript sources component by component:
    - [DeviceManager]       core/deviceManager.ts: the device registry and the
                            per-type command handlers;
    - [SpeechSynthesis]     core/speechSynthesis.ts: the priority queue of
                            utterances and its single-flight playback;
    - [Regex], [LanguageProcessing]
                            core/languageProcessing.ts: the pattern tables, the
                            intent and entity extraction;
    - [ConfigManager]       config/configManager.ts: deep merge, export and
                            import of the configuration;
    - [EventEmitter]        utils/eventEmitter.ts: listeners and [emit];
    - [ConfigHeap]          config/configManager.ts: [get], [set], [reset] and
                            [validate] over a heap of objects, and the voice
                            settings that speechSynthesis.ts stores there;
    - [SmartVoiceAssistant] main.ts: how a device command is carried out.
    The first part transcribes the data and the methods of each class; the
    second part, from "Properties" on, states and proves the properties of the
    specification, one module of facts for each class, and then further
    properties of the same code.

    Conventions.  A [Map] with string keys is a [gmap string _]; an array is a
    list; a missing key of an object reads as [None] (JavaScript's
    [undefined]).  The numbers of the device registry and of the speech queue
    are integers ([Z]) with an explicit [NaN]; confidences and configuration
    values are rationals ([Q]).  Clocks, random draws and the settling of
    promises are inputs of the functions that depend on them.  A call that
    can throw returns what it leaves behind together with its outcome. *)

From Stdlib Require Import ZArith QArith Qminmax Ascii String List Sorted Lia Lqa Bool.
From stdpp Require Import gmap strings list sorting pretty.

Set Warnings "-register-all".

Close Scope Q_scope.
Local Open Scope Z_scope.
Local Open Scope string_scope.

(** * Strings as character lists *)

(** The ASCII white space removed by [String.prototype.trim] and matched by
    the class [\s]: TAB, LF, VT, FF, CR and SPACE. *)
Definition is_space (c : ascii) : bool :=
  let n := nat_of_ascii c in
  ((9 <=? n)%nat && (n <=? 13)%nat) || (n =? 32)%nat.

Fixpoint trim_start (l : list ascii) : list ascii :=
  match l with
  | c :: l' => if is_space c then trim_start l' else l
  | [] => []
  end.

Definition trim_chars (l : list ascii) : list ascii :=
  rev (trim_start (rev (trim_start l))).

Definition trim (s : string) : string :=
  string_of_list_ascii (trim_chars (list_ascii_of_string s)).

(** ** Numeric literals *)

(** The value of a digit in a base up to 16. *)
Definition digit_of (base : Z) (c : ascii) : option Z :=
  let n := Z.of_nat (nat_of_ascii c) in
  let d :=
    if (48 <=? n)%Z && (n <=? 57)%Z then n - 48
    else if (97 <=? n)%Z && (n <=? 102)%Z then n - 87
    else if (65 <=? n)%Z && (n <=? 70)%Z then n - 55
    else 16 in
  if (d <? base)%Z then Some d else None.

(** The longest prefix of digits of [l]: its value when read after the
    digits that gave [acc], the number of its digits added to [n], and what
    follows it. *)
Fixpoint digits (base : Z) (l : list ascii) (acc : Z) (n : nat) : Z * nat * list ascii :=
  match l with
  | c :: l' =>
      match digit_of base c with
      | Some d => digits base l' (base * acc + d) (S n)
      | None => (acc, n, l)
      end
  | [] => (acc, n, [])
  end.

(** A sign at the head of [l]: whether it is a minus, and what follows. *)
Definition sign (l : list ascii) : bool * list ascii :=
  match l with
  | "-"%char :: l' => (true, l')
  | "+"%char :: l' => (false, l')
  | _ => (false, l)
  end.

(** An exponent part [e], [e+] or [e-] with digits at the head of [l]: its
    value and what follows; without one the value is 0 and nothing is
    consumed. *)
Definition exponent_part (l : list ascii) : Z * list ascii :=
  match l with
  | c :: l' =>
      if Ascii.eqb c "e" || Ascii.eqb c "E" then
        let '(negative, l1) := sign l' in
        let '(v, n, rest) := digits 10 l1 0 O in
        match n with
        | O => (0, l)
        | S _ => (if negative then - v else v, rest)
        end
      else (0, l)
  | [] => (0, l)
  end.

(** The longest prefix of [l] that is an unsigned decimal literal (digits
    with an optional fraction, or a fraction alone, and an optional
    exponent): the integer [m] and the exponent [k] of its value
    [m * 10^k], and what follows.  [None] when [l] starts with no such
    literal. *)
Definition decimal_prefix (l : list ascii) : option (Z * Z * list ascii) :=
  let '(i, ni, l1) := digits 10 l 0 O in
  let '(m, nf, l2) :=
    match l1 with
    | "."%char :: l' =>
        match ni, digits 10 l' i O with
        | O, (_, O, _) => (i, O, l1)
        | _, r => r
        end
    | _ => (i, O, l1)
    end in
  match ni, nf with
  | O, O => None
  | _, _ =>
      let '(e, l3) := exponent_part l2 in
      Some (m, e - Z.of_nat nf, l3)
  end.

Fixpoint starts_with (word l : list ascii) : bool :=
  match word, l with
  | [], _ => true
  | c :: word', c' :: l' => Ascii.eqb c c' && starts_with word' l'
  | _ :: _, [] => false
  end.

(** ** JavaScript numbers *)

(** The numbers of the device registry and of the speech queue: integers,
    and [NaN]. *)
Inductive num : Type :=
  | Fin (z : Z)
  | NaN.

Definition num_add (a : num) (k : Z) : num :=
  match a with Fin z => Fin (z + k) | NaN => NaN end.

(** [Math.max] and [Math.min]: a [NaN] argument makes the result [NaN]. *)
Definition Math_max (a b : num) : num :=
  match a, b with Fin x, Fin y => Fin (Z.max x y) | _, _ => NaN end.

Definition Math_min (a b : num) : num :=
  match a, b with Fin x, Fin y => Fin (Z.min x y) | _, _ => NaN end.

Definition num_to_string (a : num) : string :=
  match a with Fin z => pretty z | NaN => "NaN" end.

(** The integer [m * 10^k], when it is one. *)
Definition integer_value (m k : Z) : option Z :=
  if (0 <=? k)%Z then Some (m * 10 ^ k)
  else if (m mod 10 ^ (- k) =? 0)%Z then Some (m / 10 ^ (- k))
  else None.

(** A literal [0x...], [0o...] or [0b...] after its prefix: digits of the
    base and nothing else. *)
Definition based_literal (base : Z) (l : list ascii) : num :=
  match digits base l 0 O with
  | (v, S _, []) => Fin v
  | _ => NaN
  end.

(** [StringToNumber]: the number that a string of ASCII characters spells.
    White space around the literal is ignored and the empty string spells 0;
    a literal is a signed decimal literal or an unsigned literal in base 16,
    8 or 2; any other string gives [NaN].  The numbers here are integers: a
    string that spells a number with a fractional part, or an infinity, is
    not among the values considered, and is read as [NaN]. *)
Definition StringToNumber (s : string) : num :=
  match trim_chars (list_ascii_of_string s) with
  | [] => Fin 0
  | "0"%char :: c :: l =>
      if Ascii.eqb c "x" || Ascii.eqb c "X" then based_literal 16 l
      else if Ascii.eqb c "o" || Ascii.eqb c "O" then based_literal 8 l
      else if Ascii.eqb c "b" || Ascii.eqb c "B" then based_literal 2 l
      else
        match decimal_prefix ("0"%char :: c :: l) with
        | Some (m, k, []) =>
            match integer_value m k with Some z => Fin z | None => NaN end
        | _ => NaN
        end
  | l =>
      let '(negative, l1) := sign l in
      match decimal_prefix l1 with
      | Some (m, k, []) =>
          match integer_value (if negative then - m else m) k with
          | Some z => Fin z
          | None => NaN
          end
      | _ => NaN
      end
  end.

(** * DeviceManager *)

Module DeviceManager.

(** [Device] of types/index.ts. *)
Record Device : Type := mkDevice {
  id : string;
  name : string;
  type : string;
  status : string
}.

Inductive Status : Type := online | offline | error.

Definition Status_eqb (a b : Status) : bool :=
  match a, b with
  | online, online | offline, offline | error, error => true
  | _, _ => false
  end.

(** The values that [properties : Record<string, any>] and the fields of
    [parameters?: any] can hold.  The class tests such a value for truth,
    converts it to a number and adds a number to it, and does nothing else
    with it; so an object is given by what its conversion to a primitive
    yields under the hint 'number' and under the hint 'default' ([None] when
    the conversion throws). *)
Inductive pval : Type :=
  | PUndefined
  | PNull
  | PNum (n : num)
  | PBool (b : bool)
  | PStr (s : string)
  | PBigInt (z : Z)
  | PSymbol (description : string)
  | PObj (number_hint default_hint : option pval).

(** Truthiness, for [x || d]. *)
Definition truthy (v : pval) : bool :=
  match v with
  | PUndefined | PNull => false
  | PNum (Fin z) => negb (Z.eqb z 0)
  | PNum NaN => false
  | PBool b => b
  | PStr s => negb (String.eqb s "")
  | PBigInt z => negb (Z.eqb z 0)
  | PSymbol _ | PObj _ _ => true
  end.

(** [x || d] *)
Definition or_else (x d : pval) : pval := if truthy x then x else d.

(** [ToPrimitive] with the hint 'number' or the hint 'default'; [None] when
    it throws: the conversion of the object throws, or it yields no
    primitive. *)
Definition ToPrimitive (number_hint : bool) (v : pval) : option pval :=
  match v with
  | PObj n d =>
      match (if number_hint then n else d) with
      | Some (PObj _ _) => None
      | r => r
      end
  | _ => Some v
  end.

(** [ToNumber], as [Math.min], [Math.max] and the operator [-] apply it;
    [None] when it throws a [TypeError]: a BigInt and a Symbol have no
    number, and a BigInt does not mix with a number in [x - 20]. *)
Definition ToNumber (v : pval) : option num :=
  match ToPrimitive true v with
  | Some PUndefined => Some NaN
  | Some PNull => Some (Fin 0)
  | Some (PNum n) => Some n
  | Some (PBool b) => Some (Fin (if b then 1 else 0))
  | Some (PStr s) => Some (StringToNumber s)
  | _ => None
  end.

(** [x - k] for a number [k]. *)
Definition minus (x : pval) (k : Z) : option num :=
  match ToNumber x with
  | Some n => Some (num_add n (- k))
  | None => None
  end.

(** [x + k] for a number [k]: a string is extended by the digits of [k],
    anything else is converted to a number. *)
Definition plus (x : pval) (k : Z) : option pval :=
  match ToPrimitive false x with
  | Some (PStr s) => Some (PStr (s +:+ pretty k))
  | Some p =>
      match ToNumber p with
      | Some n => Some (PNum (num_add n k))
      | None => None
      end
  | None => None
  end.

(** [Math.min(hi, x)] for a number [hi]. *)
Definition min_with (hi : Z) (x : pval) : option num :=
  match ToNumber x with
  | Some n => Some (Math_min (Fin hi) n)
  | None => None
  end.

Record DeviceState : Type := mkState {
  ds_id : string;
  ds_status : Status;
  lastSeen : Z;
  properties : gmap string pval
}.

(** What reading a field of [parameters] does: it yields a value, or it
    throws (an accessor or a proxy).  Reads and conversions have no effect
    on the manager besides what they yield. *)
Inductive read : Type :=
  | Holds (v : pval)
  | Raises.

(** [Command].  [parameters] is the object handed to [controlDevice], by its
    fields; an argument that is a primitive value has none of the fields
    that the handlers read. *)
Record Command : Type := mkCommand {
  cmd_id : string;
  action : string;
  parameters : gmap string read
}.

Record Response : Type := mkResponse {
  success : bool;
  message : string
}.

(** The payload of the 'deviceControlled' event. *)
Record Controlled : Type := mkControlled {
  ev_deviceId : string;
  ev_success : bool;
  ev_message : string
}.

(** The fields of the class; [emitted] records the events handed to the event
    emitter, oldest first.  What the listeners of an event do is not part of
    the class. *)
Record t : Type := mkManager {
  devices : gmap string Device;
  deviceStates : gmap string DeviceState;
  discoveryInterval : bool;
  emitted : list Controlled
}.

(** [deviceState.properties.k]: a missing property reads as [undefined]. *)
Definition prop (st : DeviceState) (k : string) : pval :=
  default PUndefined (properties st !! k).

(** [parameters?.k]: a missing field reads as [undefined]; [None] when the
    read throws. *)
Definition param (parameters : gmap string read) (k : string) : option pval :=
  match parameters !! k with
  | Some (Holds v) => Some v
  | Some Raises => None
  | None => Some PUndefined
  end.

Definition set_prop (st : DeviceState) (k : string) (v : pval) : DeviceState :=
  mkState (ds_id st) (ds_status st) (lastSeen st) (<[k := v]> (properties st)).

(** The end of a handler that has computed the number [n] for the property
    [k]: it stores the number and answers with a message that quotes it.
    With [None], the computation threw before anything was stored. *)
Definition store (st : DeviceState) (k : string) (n : option num) (msg : num -> string)
  : DeviceState * option Response :=
  match n with
  | Some v => (set_prop st k (PNum v), Some (mkResponse true (msg v)))
  | None => (st, None)
  end.

Definition getDefaultProperties (deviceType : string) : gmap string pval :=
  if String.eqb deviceType "smart_light" then
    <["brightness" := PNum (Fin 100)]> (<["color" := PStr "white"]> (<["power" := PBool true]> ∅))
  else if String.eqb deviceType "thermostat" then
    <["temperature" := PNum (Fin 72)]> (<["mode" := PStr "auto"]> (<["target" := PNum (Fin 72)]> ∅))
  else if String.eqb deviceType "smart_tv" then
    <["power" := PBool false]> (<["volume" := PNum (Fin 50)]> (<["channel" := PNum (Fin 1)]> ∅))
  else if String.eqb deviceType "smart_speaker" then
    <["power" := PBool true]> (<["volume" := PNum (Fin 30)]> (<["playing" := PBool false]> ∅))
  else ∅.

Definition defaultDevices : list Device :=
  [ mkDevice "living_room-light" "Living Room Light" "smart_light" "online";
    mkDevice "bedroom-light" "Bedroom Light" "smart_light" "online";
    mkDevice "kitchen-light" "Kitchen Light" "smart_light" "online";
    mkDevice "main-thermostat" "Main Thermostat" "thermostat" "online";
    mkDevice "living_room-tv" "Living Room TV" "smart_tv" "online";
    mkDevice "kitchen-speaker" "Kitchen Speaker" "smart_speaker" "online" ].

(** [addDevice]; [now] is the value of [Date.now()]. *)
Definition addDevice (m : t) (device : Device) (now : Z) : t :=
  mkManager
    (<[id device := device]> (devices m))
    (<[id device := mkState (id device) online now (getDefaultProperties (type device))]>
       (deviceStates m))
    (discoveryInterval m)
    (emitted m).

Definition initializeDefaultDevices (m : t) (now : Z) : t :=
  fold_left (fun acc device => addDevice acc device now) defaultDevices m.

(** One discovery pass.  [isOnline deviceId] is the outcome of
    [Math.random() > 0.1] drawn for that device, [now] the clock. *)
Definition discoverDevices (m : t) (isOnline : string -> bool) (now : Z) : t :=
  mkManager
    (devices m)
    (map_imap (fun deviceId state =>
       Some (mkState (ds_id state)
                     (if isOnline deviceId then online else offline)
                     (if isOnline deviceId then now else lastSeen state)
                     (properties state)))
       (deviceStates m))
    (discoveryInterval m)
    (emitted m).

(** The constructor: seed the devices, start the timer, run a first pass. *)
Definition construct (isOnline : string -> bool) (now : Z) : t :=
  let m := initializeDefaultDevices (mkManager ∅ ∅ false []) now in
  discoverDevices (mkManager (devices m) (deviceStates m) true (emitted m)) isOnline now.

(** The handlers return the state as they leave it and their response, or
    no response when they throw. *)
Definition controlLight (deviceState : DeviceState) (command : Command)
  : DeviceState * option Response :=
  let a := action command in
  let parameters := parameters command in
  if String.eqb a "turn_on" then
    let st1 := set_prop deviceState "power" (PBool true) in
    match param parameters "brightness" with
    | Some x =>
        (set_prop st1 "brightness" (or_else x (PNum (Fin 100))),
         Some (mkResponse true "Light turned on"))
    | None => (st1, None)
    end
  else if String.eqb a "turn_off" then
    (set_prop deviceState "power" (PBool false), Some (mkResponse true "Light turned off"))
  else if String.eqb a "dim" then
    store deviceState "brightness"
      (Math_max (Fin 10) <$> minus (prop deviceState "brightness") 20)
      (fun b => "Light dimmed to " +:+ num_to_string b +:+ "%")
  else if String.eqb a "brighten" then
    store deviceState "brightness"
      (match plus (prop deviceState "brightness") 20 with
       | Some x => min_with 100 x
       | None => None
       end)
      (fun b => "Light brightened to " +:+ num_to_string b +:+ "%")
  else if String.eqb a "set_brightness" then
    store deviceState "brightness"
      (match param parameters "value" with
       | Some x => Math_max (Fin 0) <$> min_with 100 (or_else x (PNum (Fin 50)))
       | None => None
       end)
      (fun b => "Light brightness set to " +:+ num_to_string b +:+ "%")
  else
    (deviceState, Some (mkResponse false ("Unknown light action: " +:+ a))).

(** [parameters?.value || parameters?.temperature || 72]: the second field
    is read only when the first is falsy; [None] when a read throws. *)
Definition requested (parameters : gmap string read) : option pval :=
  match param parameters "value" with
  | Some x =>
      if truthy x then Some x
      else
        match param parameters "temperature" with
        | Some y => Some (or_else y (PNum (Fin 72)))
        | None => None
        end
  | None => None
  end.

Definition controlThermostat (deviceState : DeviceState) (command : Command)
  : DeviceState * option Response :=
  let a := action command in
  let parameters := parameters command in
  if String.eqb a "set_temperature" || String.eqb a "set_value" then
    store deviceState "target"
      (match requested parameters with
       | Some temperature => Math_max (Fin 50) <$> min_with 90 temperature
       | None => None
       end)
      (fun v => "Thermostat set to " +:+ num_to_string v +:+ "°F")
  else if String.eqb a "increase" then
    store deviceState "target"
      (match plus (prop deviceState "target") 2 with
       | Some x => min_with 90 x
       | None => None
       end)
      (fun v => "Temperature increased to " +:+ num_to_string v +:+ "°F")
  else if String.eqb a "decrease" then
    store deviceState "target"
      (Math_max (Fin 50) <$> minus (prop deviceState "target") 2)
      (fun v => "Temperature decreased to " +:+ num_to_string v +:+ "°F")
  else
    (deviceState, Some (mkResponse false ("Unknown thermostat action: " +:+ a))).

Definition controlTV (deviceState : DeviceState) (command : Command)
  : DeviceState * option Response :=
  let a := action command in
  if String.eqb a "turn_on" then
    (set_prop deviceState "power" (PBool true), Some (mkResponse true "TV turned on"))
  else if String.eqb a "turn_off" then
    (set_prop deviceState "power" (PBool false), Some (mkResponse true "TV turned off"))
  else if String.eqb a "volume_up" || String.eqb a "increase" then
    store deviceState "volume"
      (match plus (prop deviceState "volume") 5 with
       | Some x => min_with 100 x
       | None => None
       end)
      (fun v => "Volume increased to " +:+ num_to_string v)
  else if String.eqb a "volume_down" || String.eqb a "decrease" then
    store deviceState "volume"
      (Math_max (Fin 0) <$> minus (prop deviceState "volume") 5)
      (fun v => "Volume decreased to " +:+ num_to_string v)
  else
    (deviceState, Some (mkResponse false ("Unknown TV action: " +:+ a))).

Definition controlSpeaker (deviceState : DeviceState) (command : Command)
  : DeviceState * option Response :=
  let a := action command in
  if String.eqb a "start" || String.eqb a "play" then
    (set_prop deviceState "playing" (PBool true), Some (mkResponse true "Music started playing"))
  else if String.eqb a "stop" || String.eqb a "pause" then
    (set_prop deviceState "playing" (PBool false), Some (mkResponse true "Music stopped"))
  else if String.eqb a "volume_up" || String.eqb a "increase" then
    store deviceState "volume"
      (match plus (prop deviceState "volume") 10 with
       | Some x => min_with 100 x
       | None => None
       end)
      (fun v => "Volume increased to " +:+ num_to_string v)
  else if String.eqb a "volume_down" || String.eqb a "decrease" then
    store deviceState "volume"
      (Math_max (Fin 0) <$> minus (prop deviceState "volume") 10)
      (fun v => "Volume decreased to " +:+ num_to_string v)
  else
    (deviceState, Some (mkResponse false ("Unknown speaker action: " +:+ a))).

Definition controlGenericDevice (deviceState : DeviceState) (command : Command)
  : DeviceState * option Response :=
  let a := action command in
  if String.eqb a "turn_on" then
    (set_prop deviceState "power" (PBool true), Some (mkResponse true "Device turned on"))
  else if String.eqb a "turn_off" then
    (set_prop deviceState "power" (PBool false), Some (mkResponse true "Device turned off"))
  else
    (deviceState, Some (mkResponse true ("Command " +:+ a +:+ " executed"))).

(** The per-type dispatch of [executeDeviceCommand]. *)
Definition dispatch (deviceType : string) (deviceState : DeviceState) (command : Command)
  : DeviceState * option Response :=
  if String.eqb deviceType "smart_light" then controlLight deviceState command
  else if String.eqb deviceType "thermostat" then controlThermostat deviceState command
  else if String.eqb deviceType "smart_tv" then controlTV deviceState command
  else if String.eqb deviceType "smart_speaker" then controlSpeaker deviceState command
  else controlGenericDevice deviceState command.

(** [executeDeviceCommand]: the handlers update the state object held by
    [deviceStates] in place, which is an update of that entry of the map,
    also when the handler throws after it has written. *)
Definition executeDeviceCommand (m : t) (device : Device) (command : Command)
  : t * option Response :=
  match deviceStates m !! id device with
  | None => (m, Some (mkResponse false "Device state not found"))
  | Some deviceState =>
      let '(st', response) := dispatch (type device) deviceState command in
      (mkManager (devices m) (<[id device := st']> (deviceStates m))
                 (discoveryInterval m) (emitted m),
       response)
  end.

(** [controlDevice].  [params] is the argument [parameters] by its fields:
    [None] is an argument that is omitted or falsy, which [parameters || {}]
    replaces by an empty object.  When the handler throws, the [catch]
    returns false and no event is emitted. *)
Definition controlDevice (m : t) (deviceId : string) (act : string)
    (params : option (gmap string read)) (now : Z) : t * bool :=
  match devices m !! deviceId with
  | None => (m, false)
  | Some device =>
      match deviceStates m !! deviceId with
      | None => (m, false)
      | Some deviceState =>
          if negb (Status_eqb (ds_status deviceState) online) then (m, false)
          else
            let command :=
              mkCommand ("cmd-" +:+ pretty now) act (default ∅ params) in
            let '(m', response) := executeDeviceCommand m device command in
            match response with
            | Some response =>
                (mkManager (devices m') (deviceStates m') (discoveryInterval m')
                           (emitted m'
                            ++ [mkControlled deviceId (success response) (message response)]),
                 success response)
            | None => (m', false)
            end
      end
  end.

Definition removeDevice (m : t) (deviceId : string) : t * bool :=
  match devices m !! deviceId with
  | Some device =>
      (mkManager (delete deviceId (devices m)) (delete deviceId (deviceStates m))
                 (discoveryInterval m) (emitted m),
       true)
  | None => (m, false)
  end.

Definition destroy (m : t) : t :=
  mkManager ∅ ∅ false (emitted m).

(** The public operations and the timer tick, as a command language. *)
Inductive op : Type :=
  | OpAdd (device : Device) (now : Z)
  | OpRemove (deviceId : string)
  | OpControl (deviceId : string) (act : string) (params : option (gmap string read)) (now : Z)
  | OpDiscover (isOnline : string -> bool) (now : Z)
  | OpDestroy.

Definition step (m : t) (o : op) : t :=
  match o with
  | OpAdd device now => addDevice m device now
  | OpRemove deviceId => fst (removeDevice m deviceId)
  | OpControl deviceId act params now => fst (controlDevice m deviceId act params now)
  | OpDiscover isOnline now => discoverDevices m isOnline now
  | OpDestroy => destroy m
  end.

Definition run (m : t) (ops : list op) : t := fold_left step ops m.

(** The operations that keep every registered device: calls of
    [controlDevice] and discovery passes. *)
Definition keeps (o : op) : bool :=
  match o with
  | OpControl _ _ _ _ | OpDiscover _ _ => true
  | _ => false
  end.

(** [ToNumber] turns the value into [NaN]. *)
Definition reads_NaN (v : pval) : bool :=
  match ToNumber v with
  | Some NaN => true
  | _ => false
  end.



(** Calls whose turn_on carries no brightness, or one that is falsy or a
    number within [[0, 100]], and whose set_brightness carries no value that
    is turned into [NaN]; and discovery passes. *)
Definition tame (o : op) : bool :=
  match o with
  | OpControl _ act params _ =>
      (negb (String.eqb act "turn_on")
       || match param (default ∅ params) "brightness" with
          | Some x =>
              match or_else x (PNum (Fin 100)) with
              | PNum (Fin b) => Z.leb 0 b && Z.leb b 100
              | _ => false
              end
          | None => true
          end)
      && (negb (String.eqb act "set_brightness")
          || match param (default ∅ params) "value" with
             | Some x => negb (reads_NaN (or_else x (PNum (Fin 50))))
             | None => true
             end)
  | OpDiscover _ _ => true
  | _ => false
  end.

(** The two registries have the same keys. *)
Definition agree (m : t) : Prop := dom (devices m) = dom (deviceStates m).

(** The numeric property [k] of a device state lies in [[lo, hi]]. *)
Definition prop_within (k : string) (lo hi : Z) (st : DeviceState) : Prop :=
  exists v, properties st !! k = Some (PNum (Fin v)) /\ lo <= v <= hi.

(** The same for the state that the manager holds for [deviceId]. *)
Definition within (k : string) (lo hi : Z) (m : t) (deviceId : string) : Prop :=
  exists st, deviceStates m !! deviceId = Some st /\ prop_within k lo hi st.

(** Every device is filed under its own [id], and every state under the
    [id] it carries. *)
Definition keyed (m : t) : Prop :=
  (forall k device, devices m !! k = Some device -> id device = k)
  /\ (forall k st, deviceStates m !! k = Some st -> ds_id st = k).

(** The device types that have a handler of their own. *)
Definition typed (deviceType : string) : bool :=
  String.eqb deviceType "smart_light" || String.eqb deviceType "thermostat"
  || String.eqb deviceType "smart_tv" || String.eqb deviceType "smart_speaker".



End DeviceManager.

(** * SpeechSynthesis *)

Module SpeechSynthesis.

(** [SpeechRequest]; [priority] is a JavaScript number, so it may be [NaN]. *)
Record SpeechRequest : Type := mkRequest {
  text : string;
  language : string;
  priority : num
}.

(** The fields of the class that the queue discipline uses.  [spoken] is the
    history of the requests taken off the queue and handed to [speakText],
    oldest first; [inflight] counts the [speakText] promises not yet settled
    and [timers] the pending [setTimeout] callbacks. *)
Record t : Type := mkSynth {
  speechQueue : list SpeechRequest;
  isPlaying : bool;
  spoken : list SpeechRequest;
  inflight : nat;
  timers : nat;
  defaultLanguage : string
}.

(** [item.priority || 1]: the priorities 0 and [NaN] are falsy.  The result
    is a number other than [NaN]. *)
Definition priority_or_1 (item : SpeechRequest) : Z :=
  match priority item with
  | Fin z => if Z.eqb z 0 then 1 else z
  | NaN => 1
  end.

(** [a < priority]: false when [priority] is [NaN]. *)
Definition below (a : Z) (priority : num) : bool :=
  match priority with
  | Fin p => Z.ltb a p
  | NaN => false
  end.

(** [Array.prototype.findIndex]; [None] is the result -1. *)
Fixpoint findIndex {A : Type} (f : A -> bool) (l : list A) : option nat :=
  match l with
  | [] => None
  | x :: l' => if f x then Some O else option_map S (findIndex f l')
  end.

(** [splice(i, 0, x)]. *)
Definition splice_in {A : Type} (i : nat) (x : A) (l : list A) : list A :=
  firstn i l ++ x :: skipn i l.

Definition enqueue (queue : list SpeechRequest) (request : SpeechRequest) : list SpeechRequest :=
  match findIndex (fun item => below (priority_or_1 item) (priority request)) queue with
  | None => queue ++ [request]
  | Some insertIndex => splice_in insertIndex request queue
  end.

(** [processQueue] up to its first suspension point: the guard, [shift], the
    flag, and the call of [speakText]. *)
Definition processQueue (s : t) : t :=
  if isPlaying s then s
  else
    match speechQueue s with
    | [] => s
    | request :: rest =>
        mkSynth rest true (spoken s ++ [request]) (S (inflight s)) (timers s)
                (defaultLanguage s)
    end.

(** The rest of [processQueue], run when the awaited [speakText] promise
    settles (resolved or rejected alike): the [finally] block. *)
Definition settle (s : t) : t :=
  match inflight s with
  | O => s
  | S n =>
      mkSynth (speechQueue s) false (spoken s) n
              (match speechQueue s with [] => timers s | _ :: _ => S (timers s) end)
              (defaultLanguage s)
  end.

(** A pending [setTimeout(() => this.processQueue(), 100)] fires. *)
Definition timer (s : t) : t :=
  match timers s with
  | O => s
  | S n =>
      processQueue (mkSynth (speechQueue s) (isPlaying s) (spoken s) (inflight s) n
                            (defaultLanguage s))
  end.

(** [speak(text, language?, priority = 1)]. *)
Definition speak (s : t) (txt : string) (lang : option string) (prio : option num) : t :=
  if String.eqb (trim txt) "" then s
  else
    let request :=
      mkRequest (trim txt)
                (match lang with
                 | Some l => if String.eqb l "" then defaultLanguage s else l
                 | None => defaultLanguage s
                 end)
                (default (Fin 1) prio) in
    processQueue
      (mkSynth (enqueue (speechQueue s) request) (isPlaying s) (spoken s) (inflight s)
               (timers s) (defaultLanguage s)).

Definition stopSpeaking (s : t) : t :=
  mkSynth [] false (spoken s) (inflight s) (timers s) (defaultLanguage s).

(** A new instance: empty queue, nothing playing. *)
Definition create (defaultLang : string) : t := mkSynth [] false [] O O defaultLang.

(** What happens after the calls of [speak]: promises settle and timers
    fire, in any order. *)
Inductive event : Type := Settle | Timer.

Definition react (s : t) (e : event) : t :=
  match e with Settle => settle s | Timer => timer s end.

Definition drain (s : t) (es : list event) : t := fold_left react es s.

(** [a <= b] on priorities, which holds of no [NaN]. *)
Definition at_most (a b : num) : Prop :=
  match a, b with
  | Fin x, Fin y => x <= y
  | _, _ => False
  end.

(** The queue is in descending order of priority. *)
Definition descending (q : list SpeechRequest) : Prop :=
  StronglySorted (fun a b => at_most (priority b) (priority a)) q.

(** A priority that reads as itself in [item.priority || 1]: a number other
    than 0 and [NaN]. *)
Definition ordinary (x : SpeechRequest) : Prop :=
  exists z, priority x = Fin z /\ z <> 0.

Definition getQueueLength (s : t) : nat := length (speechQueue s).

(** What can happen to an instance: the public calls and the host events. *)
Inductive call : Type :=
  | Speak (txt : string) (lang : option string) (prio : option num)
  | StopSpeaking
  | Host (e : event).

Definition exec (s : t) (c : call) : t :=
  match c with
  | Speak txt lang prio => speak s txt lang prio
  | StopSpeaking => stopSpeaking s
  | Host e => react s e
  end.

Definition execs (s : t) (cs : list call) : t := fold_left exec cs s.

(** The calls of [speak] that give a priority give a number other than 0
    and [NaN]. *)
Definition ordinary_priority (c : call) : bool :=
  match c with
  | Speak _ _ (Some (Fin p)) => negb (Z.eqb p 0)
  | Speak _ _ (Some NaN) => false
  | _ => true
  end.

(** A request in the queue is not stranded: something is playing, or a timer
    that will look at the queue is pending; and when something is playing,
    a promise is still to settle. *)
Definition live (s : t) : Prop :=
  (speechQueue s <> [] -> isPlaying s = true \/ (0 < timers s)%nat)
  /\ (isPlaying s = true -> (0 < inflight s)%nat).

(** [SpeechSynthesisVoice]: the fields that the selection reads. *)
Record Voice : Type := mkVoice {
  voiceName : string;
  lang : string;
  localService : bool
}.

(** [language.split('-')[0]] *)
Fixpoint langCode (language : string) : string :=
  match language with
  | EmptyString => EmptyString
  | String c rest => if Ascii.eqb c "-" then EmptyString else String c (langCode rest)
  end.

(** The queue is sorted and holds no request of priority 0 or [NaN]. *)
Definition tidy (s : t) : Prop :=
  descending (speechQueue s) /\ Forall ordinary (speechQueue s).

(** [getBestVoiceForLanguage]; [None] is [null]. *)
Definition getBestVoiceForLanguage (voices : list Voice) (language : string)
  : option Voice :=
  match voices with
  | [] => None
  | _ :: _ =>
      let voice :=
        match List.find (fun v => String.eqb (lang v) language) voices with
        | Some v => Some v
        | None => List.find (fun v => String.prefix (langCode language) (lang v)) voices
        end in
      match voice with
      | Some v =>
          match List.find (fun w => String.eqb (lang w) (lang v) && localService w) voices with
          | Some localVoice => Some localVoice
          | None => Some v
          end
      | None => None
      end
  end.

End SpeechSynthesis.

(** * Regular expressions

    The fragment of JavaScript regular expressions that the pattern tables of
    LanguageProcessing use, with the backtracking semantics of the language:
    alternatives are tried from left to right, quantifiers are greedy, and a
    search returns the leftmost match.  Capture groups do not change what the
    whole pattern matches and are not represented.  Strings are sequences of
    ASCII characters. *)

Module Regex.

Inductive regex : Type :=
  | Eps                         (* the empty pattern *)
  | Chr (c : ascii)             (* a literal character *)
  | Any                         (* .   *)
  | Space                       (* \s  *)
  | Digit                       (* \d  *)
  | Bound                       (* \b  *)
  | Seq (r1 r2 : regex)         (* r1r2 *)
  | Alt (r1 r2 : regex)         (* r1|r2 *)
  | Star (r : regex).           (* r*  *)

Definition Plus (r : regex) : regex := Seq r (Star r).   (* r+ *)
Definition Opt (r : regex) : regex := Alt r Eps.         (* r? *)

Fixpoint lit_chars (l : list ascii) : regex :=
  match l with
  | [] => Eps
  | [c] => Chr c
  | c :: l' => Seq (Chr c) (lit_chars l')
  end.

(** A literal word. *)
Definition lit (s : string) : regex := lit_chars (list_ascii_of_string s).

Fixpoint seq (l : list regex) : regex :=
  match l with
  | [] => Eps
  | [r] => r
  | r :: l' => Seq r (seq l')
  end.

(** [r|r1|...|rn], in this order. *)
Fixpoint alt (r : regex) (l : list regex) : regex :=
  match l with
  | [] => r
  | r' :: l' => Alt r (alt r' l')
  end.

(** An alternation of literal words. *)
Definition words (w : string) (ws : list string) : regex := alt (lit w) (map lit ws).

Definition in_range (lo hi : nat) (c : ascii) : bool :=
  let n := nat_of_ascii c in ((lo <=? n)%nat && (n <=? hi)%nat).

Definition is_upper (c : ascii) : bool := in_range 65 90 c.
Definition is_lower (c : ascii) : bool := in_range 97 122 c.
Definition is_digit (c : ascii) : bool := in_range 48 57 c.

(** The word characters of [\b]: letters, digits and the underscore. *)
Definition is_word (c : ascii) : bool :=
  is_upper c || is_lower c || is_digit c || (nat_of_ascii c =? 95)%nat.

(** [.] matches everything but a line terminator. *)
Definition is_line_terminator (c : ascii) : bool :=
  (nat_of_ascii c =? 10)%nat || (nat_of_ascii c =? 13)%nat.

Definition lower (c : ascii) : ascii :=
  if is_upper c then ascii_of_nat (nat_of_ascii c + 32) else c.

(** [String.prototype.toLowerCase]. *)
Definition toLowerCase (l : list ascii) : list ascii := map lower l.

(** Character comparison; [icase] is the flag [i]. *)
Definition chr_eq (icase : bool) (a b : ascii) : bool :=
  if icase then Ascii.eqb (lower a) (lower b) else Ascii.eqb a b.

Definition word_before (prev : option ascii) : bool :=
  match prev with Some c => is_word c | None => false end.

Definition word_after (s : list ascii) : bool :=
  match s with c :: _ => is_word c | [] => false end.

Definition one_char (p : ascii -> bool) {R : Type} (s : list ascii)
    (k : option ascii -> list ascii -> option R) : option R :=
  match s with
  | c :: s' => if p c then k (Some c) s' else None
  | [] => None
  end.

(** The matcher, in continuation-passing style.  [prev] is the character
    before the current position, [s] the rest of the input, and [k] what
    remains to be matched after [r]; the first success in backtracking order
    is returned.  An iteration of [Star] that consumes nothing is rejected. *)
Fixpoint run {R : Type} (icase : bool) (r : regex) (prev : option ascii) (s : list ascii)
    (k : option ascii -> list ascii -> option R) {struct r} : option R :=
  match r with
  | Eps => k prev s
  | Chr c => one_char (chr_eq icase c) s k
  | Any => one_char (fun c => negb (is_line_terminator c)) s k
  | Space => one_char is_space s k
  | Digit => one_char is_digit s k
  | Bound => if xorb (word_before prev) (word_after s) then k prev s else None
  | Seq r1 r2 => run icase r1 prev s (fun prev' s' => run icase r2 prev' s' k)
  | Alt r1 r2 =>
      match run icase r1 prev s k with
      | Some x => Some x
      | None => run icase r2 prev s k
      end
  | Star r' =>
      (fix iterate (fuel : nat) (prev : option ascii) (s : list ascii) {struct fuel} : option R :=
         match fuel with
         | O => k prev s
         | S fuel' =>
             match run icase r' prev s
                     (fun prev' s' =>
                        if (length s' <? length s)%nat then iterate fuel' prev' s' else None) with
             | Some x => Some x
             | None => k prev s
             end
         end) (S (length s)) prev s
  end.

(** A match anchored at the current position: the length of the match. *)
Definition match_here (icase : bool) (r : regex) (prev : option ascii) (s : list ascii)
  : option nat :=
  run icase r prev s (fun _ rest => Some (length s - length rest)%nat).

(** The leftmost match at or after the current position, as the pair of its
    offset from that position and its length. *)
Fixpoint search (icase : bool) (r : regex) (prev : option ascii) (s : list ascii)
  : option (nat * nat) :=
  match match_here icase r prev s with
  | Some len => Some (O, len)
  | None =>
      match s with
      | [] => None
      | c :: s' =>
          match search icase r (Some c) s' with
          | Some (i, len) => Some (S i, len)
          | None => None
          end
      end
  end.

(** A pattern with its flag [i].  The flag [g] is no field of the record: a
    pattern without it is used through [str_match] and [test], a pattern with
    it through [exec_all]. *)
Record RegExp : Type := mkRegExp {
  source : regex;
  ignoreCase : bool
}.

(** [str.match(pattern)] for a pattern without the flag [g]: the index and
    the text of the match. *)
Definition str_match (p : RegExp) (str : list ascii) : option (nat * list ascii) :=
  match search (ignoreCase p) (source p) None str with
  | Some (i, len) => Some (i, firstn len (skipn i str))
  | None => None
  end.

(** [pattern.test(str)]. *)
Definition test (p : RegExp) (str : list ascii) : bool :=
  match str_match p str with Some _ => true | None => false end.

(** Skipping [n] characters: the character before the new position and the
    rest of the input. *)
Fixpoint advance (n : nat) (prev : option ascii) (s : list ascii)
  : option ascii * list ascii :=
  match n, s with
  | S n', c :: s' => advance n' (Some c) s'
  | _, _ => (prev, s)
  end.

(** The loop [while ((match = regex.exec(text)) !== null)] for a pattern with
    the flag [g]: all matches from left to right as (index, text) pairs.
    [exec] restarts at the end of the previous match, so an empty match is
    found again and again and the loop never ends: the result is [None]. *)
Fixpoint exec_loop (fuel : nat) (p : RegExp) (pos : nat) (prev : option ascii)
    (s : list ascii) : option (list (nat * list ascii)) :=
  match fuel with
  | O => None
  | S fuel' =>
      match search (ignoreCase p) (source p) prev s with
      | None => Some []
      | Some (i, O) => None
      | Some (i, len) =>
          let '(prev', s') := advance (i + len) prev s in
          match exec_loop fuel' p (pos + i + len) prev' s' with
          | Some ms => Some ((pos + i, firstn len (skipn i s))%nat :: ms)
          | None => None
          end
      end
  end.

Definition exec_all (p : RegExp) (str : list ascii) : option (list (nat * list ascii)) :=
  exec_loop (S (length str)) p O None str.

(** The least number of characters that a match of [r] consumes. *)
Fixpoint min_len (r : regex) : nat :=
  match r with
  | Eps | Bound | Star _ => 0
  | Chr _ | Any | Space | Digit => 1
  | Seq r1 r2 => min_len r1 + min_len r2
  | Alt r1 r2 => Nat.min (min_len r1) (min_len r2)
  end.

(** The matches lie from left to right at or after [pos] and do not overlap. *)
Fixpoint ordered_from (pos : nat) (ms : list (nat * list ascii)) : Prop :=
  match ms with
  | [] => True
  | m :: ms' => (pos <= fst m)%nat /\ ordered_from (fst m + length (snd m)) ms'
  end.

(** The language of a pattern: the texts that a match of it can consume,
    whatever stands around them ([\b] consumes nothing). *)
Inductive lang (icase : bool) : regex -> list ascii -> Prop :=
  | lang_Eps : lang icase Eps []
  | lang_Chr c a : chr_eq icase c a = true -> lang icase (Chr c) [a]
  | lang_Any a : is_line_terminator a = false -> lang icase Any [a]
  | lang_Space a : is_space a = true -> lang icase Space [a]
  | lang_Digit a : is_digit a = true -> lang icase Digit [a]
  | lang_Bound : lang icase Bound []
  | lang_Seq r1 r2 w1 w2 :
      lang icase r1 w1 -> lang icase r2 w2 -> lang icase (Seq r1 r2) (w1 ++ w2)%list
  | lang_Alt_l r1 r2 w : lang icase r1 w -> lang icase (Alt r1 r2) w
  | lang_Alt_r r1 r2 w : lang icase r2 w -> lang icase (Alt r1 r2) w
  | lang_Star_nil r : lang icase (Star r) []
  | lang_Star_cons r w1 w2 :
      lang icase r w1 -> lang icase (Star r) w2 -> lang icase (Star r) (w1 ++ w2)%list.

End Regex.

(** * LanguageProcessing *)

Module LanguageProcessing.
Import Regex.

Record Entity : Type := mkEntity {
  type : string;
  value : string;
  start : nat;
  end_ : nat;
  e_confidence : Q
}.

Record Intent : Type := mkIntent {
  name : string;
  i_confidence : Q;
  i_entities : list Entity
}.

Record ProcessingResult : Type := mkResult {
  intent : string;
  action : string;
  entities : list Entity;
  confidence : Q;
  originalText : string
}.

(** The two pattern tables of the class, in the order of their keys.  The
    intent patterns are patterns without the flag [g], the entity patterns
    are patterns with it, as [initializePatterns] writes them. *)
Record t : Type := mkProcessor {
  intentPatterns : list (string * list RegExp);
  entityPatterns : list (string * RegExp)
}.

(** [/.../i] *)
Definition ri (r : regex) : RegExp := mkRegExp r true.

Definition sp : regex := Plus Space.       (* \s+ *)
Definition sp0 : regex := Star Space.      (* \s* *)
Definition the_ : regex := Opt (Seq (lit "the") sp).   (* (?:the\s+)? *)
Definition rest : regex := Plus Any.       (* (.+) *)
Definition whats : regex := Seq (lit "what") (Alt (lit "'s") (Seq sp (lit "is"))).

Definition device_control_patterns : list RegExp :=
  [ ri (seq [lit "turn"; sp; words "on" ["off"]; sp; the_; rest]);
    ri (seq [lit "switch"; sp; words "on" ["off"]; sp; the_; rest]);
    ri (seq [words "dim" ["brighten"]; sp; the_; rest]);
    ri (seq [lit "set"; sp; the_; rest; sp; lit "to"; sp; rest]);
    ri (seq [words "start" ["stop"]; sp; the_; rest]);
    ri (seq [words "increase" ["decrease"]; sp; the_; rest]) ].

Definition information_request_patterns : list RegExp :=
  [ ri (seq [whats; sp; the_; rest]);
    ri (seq [lit "how"; sp; rest]);
    ri (seq [lit "when"; sp; rest]);
    ri (seq [lit "where"; sp; rest]);
    ri (seq [lit "tell"; sp; lit "me"; sp; lit "about"; sp; rest]);
    ri (seq [lit "what"; sp; lit "time"; sp; lit "is"; sp; lit "it"]);
    ri (seq [whats; sp; lit "the"; sp; lit "weather"]) ].

Definition system_control_patterns : list RegExp :=
  [ ri (words "stop" ["pause"; "halt"]);
    ri (words "resume" ["continue"]);
    ri (words "restart" ["reboot"]);
    ri (words "help" ["assist"]);
    ri (seq [lit "volume"; sp; words "up" ["down"]]);
    ri (seq [lit "repeat"; sp; lit "that"]) ].

Definition greeting_patterns : list RegExp :=
  [ ri (alt (lit "hello")
            [lit "hi"; lit "hey";
             seq [lit "good"; sp; words "morning" ["afternoon"; "evening"]]]) ].

Definition goodbye_patterns : list RegExp :=
  [ ri (alt (lit "goodbye") [lit "bye"; seq [lit "see"; sp; lit "you"]; lit "farewell"]) ].

(** [/\b(...)\b/gi] *)
Definition whole_word (r : regex) : RegExp := ri (seq [Bound; r; Bound]).

Definition device_pattern : RegExp :=
  whole_word
    (alt (lit "light")
       [lit "lamp"; lit "thermostat"; lit "tv"; lit "television"; lit "music";
        lit "speaker"; lit "fan"; lit "heater";
        seq [lit "air"; sp0; lit "conditioner"];
        seq [lit "coffee"; sp0; lit "maker"];
        lit "vacuum"; lit "camera"; lit "lock"; lit "alarm"]).

Definition room_pattern : RegExp :=
  whole_word
    (alt (seq [lit "living"; sp0; lit "room"])
       [lit "bedroom"; lit "kitchen"; lit "bathroom";
        seq [lit "dining"; sp0; lit "room"];
        lit "office"; lit "garage"; lit "basement"; lit "attic"; lit "hallway";
        lit "study"]).

Definition number_pattern : RegExp :=
  whole_word
    (alt (Plus Digit)
       (map lit
          ["one"; "two"; "three"; "four"; "five"; "six"; "seven"; "eight"; "nine"; "ten";
           "eleven"; "twelve"; "thirteen"; "fourteen"; "fifteen"; "sixteen"; "seventeen";
           "eighteen"; "nineteen"; "twenty"; "thirty"; "forty"; "fifty"; "sixty";
           "seventy"; "eighty"; "ninety"; "hundred"])).

Definition color_pattern : RegExp :=
  whole_word
    (words "red" ["blue"; "green"; "yellow"; "orange"; "purple"; "pink"; "white"; "black";
                  "gray"; "grey"; "brown"]).

Definition action_pattern : RegExp :=
  whole_word
    (words "on" ["off"; "up"; "down"; "increase"; "decrease"; "dim"; "brighten"; "start";
                 "stop"; "play"; "pause"; "resume"]).

(** [/\b(\d+)\s*(?:degrees?|°)\s*(?:fahrenheit|celsius|f|c)?\b/gi] *)
Definition temperature_pattern : RegExp :=
  ri (seq [Bound; Plus Digit; sp0;
           Alt (Seq (lit "degree") (Opt (Chr "s"))) (lit "°");
           sp0; Opt (words "fahrenheit" ["celsius"; "f"; "c"]); Bound]).

(** [initializePatterns]. *)
Definition initializePatterns : t :=
  mkProcessor
    [ ("device_control", device_control_patterns);
      ("information_request", information_request_patterns);
      ("system_control", system_control_patterns);
      ("greeting", greeting_patterns);
      ("goodbye", goodbye_patterns) ]
    [ ("device", device_pattern);
      ("room", room_pattern);
      ("number", number_pattern);
      ("color", color_pattern);
      ("action", action_pattern);
      ("temperature", temperature_pattern) ].

Definition Qgtb (a b : Q) : bool := negb (Qle_bool a b).

(** [calculatePatternConfidence]; [m] is the index and the text of the
    match.  The result [None] is [NaN], the value of 0/0 for an empty
    command. *)
Definition calculatePatternConfidence (m : nat * list ascii) (command : list ascii)
  : option Q :=
  let matchedLength := length (snd m) in
  let commandLength := length command in
  match commandLength with
  | O => match matchedLength with O => None | S _ => Some 1%Q end
  | S _ =>
      let coverage := (Z.of_nat matchedLength # Pos.of_nat commandLength)%Q in
      let confidence := (coverage * (8 # 10))%Q in
      let confidence :=
        if (fst m =? 0)%nat
           || match nth_error command (fst m - 1) with
              | Some c => is_space c
              | None => false
              end
        then (confidence + (1 # 10))%Q
        else confidence in
      Some (if Qle_bool confidence 1 then confidence else 1%Q)
  end.

Definition unknownIntent : Intent := mkIntent "unknown" 0 [].

(** One iteration of the inner loop of [extractIntent]. *)
Definition tryPattern (command : list ascii) (intentName : string)
    (bestMatch : Intent) (pattern : RegExp) : Intent :=
  match str_match pattern command with
  | Some m =>
      match calculatePatternConfidence m command with
      | Some c =>
          if Qgtb c (i_confidence bestMatch) then mkIntent intentName c [] else bestMatch
      | None => bestMatch
      end
  | None => bestMatch
  end.

Definition extractIntent (lp : t) (command : list ascii) : Intent :=
  fold_left
    (fun bestMatch '(intentName, patterns) =>
       fold_left (tryPattern command intentName) patterns bestMatch)
    (intentPatterns lp) unknownIntent.

(** [value.replace(/\s+/g, '_')]. *)
Fixpoint replace_spaces_from (in_run : bool) (l : list ascii) : list ascii :=
  match l with
  | [] => []
  | c :: l' =>
      if is_space c
      then (if in_run then replace_spaces_from true l'
            else "_"%char :: replace_spaces_from true l')
      else c :: replace_spaces_from false l'
  end.

Definition replace_spaces (l : list ascii) : list ascii := replace_spaces_from false l.

Definition numberMap : list (string * Z) :=
  [ ("zero", 0); ("one", 1); ("two", 2); ("three", 3); ("four", 4); ("five", 5);
    ("six", 6); ("seven", 7); ("eight", 8); ("nine", 9); ("ten", 10);
    ("eleven", 11); ("twelve", 12); ("thirteen", 13); ("fourteen", 14); ("fifteen", 15);
    ("sixteen", 16); ("seventeen", 17); ("eighteen", 18); ("nineteen", 19); ("twenty", 20);
    ("thirty", 30); ("forty", 40); ("fifty", 50); ("sixty", 60); ("seventy", 70);
    ("eighty", 80); ("ninety", 90); ("hundred", 100) ]%Z.

Fixpoint assoc {A : Type} (k : string) (l : list (string * A)) : option A :=
  match l with
  | [] => None
  | (k', v) :: l' => if String.eqb k k' then Some v else assoc k l'
  end.

(** The value of the longest prefix of decimal digits, if there is one. *)
Fixpoint digits_prefix (l : list ascii) (acc : option Z) : option Z :=
  match l with
  | c :: l' =>
      if is_digit c
      then digits_prefix l' (Some (10 * default 0%Z acc + Z.of_nat (nat_of_ascii c - 48))%Z)
      else acc
  | [] => acc
  end.

(** [parseInt(word)] on decimal input: leading white space and a sign are
    accepted; [None] is [NaN]. *)
Definition parseInt (word : list ascii) : option Z :=
  match trim_start word with
  | "-"%char :: l => option_map Z.opp (digits_prefix l None)
  | "+"%char :: l => digits_prefix l None
  | l => digits_prefix l None
  end.

(** [numberMap[word] || parseInt(word) || 0]. *)
Definition wordToNumber (word : list ascii) : Z :=
  let from_map := default 0%Z (assoc (string_of_list_ascii word) numberMap) in
  if negb (Z.eqb from_map 0) then from_map
  else
    let parsed := default 0%Z (parseInt word) in
    if negb (Z.eqb parsed 0) then parsed else 0%Z.

Definition normalizeEntityValue (value : list ascii) (entityType : string) : string :=
  let normalized := trim_chars (toLowerCase value) in
  if String.eqb entityType "number" then pretty (wordToNumber normalized)
  else if String.eqb entityType "device" then string_of_list_ascii (replace_spaces normalized)
  else if String.eqb entityType "room" then string_of_list_ascii (replace_spaces normalized)
  else string_of_list_ascii normalized.

(** [extractEntities]; [None] when a [while] loop over the matches of some
    pattern does not end. *)
Fixpoint extractEntitiesFrom (patterns : list (string * RegExp)) (text : list ascii)
  : option (list Entity) :=
  match patterns with
  | [] => Some []
  | (entityType, pattern) :: patterns' =>
      match exec_all pattern text with
      | None => None
      | Some ms =>
          match extractEntitiesFrom patterns' text with
          | None => None
          | Some es =>
              Some (map (fun m : nat * list ascii =>
                           mkEntity entityType (normalizeEntityValue (snd m) entityType)
                                    (fst m) (fst m + length (snd m))%nat (9 # 10))
                        ms ++ es)%list
          end
      end
  end.

Definition extractEntities (lp : t) (text : list ascii) : option (list Entity) :=
  extractEntitiesFrom (entityPatterns lp) text.

Definition deviceActionOf (v : string) : string :=
  if String.eqb v "on" then "turn_on"
  else if String.eqb v "off" then "turn_off"
  else if String.eqb v "up" || String.eqb v "increase" then "increase"
  else if String.eqb v "down" || String.eqb v "decrease" then "decrease"
  else if String.eqb v "dim" then "dim"
  else if String.eqb v "brighten" then "brighten"
  else if String.eqb v "start" || String.eqb v "play" then "start"
  else if String.eqb v "stop" || String.eqb v "pause" then "stop"
  else v.

Definition determineDeviceAction (entities : list Entity) (command : list ascii) : string :=
  match List.find (fun e => String.eqb (type e) "action") entities with
  | Some actionEntity => deviceActionOf (value actionEntity)
  | None =>
      if test (ri (Alt (seq [lit "turn"; sp; lit "on"]) (seq [lit "switch"; sp; lit "on"])))
              command then "turn_on"
      else if test (ri (Alt (seq [lit "turn"; sp; lit "off"]) (seq [lit "switch"; sp; lit "off"])))
                   command then "turn_off"
      else if test (ri (lit "dim")) command then "dim"
      else if test (ri (lit "brighten")) command then "brighten"
      else if test (ri (words "start" ["play"])) command then "start"
      else if test (ri (words "stop" ["pause"])) command then "stop"
      else if test (ri (seq [lit "set"; Star Any; lit "to"])) command then "set_value"
      else "control"
  end.

Definition determineSystemAction (command : list ascii) : string :=
  if test (ri (words "stop" ["pause"; "halt"])) command then "stop"
  else if test (ri (words "resume" ["continue"])) command then "resume"
  else if test (ri (words "restart" ["reboot"])) command then "restart"
  else if test (ri (words "help" ["assist"])) command then "help"
  else if test (ri (seq [lit "volume"; sp; lit "up"])) command then "volume_up"
  else if test (ri (seq [lit "volume"; sp; lit "down"])) command then "volume_down"
  else if test (ri (lit "repeat")) command then "repeat"
  else "system_control".

Definition determineAction (i : Intent) (entities : list Entity) (command : list ascii)
  : string :=
  if String.eqb (name i) "device_control" then determineDeviceAction entities command
  else if String.eqb (name i) "information_request" then "get_information"
  else if String.eqb (name i) "system_control" then determineSystemAction command
  else if String.eqb (name i) "greeting" then "greet"
  else if String.eqb (name i) "goodbye" then "farewell"
  else "unknown".

(** [command.toLowerCase().trim()]. *)
Definition normalize (command : string) : list ascii :=
  trim_chars (toLowerCase (list_ascii_of_string command)).

(** [processCommand]; the result is [None] when the extraction of the
    entities does not end. *)
Definition processCommand (lp : t) (command : string) : option ProcessingResult :=
  let normalizedCommand := normalize command in
  let i := extractIntent lp normalizedCommand in
  match extractEntities lp (list_ascii_of_string command) with
  | None => None
  | Some entities =>
      let action := determineAction i entities normalizedCommand in
      Some (mkResult (name i) action entities (i_confidence i) command)
  end.

(** No pattern of the intent table matches the command. *)
Definition noPatternMatches (lp : t) (command : list ascii) : bool :=
  forallb (fun entry : string * list RegExp =>
             forallb (fun pattern => negb (test pattern command)) (snd entry))
          (intentPatterns lp).

Definition hasEntity (ty : string) (p : string -> bool) (es : list Entity) : bool :=
  existsb (fun e => String.eqb (type e) ty && p (value e)) es.

(** [value.includes(sub)]. *)
Definition includes (sub : string) (value : string) : bool :=
  test (mkRegExp (lit sub) false) (list_ascii_of_string value).

(** The confidence of a match in the words of the specification: the share
    of the command that the match covers, times 0.8, plus 0.1 when [bonus]
    holds, and at most 1. *)
Definition spec_confidence (matched total : nat) (bonus : bool) : Q :=
  Qmin (inject_Z (Z.of_nat matched) / inject_Z (Z.of_nat total) * (8 # 10)
        + (if bonus then 1 # 10 else 0))%Q 1%Q.

(** The match starts at position 0 or right after a white space. *)
Definition starts_word (index : nat) (command : list ascii) : bool :=
  (index =? 0)%nat
  || match nth_error command (index - 1) with
     | Some c => is_space c
     | None => false
     end.

(** No entity pattern of the table can match the empty string. *)
Definition consuming (lp : t) : bool :=
  forallb (fun entry : string * RegExp => (1 <=? min_len (source (snd entry)))%nat)
          (entityPatterns lp).

(** [text.substring(from, to)] for [from <= to]. *)
Definition substring (from to : nat) (text : list ascii) : list ascii :=
  firstn (to - from) (skipn from text).

(** What the loops of [extractIntent] keep true of [bestMatch]. *)
Definition attained (lp : t) (command : list ascii) (i : Intent) : Prop :=
  i = unknownIntent
  \/ exists patterns pattern m,
       In (name i, patterns) (intentPatterns lp)
       /\ In pattern patterns
       /\ str_match pattern command = Some m
       /\ calculatePatternConfidence m command = Some (i_confidence i)
       /\ (0 < i_confidence i <= 1)%Q
       /\ i_entities i = [].

(** The values that the entities of the four word patterns can have. *)
Definition deviceWords : list string :=
  [ "light"; "lamp"; "thermostat"; "tv"; "television"; "music"; "speaker"; "fan"; "heater";
    "air_conditioner"; "airconditioner"; "coffee_maker"; "coffeemaker";
    "vacuum"; "camera"; "lock"; "alarm" ].

Definition roomWords : list string :=
  [ "living_room"; "livingroom"; "bedroom"; "kitchen"; "bathroom";
    "dining_room"; "diningroom"; "office"; "garage"; "basement"; "attic"; "hallway";
    "study" ].

Definition colorWords : list string :=
  [ "red"; "blue"; "green"; "yellow"; "orange"; "purple"; "pink"; "white"; "black";
    "gray"; "grey"; "brown" ].

Definition actionWords : list string :=
  [ "on"; "off"; "up"; "down"; "increase"; "decrease"; "dim"; "brighten"; "start";
    "stop"; "play"; "pause"; "resume" ].

(** A word of lower-case characters without white space. *)
Definition plain_word (l : list ascii) : bool :=
  forallb (fun c => negb (is_space c) && Ascii.eqb (lower c) c) l.

(** The value of a match, as [normalizeEntityValue] computes it for a device
    or a room. *)
Definition joined (w : list ascii) : list ascii :=
  replace_spaces (trim_chars (toLowerCase w)).

End LanguageProcessing.

(** * ConfigManager *)

Module ConfigManager.

(** JavaScript numbers of the configuration: the finite ones are rationals. *)
Inductive number : Type :=
  | Finite (q : Q)
  | NotANumber
  | Infinity (negative : bool).

(** JavaScript values: what a configuration can hold.  An object is the list
    of its own properties in insertion order, with distinct keys. *)
Inductive jsval : Type :=
  | JUndefined
  | JNull
  | JBool (b : bool)
  | JNum (n : number)
  | JStr (s : string)
  | JArr (items : list jsval)
  | JObj (fields : list (string * jsval)).

(** JSON documents: what a valid JSON text denotes. *)
Inductive json : Type :=
  | DNull
  | DBool (b : bool)
  | DNum (q : Q)
  | DStr (s : string)
  | DArr (items : list json)
  | DObj (fields : list (string * json)).

(** A string, seen through [JSON.parse]: the document it denotes, or no
    document at all when it is not valid JSON. *)
Inductive text : Type :=
  | Json (doc : json)
  | NotJson.

(** [JSON.stringify(value)]: [undefined] has no JSON form ([None]); it is
    left out of an object and becomes [null] in an array; [NaN] and the
    infinities become [null]. *)
Fixpoint JSON_stringify (v : jsval) : option json :=
  match v with
  | JUndefined => None
  | JNull => Some DNull
  | JBool b => Some (DBool b)
  | JNum (Finite q) => Some (DNum q)
  | JNum _ => Some DNull
  | JStr s => Some (DStr s)
  | JArr items =>
      Some (DArr (map (fun x => match JSON_stringify x with
                                | Some d => d
                                | None => DNull
                                end) items))
  | JObj fields =>
      Some (DObj ((fix members (fs : list (string * jsval)) : list (string * json) :=
                     match fs with
                     | [] => []
                     | (k, x) :: fs' =>
                         match JSON_stringify x with
                         | Some d => (k, d) :: members fs'
                         | None => members fs'
                         end
                     end) fields))
  end.

(** The value that [JSON.parse] builds from a document. *)
Fixpoint JSON_value (d : json) : jsval :=
  match d with
  | DNull => JNull
  | DBool b => JBool b
  | DNum q => JNum (Finite q)
  | DStr s => JStr s
  | DArr items => JArr (map JSON_value items)
  | DObj fields =>
      JObj ((fix members (fs : list (string * json)) : list (string * jsval) :=
               match fs with
               | [] => []
               | (k, x) :: fs' => (k, JSON_value x) :: members fs'
               end) fields)
  end.

(** [JSON.parse(str)]: [None] when it throws. *)
Definition JSON_parse (str : text) : option jsval :=
  match str with
  | Json doc => Some (JSON_value doc)
  | NotJson => None
  end.

(** Truthiness, for [x || y] and [x && y]. *)
Definition truthy (v : jsval) : bool :=
  match v with
  | JUndefined | JNull => false
  | JBool b => b
  | JNum (Finite q) => negb (Z.eqb (Qnum q) 0)
  | JNum NotANumber => false
  | JNum (Infinity _) => true
  | JStr s => negb (String.eqb s "")
  | JArr _ | JObj _ => true
  end.

Definition chars_of (s : string) : list jsval :=
  map (fun c => JStr (String c EmptyString)) (list_ascii_of_string s).

(** The own enumerable properties of a value, as [{...v}] copies them and
    [for (key in v)] visits them: the fields of an object, the indices of an
    array or of a string, nothing for the other values. *)
Definition own_fields (v : jsval) : list (string * jsval) :=
  match v with
  | JObj fields => fields
  | JArr items => imap (fun i x => (pretty i, x)) items
  | JStr s => imap (fun i x => (pretty i, x)) (chars_of s)
  | _ => []
  end.

Fixpoint lookup_field (k : string) (fields : list (string * jsval)) : option jsval :=
  match fields with
  | [] => None
  | (k', x) :: fields' => if String.eqb k k' then Some x else lookup_field k fields'
  end.

(** [v[key]], for own properties and [length]; a missing property reads as
    [undefined].  Inherited properties, such as toString, are not
    represented: see [plain_merge]. *)
Definition get_prop (v : jsval) (key : string) : jsval :=
  match lookup_field key (own_fields v) with
  | Some x => x
  | None =>
      if String.eqb key "length" then
        match v with
        | JArr items => JNum (Finite (inject_Z (Z.of_nat (length items))))
        | JStr s => JNum (Finite (inject_Z (Z.of_nat (String.length s))))
        | _ => JUndefined
        end
      else JUndefined
  end.

(** [result[key] = x] on the fields of an object: an existing key keeps its
    place, a new key goes last.  The key __proto__, which such an assignment
    hands to the setter of [Object.prototype] when the object has no own
    property of that name, is treated like any other: see [plain_merge]. *)
Fixpoint assign (fields : list (string * jsval)) (key : string) (x : jsval)
  : list (string * jsval) :=
  match fields with
  | [] => [(key, x)]
  | (k', x') :: fields' =>
      if String.eqb key k' then (key, x) :: fields'
      else (k', x') :: assign fields' key x
  end.

(** [target[key] || {}] *)
Definition or_empty (v : jsval) : jsval := if truthy v then v else JObj [].

(** The value that the loop of [deepMerge] stores in [result[key]], where
    [t] is [target[key]] and [x] is [source[key]]: for an object [x] (truthy,
    of type 'object', not an array) the nested [deepMerge(t || {}, x)], and
    [x] itself otherwise. *)
Fixpoint mergeValue (t x : jsval) {struct x} : jsval :=
  match x with
  | JObj inner =>
      let target := or_empty t in
      JObj (fold_left
              (fun result kv =>
                 assign result (fst kv) (mergeValue (get_prop target (fst kv)) (snd kv)))
              inner (own_fields target))
  | _ => x
  end.

(** [deepMerge(target, source)]: [result] starts as [{...target}] and the
    loop visits the properties of [source]. *)
Definition deepMerge (target source : jsval) : jsval :=
  JObj (fold_left
          (fun result kv =>
             assign result (fst kv) (mergeValue (get_prop target (fst kv)) (snd kv)))
          (own_fields source) (own_fields target)).

Definition q (n : Z) (d : positive) : jsval := JNum (Finite (n # d)).

Definition defaultConfig : jsval :=
  JObj
    [ ("speechRecognition",
       JObj [ ("continuous", JBool true); ("interimResults", JBool false);
              ("language", JStr "en-US"); ("maxAlternatives", q 1 1);
              ("autoRestart", JBool true) ]);
      ("speechSynthesis",
       JObj [ ("defaultLanguage", JStr "en-US"); ("rate", q 1 1); ("pitch", q 1 1);
              ("volume", q 1 1) ]);
      ("deviceManager",
       JObj [ ("discoveryInterval", q 30000 1); ("connectionTimeout", q 5000 1);
              ("retryAttempts", q 3 1) ]);
      ("minConfidence", q 7 10);
      ("logLevel", JStr "INFO") ].

(** [{ ...a, ...b }] *)
Definition spread2 (a b : jsval) : jsval :=
  JObj (fold_left (fun acc kv => assign acc (fst kv) (snd kv)) (own_fields b) (own_fields a)).

(** The constructor, in an environment that sets none of the six variables
    read by [loadFromEnvironment]; [JUndefined] is the omitted argument. *)
Definition construct (initialConfig : jsval) : jsval := spread2 defaultConfig initialConfig.

Definition reset : jsval := spread2 defaultConfig JUndefined.

Definition update (config newConfig : jsval) : jsval := deepMerge config newConfig.

(** [export()]: the JSON text of the configuration.  The configuration is an
    object, which always has a JSON form. *)
Definition export (config : jsval) : text :=
  match JSON_stringify config with
  | Some doc => Json doc
  | None => NotJson
  end.

Inductive outcome : Type :=
  | Returned
  | Threw (message : string).

(** [import(configJson)]: the configuration afterwards and how the call
    ended. *)
Definition import (config : jsval) (configJson : text) : jsval * outcome :=
  match JSON_parse configJson with
  | Some importedConfig => (update config importedConfig, Returned)
  | None => (config, Threw "Invalid configuration JSON")
  end.

(** Values that JSON represents as they are: no [undefined], [NaN] or
    infinity anywhere. *)
Fixpoint json_value (v : jsval) : bool :=
  match v with
  | JUndefined => false
  | JNull | JBool _ | JStr _ => true
  | JNum (Finite _) => true
  | JNum _ => false
  | JArr items => forallb json_value items
  | JObj fields => forallb (fun kv => json_value (snd kv)) fields
  end.

Fixpoint distinct (keys : list string) : bool :=
  match keys with
  | [] => true
  | k :: keys' => negb (existsb (String.eqb k) keys') && distinct keys'
  end.

(** The keys of every object in the value are distinct. *)
Fixpoint well_formed (v : jsval) : bool :=
  match v with
  | JArr items => forallb well_formed items
  | JObj fields =>
      distinct (map fst fields) && forallb (fun kv => well_formed (snd kv)) fields
  | _ => true
  end.

(** The property names that every object inherits from [Object.prototype]:
    its methods and the accessor [__proto__]. *)
Definition inherited_names : list string :=
  [ "__proto__"; "constructor"; "__defineGetter__"; "__defineSetter__"; "hasOwnProperty";
    "__lookupGetter__"; "__lookupSetter__"; "isPrototypeOf"; "propertyIsEnumerable";
    "toString"; "valueOf"; "toLocaleString" ].

Definition inherited_name (key : string) : bool :=
  existsb (String.eqb key) inherited_names.

Definition is_object (v : jsval) : bool :=
  match v with JObj _ => true | _ => false end.

(** The merges of plain objects under ordinary keys.  No key of [source], at
    any depth that [deepMerge] descends to, is a name inherited from
    [Object.prototype]; and wherever [source] holds an object, [target]
    holds a plain object or something falsy.  On these [target[key]] is an
    own property or [undefined], and [result[key] = x] creates or updates an
    own property. *)
Fixpoint plain_merge (target source : jsval) {struct source} : bool :=
  match source with
  | JObj inner =>
      is_object target
      && forallb (fun kv =>
                    negb (inherited_name (fst kv))
                    && match snd kv with
                       | JObj _ =>
                           let t := get_prop target (fst kv) in
                           (negb (truthy t) || is_object t)
                           && plain_merge (or_empty t) (snd kv)
                       | _ => true
                       end)
                 inner
  | _ => true
  end.

(** The loop of [deepMerge] over the properties [source], from [start]. *)
Abbreviation merge_loop target source start :=
  (fold_left
     (fun result kv =>
        assign result (fst kv) (mergeValue (get_prop target (fst kv)) (snd kv)))
     source start).

End ConfigManager.

(** * EventEmitter *)

Module EventEmitter.

(** A registered callback.  [callback] identifies the function (two
    registrations of one function have the same [callback]); [stamp] numbers
    the registrations in the order of the calls of [on]. *)
Record listener : Type := mkListener {
  stamp : nat;
  callback : nat
}.

(** What a callback does to the emitter it is registered with while it runs:
    calls of [on] and [off] (the wrapper installed by [once] is such a
    callback), after which it returns or throws. *)
Inductive action : Type :=
  | Subscribe (event : string) (callback : nat)
  | Unsubscribe (event : string) (callback : nat).

Record behaviour : Type := mkBehaviour {
  actions : list action;
  throws : bool
}.

Record t : Type := mkEmitter {
  events : gmap string (list listener);
  clock : nat
}.

Inductive completion : Type := Normal | Abrupt.

Definition create : t := mkEmitter ∅ O.

Definition on (e : t) (event : string) (cb : nat) : t :=
  mkEmitter
    (<[event := (default [] (events e !! event) ++ [mkListener (clock e) cb])%list]> (events e))
    (S (clock e)).

(** [callbacks.indexOf(cb)]; [None] is -1. *)
Fixpoint indexOf (cb : nat) (callbacks : list listener) : option nat :=
  match callbacks with
  | [] => None
  | l :: callbacks' =>
      if (callback l =? cb)%nat then Some O else option_map S (indexOf cb callbacks')
  end.

(** [callbacks.splice(index, 1)] *)
Fixpoint splice_out {A : Type} (index : nat) (l : list A) : list A :=
  match l, index with
  | [], _ => []
  | _ :: l', O => l'
  | x :: l', S i => x :: splice_out i l'
  end.

Definition off (e : t) (event : string) (cb : nat) : t :=
  match events e !! event with
  | Some callbacks =>
      match indexOf cb callbacks with
      | Some index => mkEmitter (<[event := splice_out index callbacks]> (events e)) (clock e)
      | None => e
      end
  | None => e
  end.

Definition perform (e : t) (a : action) : t :=
  match a with
  | Subscribe event cb => on e event cb
  | Unsubscribe event cb => off e event cb
  end.

(** The call [callback(data)]; [code cb e] is what the function [cb] does
    when it is called with the data of this [emit] in the state [e]. *)
Definition call (code : nat -> t -> behaviour) (e : t) (cb : nat) : t * completion :=
  let b := code cb e in
  (fold_left perform (actions b) e, if throws b then Abrupt else Normal).

(** [try { callback(data) } catch (error) { console.error(...) }]: the
    state, how the statement completes, and whether an error was logged. *)
Definition tryCatch (r : t * completion) : t * completion * bool :=
  match snd r with
  | Normal => (fst r, Normal, false)
  | Abrupt => (fst r, Normal, true)
  end.

Record emitted : Type := mkEmitted {
  final : t;
  invoked : list listener;
  logged : list listener;
  result : completion
}.

(** [callbacks.forEach(...)]: the indices below the length that the array
    had at the start are visited in increasing order; an index that the
    array no longer has is skipped.  The array is the one stored under
    [event], which the callbacks may change while the loop runs. *)
Fixpoint forEach (code : nat -> t -> behaviour) (event : string) (remaining k : nat)
    (e : t) (inv lg : list listener) : emitted :=
  match remaining with
  | O => mkEmitted e inv lg Normal
  | S remaining' =>
      match default [] (events e !! event) !! k with
      | None => forEach code event remaining' (S k) e inv lg
      | Some l =>
          let '(e', c, err) := tryCatch (call code e (callback l)) in
          match c with
          | Abrupt => mkEmitted e' (inv ++ [l]) lg Abrupt
          | Normal =>
              forEach code event remaining' (S k) e' (inv ++ [l])
                      (if err then lg ++ [l] else lg)
          end
      end
  end.

Definition emit (code : nat -> t -> behaviour) (e : t) (event : string) : emitted :=
  match events e !! event with
  | Some callbacks => forEach code event (length callbacks) O e [] []
  | None => mkEmitted e [] [] Normal
  end.

(** The same callbacks, except that none of them throws. *)
Definition quiet (code : nat -> t -> behaviour) : nat -> t -> behaviour :=
  fun cb e => mkBehaviour (actions (code cb e)) false.

(** The stamps of a list of listeners increase strictly: the list is in
    registration order and no registration occurs in it twice. *)
Definition in_order (ls : list listener) : Prop :=
  StronglySorted lt (map stamp ls).

(** Every list of the emitter holds its registrations in order, with stamps
    that the clock has already passed. *)
Definition consistent (e : t) : Prop :=
  forall event callbacks,
    events e !! event = Some callbacks ->
    in_order callbacks /\ Forall (fun l => (stamp l < clock e)%nat) callbacks.

Definition listenerCount (e : t) (event : string) : nat :=
  match events e !! event with
  | Some callbacks => length callbacks
  | None => O
  end.

(** [removeAllListeners(event?)]: an omitted event, and the empty string,
    which is falsy, clear every event. *)
Definition removeAllListeners (e : t) (event : option string) : t :=
  match event with
  | Some ev =>
      if String.eqb ev "" then mkEmitter ∅ (clock e)
      else mkEmitter (delete ev (events e)) (clock e)
  | None => mkEmitter ∅ (clock e)
  end.

(** The wrapper that [once(event, callback)] registers: it calls the
    callback and then takes itself off the event; when the callback throws,
    the call of [off] is not reached.  [wrapper] identifies the wrapper and
    [inner] is what the callback does. *)
Definition onceCallback (event : string) (wrapper : nat) (inner : behaviour) : behaviour :=
  if throws inner then inner
  else mkBehaviour (actions inner ++ [Unsubscribe event wrapper])%list false.

(** Callbacks that leave the emitter alone and throw as [throwers] says,
    except for [wrapper], which is the [once] wrapper of such a callback;
    [innerThrows] tells whether that callback throws. *)
Definition withOnce (event : string) (wrapper : nat) (innerThrows : bool)
    (throwers : nat -> bool) : nat -> t -> behaviour :=
  fun cb _ =>
    if (cb =? wrapper)%nat then onceCallback event wrapper (mkBehaviour [] innerThrows)
    else mkBehaviour [] (throwers cb).

(** The array registered under an event ([[]] when there is none). *)
Abbreviation arr e event := (default [] (events e !! event)).

(** What a callback can do to the array being visited.
    [moved event e e']: every listener that the array of [event] holds at an
    index [i] in [e'] was at an index from [i] on in [e], or was registered
    after [e]; and the clock does not go back. *)
Definition moved (event : string) (e e' : t) : Prop :=
  (clock e <= clock e')%nat
  /\ forall i x, arr e' event !! i = Some x ->
       (exists j, (i <= j)%nat /\ arr e event !! j = Some x) \/ (clock e <= stamp x)%nat.

(** The loop invariant: the emitter is consistent, the listeners invoked so
    far are in order, and they are older than the clock and than every
    listener that the array holds from index [k] on. *)
Definition visiting (event : string) (k : nat) (e : t) (inv : list listener) : Prop :=
  consistent e
  /\ in_order inv
  /\ Forall (fun l => (stamp l < clock e)%nat) inv
  /\ forall l i x,
       l ∈ inv -> (k <= i)%nat -> arr e event !! i = Some x -> (stamp l < stamp x)%nat.

End EventEmitter.

(** * ConfigManager on a heap

    [get], [set], [reset] and [validate] depend on which objects the
    configuration shares with the defaults: [{ ...this.defaultConfig }] copies
    the top-level properties only, so the nested sections of [config] and of
    [defaultConfig] are the same objects.  Here the objects live on a heap and
    a value is a primitive or a reference.  Every object of the heap is a
    plain object whose prototype is [Object.prototype]; [Object.prototype]
    itself is not on the heap and is taken to be as the language defines it.
    A call that would change it, or the prototype of an object, ends as
    [Unsupported].  Arrays are not among the values. *)

Module ConfigHeap.
Import ConfigManager.

Abbreviation loc := nat.

Inductive value : Type :=
  | VUndefined
  | VNull
  | VBool (b : bool)
  | VNum (n : number)
  | VStr (s : string)
  | VRef (l : loc)              (* a plain object of the heap *)
  | VFunction (name : string)   (* the method [name] of [Object.prototype] *)
  | VObjectPrototype.           (* [Object.prototype] *)

(** An object: its own properties. *)
Abbreviation object := (gmap string value).

Abbreviation heap := (list object).

Record t : Type := mkConfigManager {
  store : heap;
  config : loc;
  defaultConfig : loc
}.

(** How a call ends: it returns, it throws a [TypeError], or it leaves what
    this model represents. *)
Inductive result (A : Type) : Type :=
  | Done (a : A)
  | TypeError (a : A)
  | Unsupported.
Arguments Done {A} a.
Arguments TypeError {A} a.
Arguments Unsupported {A}.

(** [path.split('.')]: never the empty list. *)
Fixpoint split_path (path : string) : list string :=
  match path with
  | EmptyString => [""]
  | String c path' =>
      if Ascii.eqb c "." then "" :: split_path path'
      else
        match split_path path' with
        | key :: keys => String c key :: keys
        | [] => [String c ""]
        end
  end.

(** The data properties of [Object.prototype]; it has the accessor
    [__proto__] besides. *)
Definition prototype_methods : list string :=
  [ "constructor"; "__defineGetter__"; "__defineSetter__"; "hasOwnProperty";
    "__lookupGetter__"; "__lookupSetter__"; "isPrototypeOf"; "propertyIsEnumerable";
    "toString"; "valueOf"; "toLocaleString" ].

Definition is_method (key : string) : bool := existsb (String.eqb key) prototype_methods.

(** What a plain object inherits under [key]. *)
Definition inherited (key : string) : option value :=
  if String.eqb key "__proto__" then Some VObjectPrototype
  else if is_method key then Some (VFunction key)
  else None.

(** [current[key]] where [current] is truthy, of type 'object' and has
    [key in current]; [None] otherwise. *)
Definition read (h : heap) (current : value) (key : string) : option value :=
  match current with
  | VRef l =>
      match h !! l with
      | Some o =>
          match o !! key with
          | Some v => Some v
          | None => inherited key
          end
      | None => None
      end
  | VObjectPrototype =>
      if String.eqb key "__proto__" then Some VNull
      else if is_method key then Some (VFunction key)
      else None
  | _ => None
  end.

(** The loop of [get]; [None] where [get] returns [defaultValue]. *)
Fixpoint get_from (h : heap) (current : value) (keys : list string) : option value :=
  match keys with
  | [] => Some current
  | key :: keys' =>
      match read h current key with
      | Some v => get_from h v keys'
      | None => None
      end
  end.

Definition get (s : t) (path : string) (defaultValue : value) : value :=
  default defaultValue (get_from (store s) (VRef (config s)) (split_path path)).

(** Values that the setter of [__proto__] ignores. *)
Definition primitive (v : value) : bool :=
  match v with
  | VUndefined | VBool _ | VNum _ | VStr _ => true
  | _ => false
  end.

(** [current[key] = v].  On an object without an own property [__proto__]
    the assignment to that key runs the setter of [Object.prototype], which
    ignores a primitive [v] and changes the prototype otherwise. *)
Definition write (h : heap) (current : value) (key : string) (v : value) : result heap :=
  match current with
  | VRef l =>
      match h !! l with
      | Some o =>
          if String.eqb key "__proto__" && bool_decide (o !! key = None)
          then (if primitive v then Done h else Unsupported)
          else Done (<[l := <[key := v]> o]> h)
      | None => Unsupported
      end
  | VNull => TypeError h
  | _ => Unsupported
  end.

(** [typeof v === 'object'] *)
Definition object_type (v : value) : bool :=
  match v with
  | VRef _ | VNull | VObjectPrototype => true
  | _ => false
  end.

(** One round of the loop of [set]: the heap and the value of [current]
    after it.  A property that is missing or not of type 'object' is replaced
    by a new empty object; [key in null] throws. *)
Definition descend (h : heap) (current : value) (key : string) : result (heap * value) :=
  let replace :=
    match write h current key (VRef (length h)) with
    | Done h' => Done ((h' ++ [∅])%list, VRef (length h))
    | TypeError h' => TypeError (h', current)
    | Unsupported => Unsupported
    end in
  match current with
  | VNull => TypeError (h, current)
  | _ =>
      match read h current key with
      | Some next => if object_type next then Done (h, next) else replace
      | None => replace
      end
  end.

(** The loop of [set] and its last assignment. *)
Fixpoint set_from (h : heap) (current : value) (keys : list string) (v : value)
  : result heap :=
  match keys with
  | [] => Done h
  | [key] => write h current key v
  | key :: keys' =>
      match descend h current key with
      | Done (h', next) => set_from h' next keys' v
      | TypeError (h', _) => TypeError h'
      | Unsupported => Unsupported
      end
  end.

Definition with_store (s : t) (h : heap) : t := mkConfigManager h (config s) (defaultConfig s).

Definition set (s : t) (path : string) (v : value) : result t :=
  match set_from (store s) (VRef (config s)) (split_path path) v with
  | Done h => Done (with_store s h)
  | TypeError h => TypeError (with_store s h)
  | Unsupported => Unsupported
  end.

(** [reset()]: [config] becomes a new object with the own properties of
    [defaultConfig]. *)
Definition reset (s : t) : t :=
  match store s !! defaultConfig s with
  | Some o => mkConfigManager (store s ++ [o])%list (length (store s)) (defaultConfig s)
  | None => s
  end.

Definition vnum (n : Z) (d : positive) : value := VNum (Finite (n # d)).

Definition speechRecognitionDefaults : object :=
  {[ "continuous" := VBool true; "interimResults" := VBool false;
     "language" := VStr "en-US"; "maxAlternatives" := vnum 1 1;
     "autoRestart" := VBool true ]}.

Definition speechSynthesisDefaults : object :=
  {[ "defaultLanguage" := VStr "en-US"; "rate" := vnum 1 1; "pitch" := vnum 1 1;
     "volume" := vnum 1 1 ]}.

Definition deviceManagerDefaults : object :=
  {[ "discoveryInterval" := vnum 30000 1; "connectionTimeout" := vnum 5000 1;
     "retryAttempts" := vnum 3 1 ]}.

(** The top level of [defaultConfig], whose sections are at [l], [l + 1] and
    [l + 2]. *)
Definition defaults (l : loc) : object :=
  {[ "speechRecognition" := VRef l; "speechSynthesis" := VRef (l + 1)%nat;
     "deviceManager" := VRef (l + 2)%nat; "minConfidence" := vnum 7 10;
     "logLevel" := VStr "INFO" ]}.

(** The constructor up to its call of [loadFromEnvironment]: the defaults
    and [this.config = { ...this.defaultConfig, ...initialConfig }].  This is
    the whole constructor in an environment that sets none of the variables
    that [loadFromEnvironment] reads.  [initialConfig] holds the own
    properties of the argument, none when it is omitted; its references point
    into [h]. *)
Definition construct (h : heap) (initialConfig : object) : t :=
  let l := length h in
  mkConfigManager
    (h ++ [ speechRecognitionDefaults; speechSynthesisDefaults; deviceManagerDefaults;
            defaults l; initialConfig ∪ defaults l ])%list
    (l + 4)%nat (l + 3)%nat.

(** [m * 10^k] as a rational. *)
Definition scaled (m k : Z) : Q :=
  if (0 <=? k)%Z then inject_Z (m * 10 ^ k) else m # Z.to_pos (10 ^ (- k)).

(** [parseFloat]: leading white space is skipped, and the longest prefix of
    the rest that is a signed decimal literal, or a signed [Infinity], gives
    the number; [NaN] when there is none.  The finite numbers being
    rationals, the literal is read exactly. *)
Definition parseFloat (s : string) : number :=
  let '(negative, l) := sign (trim_start (list_ascii_of_string s)) in
  if starts_with (list_ascii_of_string "Infinity") l then Infinity negative
  else
    match decimal_prefix l with
    | Some (m, k, _) => Finite (scaled (if negative then - m else m) k)
    | None => NotANumber
    end.

(** [process.env], by the variables that [loadFromEnvironment] reads; [None]
    is a variable that is not set.  Where there is no [process], or no
    [process.env], nothing is read, as when no variable is set. *)
Record Env : Type := mkEnv {
  SPEECH_LANGUAGE : option string;
  MIN_CONFIDENCE : option string;
  LOG_LEVEL : option string;
  SPEECH_RATE : option string;
  SPEECH_PITCH : option string;
  SPEECH_VOLUME : option string
}.

(** What follows a call that has returned; a call that throws ends the
    sequence. *)
Definition and_then (r : result t) (k : t -> result t) : result t :=
  match r with
  | Done s => k s
  | r => r
  end.

(** [if (env.X) { ... }]: a variable that is not set, or is set to the empty
    string, is falsy. *)
Definition when_set (x : option string) (k : string -> t -> result t) (s : t) : result t :=
  match x with
  | Some v => if String.eqb v "" then Done s else k v s
  | None => Done s
  end.

Definition loadFromEnvironment (s : t) (env : Env) : result t :=
  and_then
    (when_set (SPEECH_LANGUAGE env)
       (fun v s =>
          and_then (set s "speechRecognition.language" (VStr v))
                   (fun s => set s "speechSynthesis.defaultLanguage" (VStr v))) s)
  (fun s => and_then
    (when_set (MIN_CONFIDENCE env)
       (fun v s => set s "minConfidence" (VNum (parseFloat v))) s)
  (fun s => and_then
    (when_set (LOG_LEVEL env) (fun v s => set s "logLevel" (VStr v)) s)
  (fun s => and_then
    (when_set (SPEECH_RATE env)
       (fun v s => set s "speechSynthesis.rate" (VNum (parseFloat v))) s)
  (fun s => and_then
    (when_set (SPEECH_PITCH env)
       (fun v s => set s "speechSynthesis.pitch" (VNum (parseFloat v))) s)
  (fun s =>
    when_set (SPEECH_VOLUME env)
       (fun v s => set s "speechSynthesis.volume" (VNum (parseFloat v))) s))))).

(** [new ConfigManager(initialConfig)] in the environment [env]. *)
Definition constructor (h : heap) (initialConfig : object) (env : Env) : result t :=
  loadFromEnvironment (construct h initialConfig) env.

(** The environment sets none of the six variables, or sets them to the
    empty string. *)
Definition unset (env : Env) : bool :=
  forallb (fun x => match x with Some v => String.eqb v "" | None => true end)
          [ SPEECH_LANGUAGE env; MIN_CONFIDENCE env; LOG_LEVEL env; SPEECH_RATE env;
            SPEECH_PITCH env; SPEECH_VOLUME env ].

(** [a < b] and [a > b] on numbers: false when one of them is [NaN]. *)
Definition lt (a b : number) : bool :=
  match a, b with
  | Finite x, Finite y => negb (Qle_bool y x)
  | Infinity true, Finite _ | Infinity true, Infinity false | Finite _, Infinity false => true
  | _, _ => false
  end.

Definition gt (a b : number) : bool := lt b a.

(** [typeof x !== 'number' || x < lo || x > hi] *)
Definition out_of_range (x : value) (lo hi : Q) : bool :=
  match x with
  | VNum n => lt n (Finite lo) || gt n (Finite hi)
  | _ => true
  end.

(** [validate()]: each failed check throws inside the [try], and the [catch]
    returns false. *)
Definition validate (s : t) : bool :=
  let speechLang := get s "speechRecognition.language" VUndefined in
  if match speechLang with VStr l => String.eqb l "" | _ => true end then false
  else if out_of_range (get s "speechSynthesis.rate" VUndefined) (1 # 10) 10 then false
  else if out_of_range (get s "speechSynthesis.pitch" VUndefined) 0 2 then false
  else if out_of_range (get s "speechSynthesis.volume" VUndefined) 0 1 then false
  else if out_of_range (get s "minConfidence" VUndefined) 0 1 then false
  else true.

(** The checks of [validate] on the configuration at [c]. *)
Definition passes (h : heap) (c : loc) : bool :=
  let read_path keys := default VUndefined (get_from h (VRef c) keys) in
  if match read_path ["speechRecognition"; "language"] with
     | VStr l => String.eqb l ""
     | _ => true
     end then false
  else if out_of_range (read_path ["speechSynthesis"; "rate"]) (1 # 10) 10 then false
  else if out_of_range (read_path ["speechSynthesis"; "pitch"]) 0 2 then false
  else if out_of_range (read_path ["speechSynthesis"; "volume"]) 0 1 then false
  else if out_of_range (read_path ["minConfidence"]) 0 1 then false
  else true.

(** The three sections of the defaults. *)
Definition sections : list object :=
  [speechRecognitionDefaults; speechSynthesisDefaults; deviceManagerDefaults].

(** [Math.min] and [Math.max] on two numbers. *)
Definition num_min (a b : number) : number :=
  match a, b with
  | NotANumber, _ | _, NotANumber => NotANumber
  | _, _ => if lt b a then b else a
  end.

Definition num_max (a b : number) : number :=
  match a, b with
  | NotANumber, _ | _, NotANumber => NotANumber
  | _, _ => if lt a b then b else a
  end.

(** [Math.max(lo, Math.min(hi, n))] *)
Definition clamp (lo hi : Q) (n : number) : number :=
  num_max (Finite lo) (num_min (Finite hi) n).

(** One [if (settings.x !== undefined) this.config.set(path, ...)] of
    [SpeechSynthesis.setVoiceSettings]; [None] is an absent setting. *)
Definition setClamped (s : t) (path : string) (lo hi : Q) (x : option number) : result t :=
  match x with
  | Some n => set s path (VNum (clamp lo hi n))
  | None => Done s
  end.

(** [SpeechSynthesis.setVoiceSettings], as it acts on the configuration. *)
Definition setVoiceSettings (s : t) (rate pitch volume : option number) : result t :=
  match setClamped s "speechSynthesis.rate" (1 # 10) 10 rate with
  | Done s1 =>
      match setClamped s1 "speechSynthesis.pitch" 0 2 pitch with
      | Done s2 => setClamped s2 "speechSynthesis.volume" 0 1 volume
      | r => r
      end
  | r => r
  end.

(** The objects that the loops of [get] and [set] visit along [keys]. *)
Fixpoint trail (h : heap) (current : value) (keys : list string) : list loc :=
  match keys with
  | [] => []
  | key :: keys' =>
      (match current with VRef l => [l] | _ => [] end
       ++ match read h current key with
          | Some next => trail h next keys'
          | None => []
          end)%list
  end.

End ConfigHeap.

(** * SmartVoiceAssistant

    How the assistant carries out a device command: from the result of
    [LanguageProcessing.processCommand] to [DeviceManager.controlDevice] and
    the spoken answer. *)

Module SmartVoiceAssistant.
Import LanguageProcessing.

(** The components that [executeDeviceCommand] uses. *)
Record t : Type := mkAssistant {
  speechSynthesis : SpeechSynthesis.t;
  deviceManager : DeviceManager.t
}.

(** [entities.find(e => e.type === entityType)?.value] *)
Definition entityValue (entityType : string) (entities : list Entity) : option string :=
  option_map value (List.find (fun e => String.eqb (type e) entityType) entities).

(** A value that is present and not the empty string is truthy. *)
Definition present (x : option string) : bool :=
  match x with
  | Some s => negb (String.eqb s "")
  | None => false
  end.

(** [str.replace('_', ' ')]: the first underscore only. *)
Fixpoint replace_underscore (s : string) : string :=
  match s with
  | EmptyString => EmptyString
  | String c s' =>
      if Ascii.eqb c "_" then String " " s' else String c (replace_underscore s')
  end.

(** [room ? `${room}-${deviceId}` : deviceId] *)
Definition fullDeviceId (deviceId : string) (room : option string) : string :=
  if present room then default "" room ++ "-" ++ deviceId else deviceId.

(** [this.speechSynthesis.speak(txt)] *)
Definition say (a : t) (txt : string) : t :=
  mkAssistant (SpeechSynthesis.speak (speechSynthesis a) txt None None) (deviceManager a).

(** [executeDeviceCommand(result)]; [now] is the clock that [controlDevice]
    reads. *)
Definition executeDeviceCommand (a : t) (result : ProcessingResult) (now : Z) : t :=
  let deviceId := entityValue "device" (entities result) in
  let room := entityValue "room" (entities result) in
  if negb (present deviceId)
  then say a "I need to know which device you want to control."
  else
    let device := default "" deviceId in
    let '(manager, success) :=
      DeviceManager.controlDevice (deviceManager a) (fullDeviceId device room)
                                  (action result) None now in
    let a' := mkAssistant (speechSynthesis a) manager in
    if success
    then say a' ("Successfully " ++ replace_underscore (action result) ++ " the " ++ device
                 ++ (if present room then " in the " ++ default "" room else "") ++ ".")
    else say a' ("I couldn't " ++ replace_underscore (action result) ++ " the " ++ device
                 ++ ". Please check if the device is available.").

(** The ids that a device word and an optional room word spell. *)
Definition spelledIds : list string :=
  (deviceWords
   ++ flat_map (fun room => map (fun device => (room ++ "-" ++ device)%string) deviceWords)
               roomWords)%list.

End SmartVoiceAssistant.

(** * Properties *)

Module DeviceManagerFacts.
Import DeviceManager.

(** ** Rejected requests *)

(** C4.  A call of [controlDevice] for an identifier that is not registered,
    or for a device whose state is not 'online', returns false and leaves the
    manager as it was: both maps, every device state (status, lastSeen,
    properties) and the list of emitted events.  The result is an ordinary
    value: nothing is thrown. *)
Theorem controlDevice_rejects (m : t) (deviceId act : string)
    (params : option (gmap string read)) (now : Z) :
  devices m !! deviceId = None \/
    (forall st, deviceStates m !! deviceId = Some st -> ds_status st <> online) ->
  controlDevice m deviceId act params now = (m, false).
Proof.
  intros H. unfold controlDevice.
  destruct (devices m !! deviceId) as [device|] eqn:Hdev; [|reflexivity].
  destruct H as [H|H]; [discriminate|].
  destruct (deviceStates m !! deviceId) as [st|] eqn:Hst; [|reflexivity].
  specialize (H st eq_refl).
  destruct (ds_status st); simpl; try reflexivity. congruence.
Qed.

(** The rule at work on a fresh manager whose first discovery pass found
    nothing online: an unknown identifier and an offline device. *)
Lemma controlDevice_rejects_witness :
  let m := construct (fun _ => false) 1000 in
  controlDevice m "garage-door" "turn_on" None 1001 = (m, false)
  /\ controlDevice m "kitchen-light" "turn_on" None 1001 = (m, false).
Proof.
  split.
  - apply controlDevice_rejects. left. vm_compute. reflexivity.
  - apply controlDevice_rejects. right. vm_compute. intros st [= <-]. discriminate.
Defined.

(** ** What a call does to the states *)

(** [controlDevice] leaves the states as they are, or it replaces the state
    filed under the [id] of the addressed device by the one that the handler
    leaves, whether the handler answers or throws. *)
Lemma controlDevice_states (m : t) (deviceId act : string)
    (params : option (gmap string read)) (now : Z) :
  deviceStates (fst (controlDevice m deviceId act params now)) = deviceStates m
  \/ exists device st,
       devices m !! deviceId = Some device
       /\ deviceStates m !! id device = Some st
       /\ deviceStates (fst (controlDevice m deviceId act params now))
          = <[id device :=
                fst (dispatch (type device) st
                       (mkCommand ("cmd-" +:+ pretty now) act (default ∅ params)))]>
              (deviceStates m).
Proof.
  unfold controlDevice.
  destruct (devices m !! deviceId) as [device|]; [|by left].
  destruct (deviceStates m !! deviceId) as [st0|]; [|by left].
  destruct (negb (Status_eqb (ds_status st0) online)); [by left|].
  unfold executeDeviceCommand.
  destruct (deviceStates m !! id device) as [st1|] eqn:Hst1; simpl; [|by left].
  right. exists device, st1. split; [done|]. split; [done|].
  destruct (dispatch (type device) st1 _) as [st' [response|]]; reflexivity.
Qed.

(** A step of [controlDevice] keeps a bound on a property that the handlers
    keep for the command of that step. *)
Lemma controlDevice_within (k : string) (lo hi : Z) (m : t) (deviceId act : string)
    (params : option (gmap string read)) (now : Z) (target : string) :
  (forall ty st,
     prop_within k lo hi st ->
     prop_within k lo hi
       (fst (dispatch ty st (mkCommand ("cmd-" +:+ pretty now) act (default ∅ params))))) ->
  within k lo hi m target ->
  within k lo hi (fst (controlDevice m deviceId act params now)) target.
Proof.
  intros Hdispatch (st & Hst & Hin). unfold within.
  destruct (controlDevice_states m deviceId act params now)
    as [->|(device & st1 & _ & Hst1 & ->)]; [by exists st|].
  destruct (decide (id device = target)) as [Heq|Hne].
  - rewrite Heq in *. rewrite lookup_insert_eq. eexists. split; [done|].
    apply Hdispatch. rewrite Hst in Hst1. by injection Hst1 as <-.
  - exists st. by rewrite lookup_insert_ne.
Qed.

(** ** Numeric bounds *)

Lemma set_prop_other k k' v lo hi st :
  k <> k' -> prop_within k lo hi st -> prop_within k lo hi (set_prop st k' v).
Proof.
  intros Hne (x & Hx & Hr). exists x. split; [|done].
  unfold set_prop; simpl. by rewrite lookup_insert_ne.
Qed.

Lemma set_prop_same k v lo hi st :
  lo <= v <= hi -> prop_within k lo hi (set_prop st k (PNum (Fin v))).
Proof.
  intros Hr. exists v. split; [|done].
  unfold set_prop; simpl. by rewrite lookup_insert_eq.
Qed.

Lemma store_other k k' n msg lo hi st :
  k <> k' -> prop_within k lo hi st -> prop_within k lo hi (fst (store st k' n msg)).
Proof. intros Hne H. destruct n; simpl; [by apply set_prop_other|done]. Qed.

Lemma store_same k n msg lo hi st :
  (forall v, n = Some v -> exists z, v = Fin z /\ lo <= z <= hi) ->
  prop_within k lo hi st ->
  prop_within k lo hi (fst (store st k n msg)).
Proof.
  intros Hn H. destruct n as [v|]; simpl; [|done].
  destruct (Hn v eq_refl) as (z & -> & Hz). by apply set_prop_same.
Qed.

Lemma prop_within_prop k lo hi st :
  prop_within k lo hi st -> exists v, prop st k = PNum (Fin v) /\ lo <= v <= hi.
Proof. intros (x & Hx & Hr). exists x. unfold prop. by rewrite Hx. Qed.

Ltac branch :=
  match goal with
  | |- context [if ?b then _ else _] => destruct b eqn:?
  | |- context [match ?x with Some _ => _ | None => _ end] => destruct x eqn:?
  end.

(** The handlers that add to a number, subtract from it and clamp it keep
    it within the bounds that they clamp to. *)
Lemma raise_within (x : pval) (v k lo hi : Z) (n : num) :
  x = PNum (Fin v) -> lo <= v <= hi -> 0 <= k ->
  match plus x k with Some y => min_with hi y | None => None end = Some n ->
  exists z, n = Fin z /\ lo <= z <= hi.
Proof. intros -> Hv Hk [= <-]. eexists. split; [reflexivity|]. lia. Qed.

Lemma lower_within (x : pval) (v k floor lo hi : Z) (n : num) :
  x = PNum (Fin v) -> lo <= v <= hi -> 0 <= k -> lo <= floor <= hi ->
  Math_max (Fin floor) <$> minus x k = Some n ->
  exists z, n = Fin z /\ lo <= z <= hi.
Proof. intros -> Hv Hk Hf [= <-]. eexists. split; [reflexivity|]. lia. Qed.

(** A value that is clamped at both ends lies between them, unless it is
    read as [NaN]. *)
Lemma clamp_within (x : pval) (lo hi : Z) (n : num) :
  lo <= hi ->
  reads_NaN x = false ->
  Math_max (Fin lo) <$> min_with hi x = Some n ->
  exists z, n = Fin z /\ lo <= z <= hi.
Proof.
  intros Hle Hx. unfold reads_NaN in Hx. unfold min_with.
  destruct (ToNumber x) as [[z|]|]; try discriminate.
  intros [= <-]. eexists. split; [reflexivity|]. lia.
Qed.



Lemma discoverDevices_within k lo hi m isOnline now target :
  within k lo hi m target -> within k lo hi (discoverDevices m isOnline now) target.
Proof.
  intros (st & Hst & Hin). unfold discoverDevices, within; simpl.
  rewrite map_lookup_imap, Hst; simpl. eexists; split; [done|]. exact Hin.
Qed.




(** C2 on the code.  The light handler stores the requested brightness of
    turn_on as it is: on the seeded living-room light, whose brightness is
    100, turn_on with brightness 500 succeeds and leaves the brightness at
    500, outside [0, 100]. *)
Theorem turn_on_brightness_unclamped :
  let m := construct (fun _ => true) 1000 in
  let r := controlDevice m "living_room-light" "turn_on"
             (Some {[ "brightness" := Holds (PNum (Fin 500)) ]}) 1001 in
  (exists st, deviceStates m !! "living_room-light" = Some st
              /\ properties st !! "brightness" = Some (PNum (Fin 100)))
  /\ snd r = true
  /\ (exists st, deviceStates (fst r) !! "living_room-light" = Some st
                 /\ properties st !! "brightness" = Some (PNum (Fin 500)))
  /\ ~ within "brightness" 0 100 (fst r) "living_room-light".
Proof.
  cbv zeta. split; [|split; [|split]].
  - eexists. split; [vm_compute; reflexivity|reflexivity].
  - vm_compute. reflexivity.
  - eexists. split; [vm_compute; reflexivity|reflexivity].
  - intros (st & Hst & v & Hv & Hr). vm_compute in Hst. injection Hst as <-.
    vm_compute in Hv. injection Hv as <-. lia.
Qed.

(** The other actions of the light handler do keep the brightness within
    [0, 100] when the value of set_brightness is not turned into NaN, and so
    does turn_on when the requested brightness is absent, falsy or a number
    within the bounds. *)
Lemma controlLight_brightness st command :
  tame (OpControl "" (action command) (Some (parameters command)) 0) = true ->
  prop_within "brightness" 0 100 st ->
  prop_within "brightness" 0 100 (fst (controlLight st command)).
Proof.
  intros Ht H. destruct (prop_within_prop _ _ _ _ H) as (v & Hv & Hr).
  unfold controlLight. simpl in Ht. apply andb_prop in Ht as [Hon Hset].
  destruct (String.eqb (action command) "turn_on").
  { simpl in Hon. destruct (param (parameters command) "brightness") as [x|]; simpl.
    - destruct (or_else x (PNum (Fin 100))) as [| |[b|]| | | | |]; try discriminate.
      apply set_prop_same. lia.
    - by apply set_prop_other. }
  destruct (String.eqb (action command) "turn_off").
  { by apply set_prop_other. }
  destruct (String.eqb (action command) "dim").
  { apply store_same; [|done]. intros n. by apply (lower_within _ v 20 10). }
  destruct (String.eqb (action command) "brighten").
  { apply store_same; [|done]. intros n. by apply (raise_within _ v). }
  destruct (String.eqb (action command) "set_brightness"); [|done].
  apply store_same; [|done]. intros n Hn. simpl in Hset.
  destruct (param (parameters command) "value") as [x|]; [|done].
  apply (clamp_within (or_else x (PNum (Fin 50))) 0 100); [lia| |done].
  by apply negb_true_iff in Hset.
Qed.

Lemma dispatch_brightness ty st command :
  tame (OpControl "" (action command) (Some (parameters command)) 0) = true ->
  prop_within "brightness" 0 100 st ->
  prop_within "brightness" 0 100 (fst (dispatch ty st command)).
Proof.
  intros Hon H. unfold dispatch.
  destruct (String.eqb ty "smart_light") eqn:Hty; [by apply controlLight_brightness|].
  unfold controlThermostat, controlTV, controlSpeaker, controlGenericDevice.
  repeat branch; simpl; try done;
    first [ by apply store_other | repeat apply set_prop_other; done ].
Qed.

(** With such calls the brightness of a light does stay within [0, 100]. *)
Lemma light_brightness_bounded (m : t) (deviceId : string) (ops : list op) :
  within "brightness" 0 100 m deviceId ->
  forallb tame ops = true ->
  within "brightness" 0 100 (run m ops) deviceId.
Proof.
  revert m. induction ops as [|o ops IH]; intros m H Hops; simpl in *; [done|].
  apply andb_prop in Hops as [Ho Hops].
  apply IH; [|done]. clear IH Hops.
  destruct o as [| |target act params now|isOnline now|]; simpl in *; try discriminate.
  - apply controlDevice_within; [|done].
    intros ty st. apply dispatch_brightness. exact Ho.
  - by apply discoverDevices_within.
Qed.

(** ** The two registries have the same keys *)

Lemma agree_addDevice m device now : agree m -> agree (addDevice m device now).
Proof. unfold agree, addDevice; simpl; intros H. rewrite !dom_insert_L. by rewrite H. Qed.

Lemma agree_removeDevice m deviceId : agree m -> agree (fst (removeDevice m deviceId)).
Proof.
  unfold agree, removeDevice; intros H.
  destruct (devices m !! deviceId); simpl; [|done].
  rewrite !dom_delete_L. by rewrite H.
Qed.

Lemma dom_discover (isOnline : string -> bool) (now : Z) (states : gmap string DeviceState) :
  dom (map_imap (fun deviceId state =>
         Some (mkState (ds_id state)
                       (if isOnline deviceId then online else offline)
                       (if isOnline deviceId then now else lastSeen state)
                       (properties state))) states) = dom states.
Proof.
  apply dom_imap_L. intros i. rewrite elem_of_dom. split.
  - intros [x Hx]. exists x. split; [done|by eexists].
  - intros (x & Hx & _). by exists x.
Qed.

Lemma agree_discoverDevices m isOnline now : agree m -> agree (discoverDevices m isOnline now).
Proof. unfold agree, discoverDevices; simpl; intros H. by rewrite dom_discover. Qed.

Lemma executeDeviceCommand_devices m device command :
  devices (fst (executeDeviceCommand m device command)) = devices m.
Proof.
  unfold executeDeviceCommand.
  destruct (deviceStates m !! id device); [|done].
  by destruct (dispatch (type device) d command).
Qed.

Lemma executeDeviceCommand_dom m device command :
  dom (deviceStates (fst (executeDeviceCommand m device command))) = dom (deviceStates m).
Proof.
  unfold executeDeviceCommand.
  destruct (deviceStates m !! id device) as [st|] eqn:Hst; [|done].
  destruct (dispatch (type device) st command) as [st' response]; simpl.
  apply dom_insert_lookup_L. by exists st.
Qed.

Lemma controlDevice_devices m deviceId act params now :
  devices (fst (controlDevice m deviceId act params now)) = devices m.
Proof.
  unfold controlDevice.
  destruct (devices m !! deviceId) as [device|]; [|done].
  destruct (deviceStates m !! deviceId) as [st|]; [|done].
  destruct (negb (Status_eqb (ds_status st) online)); [done|].
  pose proof (executeDeviceCommand_devices m device
                (mkCommand ("cmd-" +:+ pretty now) act (default ∅ params))) as H.
  by destruct (executeDeviceCommand m device _) as [m' [response|]].
Qed.

Lemma controlDevice_dom m deviceId act params now :
  dom (deviceStates (fst (controlDevice m deviceId act params now))) = dom (deviceStates m).
Proof.
  unfold controlDevice.
  destruct (devices m !! deviceId) as [device|]; [|done].
  destruct (deviceStates m !! deviceId) as [st|]; [|done].
  destruct (negb (Status_eqb (ds_status st) online)); [done|].
  pose proof (executeDeviceCommand_dom m device
                (mkCommand ("cmd-" +:+ pretty now) act (default ∅ params))) as H.
  by destruct (executeDeviceCommand m device _) as [m' [response|]].
Qed.

Lemma agree_step m o : agree m -> agree (step m o).
Proof.
  destruct o; simpl.
  - apply agree_addDevice.
  - apply agree_removeDevice.
  - unfold agree. rewrite controlDevice_devices, controlDevice_dom. done.
  - apply agree_discoverDevices.
  - done.
Qed.

Lemma agree_run ops : forall m, agree m -> agree (run m ops).
Proof.
  induction ops as [|o ops IH]; intros m H; simpl; [done|].
  apply IH, agree_step, H.
Qed.

Lemma agree_construct isOnline now : agree (construct isOnline now).
Proof.
  unfold construct. apply agree_discoverDevices.
  unfold agree; simpl.
  assert (forall l m, agree m ->
            agree (fold_left (fun acc device => addDevice acc device now) l m)) as Hfold.
  { induction l as [|d l IH]; intros m H; simpl; [done|]. apply IH, agree_addDevice, H. }
  apply (Hfold defaultDevices (mkManager ∅ ∅ false [])). done.
Qed.

(** C10.  After the constructor and after any sequence of [addDevice],
    [removeDevice], [controlDevice], discovery passes and [destroy], the maps
    [devices] and [deviceStates] have the same set of keys; and
    [removeDevice] returns true exactly when the identifier was registered. *)
Theorem registries_agree :
  (forall isOnline now ops,
     dom (devices (run (construct isOnline now) ops))
     = dom (deviceStates (run (construct isOnline now) ops)))
  /\ (forall (m : t) deviceId,
        snd (removeDevice m deviceId) = true <-> deviceId ∈ dom (devices m)).
Proof.
  split.
  - intros. apply agree_run, agree_construct.
  - intros m deviceId. unfold removeDevice. rewrite elem_of_dom.
    destruct (devices m !! deviceId); simpl; split; intros H; try done.
Qed.

End DeviceManagerFacts.

Module SpeechSynthesisFacts.
Import SpeechSynthesis.
Local Open Scope list_scope.

(** ** Where [speak] inserts *)

Lemma findIndex_None {A} (f : A -> bool) (l : list A) :
  findIndex f l = None -> Forall (fun x => f x = false) l.
Proof.
  induction l as [|x l IH]; simpl; intros H; [constructor|].
  destruct (f x) eqn:Hx; [discriminate|].
  destruct (findIndex f l); [discriminate|].
  constructor; [exact Hx|apply IH; reflexivity].
Qed.

Lemma findIndex_Some {A} (f : A -> bool) (l : list A) (i : nat) :
  findIndex f l = Some i ->
  exists l1 x l2,
    l = l1 ++ x :: l2 /\ i = length l1 /\ Forall (fun y => f y = false) l1 /\ f x = true.
Proof.
  revert i. induction l as [|x l IH]; simpl; intros i H; [discriminate|].
  destruct (f x) eqn:Hx.
  - injection H as <-. exists [], x, l. repeat split; [constructor|exact Hx].
  - destruct (findIndex f l) as [j|]; [|discriminate].
    injection H as <-.
    destruct (IH j eq_refl) as (l1 & y & l2 & -> & -> & Hl1 & Hy).
    exists (x :: l1), y, l2. repeat split; [constructor; assumption|exact Hy].
Qed.

Lemma splice_in_app {A} (l1 l2 : list A) (x : A) :
  splice_in (length l1) x (l1 ++ l2) = l1 ++ x :: l2.
Proof. unfold splice_in. by rewrite take_app_length, drop_app_length. Qed.

(** The new request goes somewhere into the queue, and the queued requests
    keep their order. *)
Lemma enqueue_somewhere (queue : list SpeechRequest) (request : SpeechRequest) :
  exists before after,
    queue = before ++ after /\ enqueue queue request = before ++ request :: after.
Proof.
  unfold enqueue.
  destruct (findIndex _ queue) as [i|] eqn:Hi.
  - apply findIndex_Some in Hi as (l1 & x & l2 & -> & -> & _).
    exists l1, (x :: l2). by rewrite splice_in_app.
  - exists queue, []. by rewrite app_nil_r.
Qed.

(** A request whose priority is a number goes before the first entry whose
    priority, read as [item.priority || 1], is strictly lower than its own,
    and last when there is no such entry. *)
Lemma enqueue_split (queue : list SpeechRequest) (request : SpeechRequest) (p : Z) :
  priority request = Fin p ->
  exists before after,
    queue = before ++ after
    /\ enqueue queue request = before ++ request :: after
    /\ Forall (fun x => p <= priority_or_1 x) before
    /\ (forall x rest, after = x :: rest -> priority_or_1 x < p).
Proof.
  intros Hp. unfold enqueue. rewrite Hp. cbn [below].
  destruct (findIndex _ queue) as [i|] eqn:Hi.
  - apply findIndex_Some in Hi as (l1 & x & l2 & -> & -> & Hl1 & Hx).
    exists l1, (x :: l2). rewrite splice_in_app. repeat split.
    + eapply Forall_impl; [exact Hl1|]. simpl. intros y Hy. lia.
    + intros y rest [= <- <-]. lia.
  - apply findIndex_None in Hi.
    exists queue, []. rewrite app_nil_r. repeat split.
    + eapply Forall_impl; [exact Hi|]. simpl. intros y Hy. lia.
    + intros y rest [=].
Qed.

(** A request whose priority is [NaN] goes last: every comparison with
    [NaN] is false. *)
Lemma enqueue_NaN (queue : list SpeechRequest) (request : SpeechRequest) :
  priority request = NaN -> enqueue queue request = queue ++ [request].
Proof.
  intros Hp. unfold enqueue. rewrite Hp. cbn [below].
  assert (findIndex (fun _ : SpeechRequest => false) queue = None) as ->; [|done].
  induction queue as [|x queue IH]; simpl; [done|]. by rewrite IH.
Qed.

Lemma priority_or_1_ordinary (x : SpeechRequest) (z : Z) :
  priority x = Fin z -> z <> 0 -> priority_or_1 x = z.
Proof.
  intros Hx Hz. unfold priority_or_1. rewrite Hx.
  destruct (Z.eqb_spec z 0); congruence.
Qed.

Lemma enqueue_descending (queue : list SpeechRequest) (request : SpeechRequest) (p : Z) :
  priority request = Fin p ->
  Forall ordinary queue ->
  descending queue ->
  descending (enqueue queue request).
Proof.
  intros Hp Hord Hs.
  destruct (enqueue_split queue request p Hp) as (before & after & -> & -> & Hb & Ha).
  apply Forall_app in Hord as [Hob Hoa].
  unfold descending in *. apply StronglySorted_app in Hs as (Hba & Hsb & Hsa).
  assert (Forall (fun x => at_most (priority x) (priority request)) after) as Hafter.
  { rewrite Hp. destruct after as [|y rest]; [constructor|].
    specialize (Ha y rest eq_refl).
    apply StronglySorted_cons in Hsa as [Hy _].
    apply Forall_cons in Hoa as [(zy & Hzy & Hnz) Hrest].
    rewrite (priority_or_1_ordinary y zy Hzy Hnz) in Ha.
    constructor; [rewrite Hzy; simpl; lia|].
    rewrite Forall_forall in *. intros w Hw.
    specialize (Hy w Hw). destruct (Hrest w Hw) as (zw & Hzw & _).
    rewrite Hzw, Hzy in *. simpl in *. lia. }
  apply StronglySorted_app_2; [|exact Hsb|].
  - intros x1 x2 H1 H2. apply elem_of_cons in H2 as [->|H2].
    + rewrite Forall_forall in Hb, Hob.
      destruct (Hob x1 H1) as (z1 & Hz1 & Hnz). specialize (Hb x1 H1).
      rewrite (priority_or_1_ordinary x1 z1 Hz1 Hnz) in Hb.
      rewrite Hp, Hz1. simpl. lia.
    + by apply Hba.
  - apply StronglySorted_cons. split; [exact Hafter|exact Hsa].
Qed.

(** A request goes ahead of every queued request whose priority, read as
    [item.priority || 1], is lower than its own. *)
Lemma enqueue_ahead (pre post : list SpeechRequest) (r1 r2 : SpeechRequest) (p1 : Z) :
  priority r1 = Fin p1 ->
  priority_or_1 r2 < p1 ->
  exists a b,
    pre = a ++ b
    /\ enqueue (pre ++ r2 :: post) r1 = a ++ r1 :: b ++ r2 :: post.
Proof.
  intros H1 Hlt.
  destruct (enqueue_split (pre ++ r2 :: post) r1 p1 H1) as (x & y & Hxy & Hq & Hx & _).
  apply app_eq_app in Hxy as [l [[-> ->]|[-> Hl]]].
  - exists x, l. split; [done|]. by rewrite Hq.
  - destruct l as [|z l]; simpl in Hl.
    + exists pre, []. subst y. rewrite app_nil_r in Hq. by rewrite app_nil_r.
    + injection Hl as <- ->.
      apply Forall_app in Hx as [_ Hx]. apply Forall_cons in Hx as [Hx _]. lia.
Qed.

(** ** The order in which requests leave the queue *)

Lemma speak_while_playing (s : t) txt lang prio :
  isPlaying s = true ->
  String.eqb (trim txt) "" = false ->
  exists request,
    text request = trim txt /\ priority request = default (Fin 1) prio
    /\ speak s txt lang prio
       = mkSynth (enqueue (speechQueue s) request) true (spoken s) (inflight s) (timers s)
                 (defaultLanguage s).
Proof.
  intros Hp Ht. unfold speak. rewrite Ht. unfold processQueue; simpl. rewrite Hp.
  eexists. split; [|split; [|reflexivity]]; reflexivity.
Qed.

(** On an instance that is not playing, [speak] enqueues the request and
    then hands the head of the queue to playback. *)
Lemma speak_while_idle (s : t) txt lang prio :
  isPlaying s = false ->
  String.eqb (trim txt) "" = false ->
  exists request head rest,
    text request = trim txt /\ priority request = default (Fin 1) prio
    /\ enqueue (speechQueue s) request = head :: rest
    /\ speak s txt lang prio
       = mkSynth rest true (spoken s ++ [head]) (S (inflight s)) (timers s)
                 (defaultLanguage s).
Proof.
  intros Hp Ht. unfold speak. rewrite Ht. unfold processQueue; simpl. rewrite Hp.
  set (request := mkRequest _ _ _).
  destruct (enqueue_somewhere (speechQueue s) request) as (before & after & _ & He).
  destruct (enqueue (speechQueue s) request) as [|head rest] eqn:Hq.
  { by destruct before. }
  exists request, head, rest. subst request. simpl. by rewrite Hq.
Qed.

(** A head that is not lower than the new request stays the head. *)
Lemma enqueue_behind_head (x : SpeechRequest) (rest : list SpeechRequest)
    (request : SpeechRequest) (p : Z) :
  priority request = Fin p ->
  p <= priority_or_1 x ->
  enqueue (x :: rest) request = x :: enqueue rest request.
Proof.
  intros Hp Hx. unfold enqueue. rewrite Hp. cbn [findIndex below].
  destruct (Z.ltb_spec (priority_or_1 x) p); [lia|].
  destruct (findIndex _ rest); reflexivity.
Qed.

(** A request that is higher than the head, or finds the queue empty,
    becomes the head. *)
Lemma enqueue_at_head (queue : list SpeechRequest) (request : SpeechRequest) (p : Z) :
  priority request = Fin p ->
  (forall x rest, queue = x :: rest -> priority_or_1 x < p) ->
  enqueue queue request = request :: queue.
Proof.
  intros Hp Hq. unfold enqueue. rewrite Hp. destruct queue as [|x rest]; [done|].
  cbn [findIndex below]. specialize (Hq x rest eq_refl).
  destruct (Z.ltb_spec (priority_or_1 x) p); [done|lia].
Qed.

Lemma react_dequeues (s : t) (e : event) :
  (speechQueue (react s e) = speechQueue s /\ spoken (react s e) = spoken s)
  \/ (exists request rest,
        speechQueue s = request :: rest
        /\ speechQueue (react s e) = rest
        /\ spoken (react s e) = spoken s ++ [request]).
Proof.
  destruct e; simpl.
  - left. unfold settle. destruct (inflight s); simpl; auto.
  - unfold timer. destruct (timers s); [auto|].
    unfold processQueue; simpl.
    destruct (isPlaying s); [auto|].
    destruct (speechQueue s) as [|request rest]; [auto|].
    right. exists request, rest. auto.
Qed.

(** Promises settling and timers firing take the requests off the queue from
    its head, one after the other. *)
Lemma drain_prefix (es : list event) : forall s : t,
  exists k,
    spoken (drain s es) = spoken s ++ firstn k (speechQueue s)
    /\ speechQueue (drain s es) = skipn k (speechQueue s).
Proof.
  induction es as [|e es IH]; intros s; simpl.
  - exists O. simpl. by rewrite app_nil_r.
  - destruct (IH (react s e)) as (k & Hs & Hq).
    destruct (react_dequeues s e) as [[Hq0 Hs0]|(request & rest & Hq0 & Hq1 & Hs1)].
    + exists k. by rewrite Hs, Hq, Hq0, Hs0.
    + exists (S k). rewrite Hs, Hq, Hq1, Hs1, Hq0. simpl. by rewrite <- app_assoc.
Qed.

(** The priority of a request of priority [p2], read as
    [item.priority || 1], is lower than [p1] when [p1 > p2], unless [p2] is 0
    and [p1] at most 1. *)
Lemma priority_or_1_lower (r2 : SpeechRequest) (p1 p2 : Z) :
  priority r2 = Fin p2 -> p2 < p1 -> (p2 = 0 -> 1 < p1) -> priority_or_1 r2 < p1.
Proof.
  intros H2 Hlt Hzero. unfold priority_or_1. rewrite H2.
  destruct (Z.eqb_spec p2 0); lia.
Qed.

(** C1, as the code has it.  (1) [speak] puts a request whose priority is
    not NaN before the first queued entry whose priority, read as
    [item.priority || 1] (so that 0 and NaN count as 1), is strictly lower
    than its own, and last if there is none: hence after every entry of
    higher or equal priority; a queue in descending order whose priorities
    are numbers other than 0 stays in descending order.  (2) Take priorities
    p1 > p2, other than p2 = 0 with p1 <= 1, and a state in which a request of
    priority p2 is in the queue.  A call of [speak] with a non-blank text and
    the priority p1 puts its request ahead of that request; when nothing is
    playing, the call also hands the head of the queue to playback, which is
    the new request itself if it is at the head.  As the requests then leave
    the queue from its head, the p1 request is handed to playback before the
    p2 request.  (3) Right after a call of [speak] with a non-blank text and
    the priority p2, the new request is in the queue if an utterance is
    playing, or if the head of the queue has a priority, read as above, of at
    least p2.  Otherwise, that is when nothing is playing and the queue is
    empty or its head is lower than p2, the call hands the new request to
    playback at once. *)
Theorem speak_priority_order :
  (forall (queue : list SpeechRequest) (request : SpeechRequest) (p : Z),
     priority request = Fin p ->
     (exists before after,
        queue = before ++ after
        /\ enqueue queue request = before ++ request :: after
        /\ Forall (fun x => p <= priority_or_1 x) before
        /\ (forall x rest, after = x :: rest -> priority_or_1 x < p))
     /\ (Forall ordinary queue -> descending queue -> descending (enqueue queue request)))
  /\ (forall (s : t) (pre post : list SpeechRequest) (r2 : SpeechRequest)
             (text1 : string) (lang1 : option string) (p1 p2 : Z),
        speechQueue s = pre ++ r2 :: post ->
        priority r2 = Fin p2 ->
        p2 < p1 ->
        (p2 = 0 -> 1 < p1) ->
        String.eqb (trim text1) "" = false ->
        let s' := speak s text1 lang1 (Some (Fin p1)) in
        exists r1 a b taken,
          text r1 = trim text1 /\ priority r1 = Fin p1
          /\ pre = a ++ b
          /\ spoken s' = spoken s ++ taken
          /\ taken = (if isPlaying s then [] else firstn 1 (a ++ [r1]))
          /\ taken ++ speechQueue s' = a ++ r1 :: b ++ r2 :: post
          /\ forall es, exists k,
               spoken (drain s' es) = spoken s' ++ firstn k (speechQueue s')
               /\ speechQueue (drain s' es) = skipn k (speechQueue s'))
  /\ (forall (s : t) (text2 : string) (lang2 : option string) (p2 : Z),
        String.eqb (trim text2) "" = false ->
        let s2 := speak s text2 lang2 (Some (Fin p2)) in
        (isPlaying s = true
           \/ (exists x rest, speechQueue s = x :: rest /\ p2 <= priority_or_1 x) ->
         exists r2 pre post,
           text r2 = trim text2 /\ priority r2 = Fin p2
           /\ speechQueue s2 = pre ++ r2 :: post)
        /\ (isPlaying s = false ->
            (forall x rest, speechQueue s = x :: rest -> priority_or_1 x < p2) ->
            exists r2,
              text r2 = trim text2 /\ priority r2 = Fin p2
              /\ spoken s2 = spoken s ++ [r2]
              /\ speechQueue s2 = speechQueue s
              /\ isPlaying s2 = true)).
Proof.
  split; [|split].
  - intros queue request p Hp. split.
    + by apply enqueue_split.
    + by apply (enqueue_descending queue request p).
  - intros s pre post r2 text1 lang1 p1 p2 Hq H2 Hlt Hzero H1 s'.
    pose proof (priority_or_1_lower r2 p1 p2 H2 Hlt Hzero) as Hlow.
    destruct (isPlaying s) eqn:Hp.
    + destruct (speak_while_playing s text1 lang1 (Some (Fin p1)) Hp H1)
        as (r1 & Ht1 & Hp1 & E1).
      simpl in Hp1. rewrite Hq in E1.
      destruct (enqueue_ahead pre post r1 r2 p1 Hp1 Hlow) as (a & b & Hpre & He).
      exists r1, a, b, []. subst s'. rewrite E1. simpl.
      rewrite app_nil_r, He. repeat split; try assumption.
      intros es. apply (drain_prefix es (mkSynth _ _ _ _ _ _)).
    + destruct (speak_while_idle s text1 lang1 (Some (Fin p1)) Hp H1)
        as (r1 & head & rest & Ht1 & Hp1 & He1 & E1).
      simpl in Hp1. rewrite Hq in He1.
      destruct (enqueue_ahead pre post r1 r2 p1 Hp1 Hlow) as (a & b & Hpre & He).
      rewrite He in He1.
      exists r1, a, b, [head]. subst s'. rewrite E1. simpl.
      repeat split; try assumption.
      * destruct a as [|x a]; simpl in *; by injection He1 as <- _.
      * by rewrite <- He1.
      * intros es. apply (drain_prefix es (mkSynth _ _ _ _ _ _)).
  - intros s text2 lang2 p2 H2 s2. split.
    + intros Hcase. destruct (isPlaying s) eqn:Hp.
      * destruct (speak_while_playing s text2 lang2 (Some (Fin p2)) Hp H2)
          as (r2 & Ht2 & Hp2 & E2).
        destruct (enqueue_somewhere (speechQueue s) r2) as (pre & post & _ & He).
        exists r2, pre, post. subst s2. rewrite E2. simpl. by rewrite He.
      * destruct Hcase as [Hcase|(x & rest & Hq0 & Hx)]; [discriminate|].
        destruct (speak_while_idle s text2 lang2 (Some (Fin p2)) Hp H2)
          as (r2 & head & rest' & Ht2 & Hp2 & He2 & E2).
        simpl in Hp2.
        rewrite Hq0, (enqueue_behind_head x rest r2 p2 Hp2 Hx) in He2.
        injection He2 as <- <-.
        destruct (enqueue_somewhere rest r2) as (pre & post & _ & He).
        exists r2, pre, post. subst s2. rewrite E2. simpl. by rewrite He.
    + intros Hp Hhead.
      destruct (speak_while_idle s text2 lang2 (Some (Fin p2)) Hp H2)
        as (r2 & head & rest' & Ht2 & Hp2 & He2 & E2).
      simpl in Hp2.
      rewrite (enqueue_at_head (speechQueue s) r2 p2 Hp2 Hhead) in He2.
      injection He2 as <- <-.
      exists r2. subst s2. rewrite E2. simpl. repeat split; assumption.
Qed.

(** The three parts at work: an insertion into a sorted queue; a call of
    [speak] with priority 2 between two utterances, when a request of
    priority 5 is waiting for its timer ahead of one of priority 0; and
    calls with the priority 1 while an utterance is playing and on a new
    instance. *)
Lemma speak_priority_order_witness :
  descending (enqueue [mkRequest "a" "en-US" (Fin 2); mkRequest "b" "en-US" (Fin 1)]
                      (mkRequest "c" "en-US" (Fin 2)))
  /\ (let low := mkRequest "low" "en-US" (Fin 0) in
      let s := mkSynth [mkRequest "queued" "en-US" (Fin 5); low] false [] 0 1 "en-US" in
      let s' := speak s "high" None (Some (Fin 2)) in
      exists r1 a b taken,
        text r1 = trim "high" /\ priority r1 = Fin 2
        /\ [mkRequest "queued" "en-US" (Fin 5)] = a ++ b
        /\ spoken s' = spoken s ++ taken
        /\ taken = (if isPlaying s then [] else firstn 1 (a ++ [r1]))
        /\ taken ++ speechQueue s' = a ++ r1 :: b ++ low :: []
        /\ forall es, exists k,
             spoken (drain s' es) = spoken s' ++ firstn k (speechQueue s')
             /\ speechQueue (drain s' es) = skipn k (speechQueue s'))
  /\ (let s := mkSynth [] true [] 1 0 "en-US" in
      exists r2 pre post,
        text r2 = trim "low" /\ priority r2 = Fin 1
        /\ speechQueue (speak s "low" None (Some (Fin 1))) = pre ++ r2 :: post)
  /\ (let s2 := speak (create "en-US") "low" None (Some (Fin 1)) in
      exists r2,
        text r2 = trim "low" /\ priority r2 = Fin 1
        /\ spoken s2 = spoken (create "en-US") ++ [r2]
        /\ speechQueue s2 = speechQueue (create "en-US")
        /\ isPlaying s2 = true).
Proof.
  split; [|split; [|split]].
  - apply (proj1 speak_priority_order _ _ 2).
    + reflexivity.
    + repeat constructor; eexists; (split; [reflexivity|lia]).
    + repeat constructor; simpl; lia.
  - apply (proj1 (proj2 speak_priority_order)
             (mkSynth [mkRequest "queued" "en-US" (Fin 5); mkRequest "low" "en-US" (Fin 0)]
                      false [] 0 1 "en-US")
             [mkRequest "queued" "en-US" (Fin 5)] [] (mkRequest "low" "en-US" (Fin 0))
             "high" None 2 0).
    + reflexivity.
    + reflexivity.
    + lia.
    + lia.
    + reflexivity.
  - apply (proj1 (proj2 (proj2 speak_priority_order) (mkSynth [] true [] 1 0 "en-US")
                    "low" None 1 eq_refl)).
    by left.
  - apply (proj2 (proj2 (proj2 speak_priority_order) (create "en-US") "low" None 1 eq_refl)).
    + reflexivity.
    + intros x rest [=].
Defined.

(** On an instance that is not playing, [speak] starts the new request at
    once: of two requests with priorities 1 and then 2, the one of priority
    1 leaves the queue first. *)
Lemma speak_idle_order :
  let s' := speak (speak (create "en-US") "low" None (Some (Fin 1))) "high" None
                  (Some (Fin 2)) in
  1 < 2
  /\ spoken s' = [mkRequest "low" "en-US" (Fin 1)]
  /\ spoken (drain s' [Settle; Timer])
     = [mkRequest "low" "en-US" (Fin 1); mkRequest "high" "en-US" (Fin 2)].
Proof. split; [lia|split; reflexivity]. Qed.

(** A queued priority of 0 is compared as 1: a request of priority 1 goes
    behind it, and the queue is no longer in descending order. *)
Example priority_zero_read_as_one :
  enqueue [mkRequest "low" "en-US" (Fin 0)] (mkRequest "high" "en-US" (Fin 1))
  = [mkRequest "low" "en-US" (Fin 0); mkRequest "high" "en-US" (Fin 1)]
  /\ ~ descending [mkRequest "low" "en-US" (Fin 0); mkRequest "high" "en-US" (Fin 1)].
Proof.
  split; [reflexivity|]. intros H. apply StronglySorted_cons in H as [H _].
  apply Forall_cons in H as [H _]. simpl in H. lia.
Qed.

(** A request of priority [NaN] goes last whatever is queued, and then the
    queue is in no order. *)
Example priority_NaN_goes_last :
  enqueue [mkRequest "low" "en-US" (Fin 1)] (mkRequest "odd" "en-US" NaN)
  = [mkRequest "low" "en-US" (Fin 1); mkRequest "odd" "en-US" NaN]
  /\ ~ descending [mkRequest "low" "en-US" (Fin 1); mkRequest "odd" "en-US" NaN].
Proof.
  split; [reflexivity|]. intros H. apply StronglySorted_cons in H as [H _].
  apply Forall_cons in H as [H _]. exact H.
Qed.

End SpeechSynthesisFacts.

Module LanguageProcessingFacts.
Import Regex LanguageProcessing.
Local Open Scope list_scope.

(** ** Commands that no pattern matches *)

Lemma tryPattern_no_match command intentName bestMatch pattern :
  test pattern command = false ->
  tryPattern command intentName bestMatch pattern = bestMatch.
Proof.
  unfold test, tryPattern. destruct (str_match pattern command); [discriminate|reflexivity].
Qed.

Lemma fold_tryPattern_no_match command intentName patterns : forall bestMatch,
  forallb (fun pattern => negb (test pattern command)) patterns = true ->
  fold_left (tryPattern command intentName) patterns bestMatch = bestMatch.
Proof.
  induction patterns as [|p ps IH]; intros bestMatch H; simpl in *; [reflexivity|].
  apply andb_prop in H as [Hp Hps].
  rewrite tryPattern_no_match by (by destruct (test p command)).
  by apply IH.
Qed.

Lemma extractIntent_no_match lp command :
  noPatternMatches lp command = true ->
  extractIntent lp command = unknownIntent.
Proof.
  unfold noPatternMatches, extractIntent.
  generalize unknownIntent as bestMatch.
  induction (intentPatterns lp) as [|[intentName patterns] rest IH];
    intros bestMatch H; simpl in *; [reflexivity|].
  apply andb_prop in H as [Hp Hrest].
  rewrite fold_tryPattern_no_match by exact Hp.
  by apply IH.
Qed.

(** C6.  [processCommand("xyz random command")] has intent "unknown", action
    "unknown" and confidence 0 (and no entities).  In general, for any
    pattern tables, when no intent pattern matches the normalized command
    the intent is the initial one, "unknown" with confidence 0, the action is
    "unknown", and [processCommand] returns them with the extracted
    entities. *)
Theorem unmatched_command_is_unknown :
  processCommand initializePatterns "xyz random command"
  = Some (mkResult "unknown" "unknown" [] 0 "xyz random command")
  /\ (forall (lp : t) (command : string),
        noPatternMatches lp (normalize command) = true ->
        extractIntent lp (normalize command) = mkIntent "unknown" 0 []
        /\ processCommand lp command
           = option_map (fun entities => mkResult "unknown" "unknown" entities 0 command)
                        (extractEntities lp (list_ascii_of_string command))).
Proof.
  split; [vm_compute; reflexivity|].
  intros lp command H. apply extractIntent_no_match in H.
  split; [exact H|].
  unfold processCommand. rewrite H.
  destruct (extractEntities lp (list_ascii_of_string command)); reflexivity.
Qed.

Lemma unmatched_command_is_unknown_witness :
  extractIntent initializePatterns (normalize "xyz random command") = mkIntent "unknown" 0 []
  /\ processCommand initializePatterns "xyz random command"
     = option_map (fun entities => mkResult "unknown" "unknown" entities 0 "xyz random command")
                  (extractEntities initializePatterns
                     (list_ascii_of_string "xyz random command")).
Proof.
  apply (proj2 unmatched_command_is_unknown initializePatterns "xyz random command").
  vm_compute. reflexivity.
Defined.

(** ** The device-control example of the test suite *)

(** C5 on the code: the command is classified as device_control with action
    turn_on and a room entity "living_room", but the device pattern, which
    asks for a word boundary after "light", finds nothing in "lights": the
    result has no device entity at all. *)
Theorem lights_command_has_no_device_entity :
  exists r,
    processCommand initializePatterns "turn on the living room lights" = Some r
    /\ intent r = "device_control"
    /\ action r = "turn_on"
    /\ hasEntity "room" (String.eqb "living_room") (entities r) = true
    /\ hasEntity "device" (includes "light") (entities r) = false
    /\ existsb (fun e => String.eqb (type e) "device") (entities r) = false.
Proof.
  eexists. split; [vm_compute; reflexivity|].
  repeat split; vm_compute; reflexivity.
Qed.

(** The word boundary is what is missing: "light" alone is found. *)
Example light_command_has_device_entity :
  exists r,
    processCommand initializePatterns "turn on the living room light" = Some r
    /\ hasEntity "device" (includes "light") (entities r) = true.
Proof. eexists. split; vm_compute; reflexivity. Qed.

(** ** Confidence *)

Lemma calculatePatternConfidence_formula (m : nat * list ascii) (command : list ascii) :
  command <> [] ->
  exists c,
    calculatePatternConfidence m command = Some c
    /\ (c == spec_confidence (length (snd m)) (length command)
                             (starts_word (fst m) command))%Q.
Proof.
  intros Hne. unfold calculatePatternConfidence, spec_confidence, starts_word.
  destruct command as [|c0 command']; [congruence|].
  set (command := c0 :: command') in *.
  change (length command) with (S (length command')).
  set (bonus := orb _ _).
  set (coverage := (Z.of_nat (length (snd m)) # Pos.of_nat (S (length command')))%Q).
  assert (coverage == inject_Z (Z.of_nat (length (snd m)))
                      / inject_Z (Z.of_nat (S (length command'))))%Q as Hcov.
  { unfold coverage. rewrite Qmake_Qdiv.
    replace (Z.pos (Pos.of_nat (S (length command')))) with (Z.of_nat (S (length command')))
      by (rewrite <- (Nat2Pos.id (S (length command'))) at 1
            by discriminate; apply positive_nat_Z).
    reflexivity. }
  eexists. split; [reflexivity|].
  rewrite <- Hcov.
  assert ((if bonus then (coverage * (8 # 10) + (1 # 10))%Q else (coverage * (8 # 10))%Q)
          == coverage * (8 # 10) + (if bonus then 1 # 10 else 0))%Q as Hb.
  { destruct bonus; [reflexivity|]. ring. }
  destruct (Qle_bool _ 1) eqn:Hle.
  - apply Qle_bool_iff in Hle. rewrite <- Hb. symmetry. apply Q.min_l. exact Hle.
  - rewrite <- Hb. symmetry. apply Q.min_r.
    apply Qlt_le_weak, Qnot_le_lt. intros Hc. apply Qle_bool_iff in Hc. congruence.
Qed.

(** C7.  The confidence of a match is (matched length / command length) x
    0.8, plus 0.1 when the match starts at position 0 or after a white
    space, capped at 1; and with it "turn on lights" gets a strictly greater
    confidence (0.9) than "maybe turn on lights please" (0.8 x 21/27 + 0.1). *)
Theorem exact_command_has_greater_confidence :
  (forall (m : nat * list ascii) (command : list ascii),
     command <> [] ->
     exists c,
       calculatePatternConfidence m command = Some c
       /\ (c == spec_confidence (length (snd m)) (length command)
                                (starts_word (fst m) command))%Q)
  /\ (exists r1 r2,
        processCommand initializePatterns "turn on lights" = Some r1
        /\ processCommand initializePatterns "maybe turn on lights please" = Some r2
        /\ (confidence r2 < confidence r1)%Q
        /\ (confidence r1 == 9 # 10)%Q
        /\ (confidence r2 == (21 # 27) * (8 # 10) + (1 # 10))%Q).
Proof.
  split; [exact calculatePatternConfidence_formula|].
  eexists. eexists.
  split; [vm_compute; reflexivity|].
  split; [vm_compute; reflexivity|].
  repeat split; vm_compute; reflexivity.
Qed.

(** The formula on the match of "turn on lights please" at index 6 of the
    longer command. *)
Lemma exact_command_has_greater_confidence_witness :
  exists c,
    calculatePatternConfidence
      (6%nat, list_ascii_of_string "turn on lights please")
      (list_ascii_of_string "maybe turn on lights please") = Some c
    /\ (c == spec_confidence 21 27 true)%Q.
Proof.
  apply (proj1 exact_command_has_greater_confidence
           (6%nat, list_ascii_of_string "turn on lights please")
           (list_ascii_of_string "maybe turn on lights please")).
  discriminate.
Defined.

End LanguageProcessingFacts.

Module ConfigManagerFacts.
Import ConfigManager.
Local Open Scope list_scope.

(** Induction on values, with the hypothesis for every item of an array and
    every field of an object. *)
Lemma jsval_nested_ind (P : jsval -> Prop) :
  P JUndefined -> P JNull -> (forall b, P (JBool b)) -> (forall n, P (JNum n)) ->
  (forall s, P (JStr s)) ->
  (forall items, Forall P items -> P (JArr items)) ->
  (forall fields, Forall (fun kv => P (snd kv)) fields -> P (JObj fields)) ->
  forall v, P v.
Proof.
  intros Hu Hn Hb Hnum Hs Harr Hobj.
  fix IH 1. intros [| |b|n|s|items|fields].
  - exact Hu.
  - exact Hn.
  - apply Hb.
  - apply Hnum.
  - apply Hs.
  - apply Harr. induction items as [|x items IHitems]; constructor; [apply IH|exact IHitems].
  - apply Hobj. induction fields as [|kv fields IHfields]; constructor;
      [apply IH|exact IHfields].
Qed.

(** ** Serialization *)

(** A value that JSON represents as it is comes back from
    [JSON.parse(JSON.stringify(v))] unchanged. *)
Lemma stringify_parse (v : jsval) :
  json_value v = true ->
  exists doc, JSON_stringify v = Some doc /\ JSON_value doc = v.
Proof.
  induction v as [| |b|n|s|items IH|fields IH] using jsval_nested_ind; simpl; intros H;
    try discriminate; try (eexists; split; reflexivity).
  - destruct n; try discriminate. eexists; split; reflexivity.
  - eexists; split; [reflexivity|]. simpl. f_equal.
    induction items as [|x items IHitems]; simpl in *; [reflexivity|].
    apply andb_prop in H as [Hx Hitems].
    apply Forall_cons in IH as [IHx IH].
    destruct (IHx Hx) as (d & -> & ->). f_equal. by apply IHitems.
  - eexists; split; [reflexivity|]. simpl. f_equal.
    induction fields as [|[k x] fields IHfields]; simpl in *; [reflexivity|].
    apply andb_prop in H as [Hx Hfields].
    apply Forall_cons in IH as [IHx IH]. simpl in IHx.
    destruct (IHx Hx) as (d & -> & Hd). rewrite Hd. f_equal. by apply IHfields.
Qed.

(** ** Merging a configuration into itself *)

Lemma assign_same (fields : list (string * jsval)) (key : string) (x : jsval) :
  lookup_field key fields = Some x -> assign fields key x = fields.
Proof.
  induction fields as [|[k' x'] fields IH]; simpl; [discriminate|].
  destruct (String.eqb_spec key k') as [->|Hne].
  - by intros [= ->].
  - intros H. by rewrite IH.
Qed.

Lemma lookup_field_In (fields : list (string * jsval)) (key : string) (x : jsval) :
  distinct (map fst fields) = true ->
  In (key, x) fields ->
  lookup_field key fields = Some x.
Proof.
  induction fields as [|[k' x'] fields IH]; simpl; [done|].
  intros Hd [Hin|Hin].
  - injection Hin as -> ->. by rewrite String.eqb_refl.
  - apply andb_prop in Hd as [Hk Hd].
    destruct (String.eqb_spec key k') as [->|Hne]; [|by apply IH].
    exfalso. apply negb_true_iff in Hk.
    assert (existsb (String.eqb k') (map fst fields) = true) as Hex; [|congruence].
    apply existsb_exists. exists k'. split; [|apply String.eqb_refl].
    apply in_map_iff. by exists (k', x).
Qed.

(** The loop of [deepMerge] over fields that [result] already holds, each
    merged value being the one that is there, changes nothing. *)
Lemma merge_loop_same (target : jsval) (fields : list (string * jsval)) :
  distinct (map fst fields) = true ->
  forall visited,
    (forall kv, In kv visited ->
       In kv fields /\ mergeValue (get_prop target (fst kv)) (snd kv) = snd kv) ->
    fold_left
      (fun result kv =>
         assign result (fst kv) (mergeValue (get_prop target (fst kv)) (snd kv)))
      visited fields
    = fields.
Proof.
  intros Hd. induction visited as [|[k x] visited IH]; intros Hv; simpl; [reflexivity|].
  destruct (Hv (k, x)) as [Hin Hm]; [by left|]. simpl in Hm.
  rewrite Hm, assign_same by (by apply lookup_field_In).
  apply IH. intros kv Hkv. apply Hv. by right.
Qed.

Lemma mergeValue_same (v : jsval) :
  well_formed v = true -> mergeValue v v = v.
Proof.
  induction v as [| |b|n|s|items IH|fields IH] using jsval_nested_ind; intros Hwf;
    try reflexivity.
  simpl in Hwf. apply andb_prop in Hwf as [Hd Hwf].
  cbn [mergeValue]. unfold or_empty. cbn [truthy own_fields]. f_equal.
  apply merge_loop_same; [exact Hd|].
  intros [k x] Hin. split; [exact Hin|]. simpl.
  unfold get_prop. cbn [own_fields]. rewrite (lookup_field_In fields k x Hd Hin).
  rewrite List.Forall_forall in IH. apply (IH (k, x) Hin).
  rewrite forallb_forall in Hwf. apply (Hwf (k, x) Hin).
Qed.

Lemma deepMerge_same (fields : list (string * jsval)) :
  well_formed (JObj fields) = true -> deepMerge (JObj fields) (JObj fields) = JObj fields.
Proof.
  intros Hwf. pose proof (mergeValue_same (JObj fields) Hwf) as H.
  cbn [mergeValue] in H. unfold or_empty in H. cbn [truthy own_fields] in H.
  exact H.
Qed.

(** C8, as the code has it.  For a configuration object all of whose values
    JSON represents as they are (null, booleans, finite numbers, strings,
    arrays and objects of these), [import(export())] returns normally and
    leaves the configuration equal to what it was; and [import] of a string
    that is not valid JSON throws 'Invalid configuration JSON' and leaves
    the configuration untouched. *)
Theorem import_export_roundtrip :
  (forall fields : list (string * jsval),
     well_formed (JObj fields) = true ->
     json_value (JObj fields) = true ->
     import (JObj fields) (export (JObj fields)) = (JObj fields, Returned))
  /\ (forall config : jsval,
        import config NotJson = (config, Threw "Invalid configuration JSON")).
Proof.
  split; [|reflexivity].
  intros fields Hwf Hjson.
  destruct (stringify_parse (JObj fields) Hjson) as (doc & Hdoc & Hval).
  unfold import, export, update. rewrite Hdoc. cbn [JSON_parse]. rewrite Hval.
  by rewrite deepMerge_same.
Qed.

(** The default configuration survives the round trip. *)
Lemma import_export_roundtrip_witness :
  import (construct JUndefined) (export (construct JUndefined))
  = (construct JUndefined, Returned).
Proof.
  apply (proj1 import_export_roundtrip
           [ ("speechRecognition",
              JObj [ ("continuous", JBool true); ("interimResults", JBool false);
                     ("language", JStr "en-US"); ("maxAlternatives", q 1 1);
                     ("autoRestart", JBool true) ]);
             ("speechSynthesis",
              JObj [ ("defaultLanguage", JStr "en-US"); ("rate", q 1 1); ("pitch", q 1 1);
                     ("volume", q 1 1) ]);
             ("deviceManager",
              JObj [ ("discoveryInterval", q 30000 1); ("connectionTimeout", q 5000 1);
                     ("retryAttempts", q 3 1) ]);
             ("minConfidence", q 7 10);
             ("logLevel", JStr "INFO") ]).
  - reflexivity.
  - reflexivity.
Defined.

(** A configuration constructed with [minConfidence: NaN] does not survive:
    [export] writes the NaN as null, and [import] stores that null. *)
Lemma import_export_loses_NaN :
  let config := construct (JObj [("minConfidence", JNum NotANumber)]) in
  let r := import config (export config) in
  get_prop config "minConfidence" = JNum NotANumber
  /\ snd r = Returned
  /\ get_prop (fst r) "minConfidence" = JNull
  /\ fst r <> config.
Proof.
  cbv zeta. repeat split; try (vm_compute; reflexivity).
  intros H. vm_compute in H. discriminate H.
Qed.

End ConfigManagerFacts.

Module EventEmitterFacts.
Import EventEmitter.
Local Open Scope list_scope.
Local Open Scope nat_scope.

(** ** Arrays under [on] and [off] *)

Lemma splice_out_lookup {A} (l : list A) : forall index i x,
  splice_out index l !! i = Some x -> exists j, i <= j /\ l !! j = Some x.
Proof.
  induction l as [|y l IH]; intros index i x H; simpl in H; [by destruct index|].
  destruct index as [|index].
  - exists (S i). split; [lia|exact H].
  - destruct i as [|i]; simpl in H.
    + exists 0. split; [lia|exact H].
    + destruct (IH index i x H) as (j & Hj & Hl). exists (S j). split; [lia|exact Hl].
Qed.

Lemma splice_out_elem {A} (l : list A) index x : x ∈ splice_out index l -> x ∈ l.
Proof.
  intros [i Hi]%list_elem_of_lookup.
  destruct (splice_out_lookup l index i x Hi) as (j & _ & Hj).
  apply list_elem_of_lookup. by exists j.
Qed.

Lemma in_order_lookup (l : list listener) i j a b :
  in_order l -> l !! i = Some a -> l !! j = Some b -> i < j -> stamp a < stamp b.
Proof.
  unfold in_order. revert i j.
  induction l as [|y l IH]; intros i j Hs Ha Hb Hij; [done|].
  simpl in Hs. apply StronglySorted_cons in Hs as [Hy Hs].
  destruct j as [|j]; [lia|]. simpl in Hb.
  destruct i as [|i]; simpl in Ha.
  - injection Ha as ->. rewrite Forall_forall in Hy. apply Hy.
    apply list_elem_of_fmap. exists b. split; [done|].
    apply list_elem_of_lookup. by exists j.
  - apply (IH i j); [done..|lia].
Qed.

Lemma in_order_splice_out (l : list listener) : forall index,
  in_order l -> in_order (splice_out index l).
Proof.
  unfold in_order. induction l as [|y l IH]; intros index Hs; [by destruct index|].
  simpl in Hs. apply StronglySorted_cons in Hs as [Hy Hs].
  destruct index as [|index]; simpl; [exact Hs|].
  apply StronglySorted_cons. split; [|by apply IH].
  rewrite Forall_forall in *. intros s [x [-> Hx]]%list_elem_of_fmap.
  apply Hy, list_elem_of_fmap. exists x. split; [done|].
  by apply splice_out_elem in Hx.
Qed.

Lemma in_order_snoc (l : list listener) (x : listener) :
  in_order l -> Forall (fun y => stamp y < stamp x) l -> in_order (l ++ [x]).
Proof.
  unfold in_order. intros Hs Hl. rewrite map_app. simpl.
  apply StronglySorted_app_2; [|exact Hs|repeat constructor].
  intros s1 s2 [y [-> Hy]]%list_elem_of_fmap ->%list_elem_of_singleton.
  rewrite Forall_forall in Hl. by apply Hl.
Qed.

(** ** Consistency is an invariant *)

Lemma consistent_create : consistent create.
Proof. intros event callbacks H. simpl in H. by rewrite lookup_empty in H. Qed.

Lemma consistent_arr e event :
  consistent e -> in_order (arr e event) /\ Forall (fun l => stamp l < clock e) (arr e event).
Proof.
  intros Hc. destruct (events e !! event) as [callbacks|] eqn:H; simpl.
  - by apply Hc in H.
  - split; constructor.
Qed.

Lemma consistent_on e event cb : consistent e -> consistent (on e event cb).
Proof.
  intros Hc event' callbacks H. unfold on in *; simpl in *.
  destruct (decide (event = event')) as [->|Hne].
  - rewrite lookup_insert_eq in H. injection H as <-.
    destruct (consistent_arr e event' Hc) as [Hs Hf]. split.
    + apply in_order_snoc; [exact Hs|]. simpl. exact Hf.
    + apply Forall_app. split.
      * eapply Forall_impl; [exact Hf|]. simpl. lia.
      * repeat constructor.
  - rewrite lookup_insert_ne in H by done.
    destruct (Hc _ _ H) as [Hs Hf]. split; [exact Hs|].
    eapply Forall_impl; [exact Hf|]. simpl. lia.
Qed.

Lemma consistent_off e event cb : consistent e -> consistent (off e event cb).
Proof.
  intros Hc. unfold off.
  destruct (events e !! event) as [callbacks|] eqn:He; [|exact Hc].
  destruct (indexOf cb callbacks) as [index|]; [|exact Hc].
  intros event' callbacks' H. simpl in H.
  destruct (decide (event = event')) as [->|Hne].
  - rewrite lookup_insert_eq in H. injection H as <-.
    destruct (Hc _ _ He) as [Hs Hf]. split; [by apply in_order_splice_out|].
    rewrite Forall_forall in *. intros x Hx. apply splice_out_elem in Hx. by apply Hf.
  - rewrite lookup_insert_ne in H by done. by apply Hc in H.
Qed.

Lemma consistent_perform e a : consistent e -> consistent (perform e a).
Proof. destruct a; [apply consistent_on|apply consistent_off]. Qed.

Lemma consistent_actions acts : forall e, consistent e -> consistent (fold_left perform acts e).
Proof.
  induction acts as [|a acts IH]; intros e H; simpl; [exact H|].
  by apply IH, consistent_perform.
Qed.

(** ** What a callback can do to the array being visited *)

Lemma moved_refl event e : moved event e e.
Proof. split; [lia|]. intros i x H. left. exists i. split; [lia|exact H]. Qed.

Lemma moved_trans event e1 e2 e3 :
  moved event e1 e2 -> moved event e2 e3 -> moved event e1 e3.
Proof.
  intros [Hc1 H1] [Hc2 H2]. split; [lia|]. intros i x H.
  destruct (H2 i x H) as [(j & Hj & Hx)|Hx]; [|right; lia].
  destruct (H1 j x Hx) as [(j' & Hj' & Hx')|Hx']; [|by right].
  left. exists j'. split; [lia|exact Hx'].
Qed.

Lemma moved_on event e event' cb : moved event e (on e event' cb).
Proof.
  split; [simpl; lia|]. intros i x H. unfold on in H; simpl in H.
  destruct (decide (event' = event)) as [->|Hne].
  - rewrite lookup_insert_eq in H. simpl in H.
    apply lookup_app_Some in H as [H|[_ H]].
    + left. exists i. split; [lia|exact H].
    + right. apply list_lookup_singleton_Some in H as [_ <-]. simpl. lia.
  - rewrite lookup_insert_ne in H by done. left. exists i. split; [lia|exact H].
Qed.

Lemma moved_off event e event' cb : moved event e (off e event' cb).
Proof.
  unfold off.
  destruct (events e !! event') as [callbacks|] eqn:He; [|apply moved_refl].
  destruct (indexOf cb callbacks) as [index|]; [|apply moved_refl].
  split; [simpl; lia|]. intros i x H. simpl in H. left.
  destruct (decide (event' = event)) as [->|Hne].
  - rewrite lookup_insert_eq in H. simpl in H. rewrite He. simpl.
    by apply splice_out_lookup in H.
  - rewrite lookup_insert_ne in H by done. exists i. split; [lia|exact H].
Qed.

Lemma moved_actions event acts : forall e, moved event e (fold_left perform acts e).
Proof.
  induction acts as [|a acts IH]; intros e; simpl; [apply moved_refl|].
  eapply moved_trans; [|apply IH].
  destruct a; [apply moved_on|apply moved_off].
Qed.

(** ** The loop *)

Lemma tryCatch_call code e cb :
  tryCatch (call code e cb)
  = (fold_left perform (actions (code cb e)) e, Normal, throws (code cb e)).
Proof. unfold tryCatch, call; simpl. by destruct (throws (code cb e)). Qed.

Lemma forEach_in_order code event remaining : forall k e inv lg,
  visiting event k e inv ->
  in_order (invoked (forEach code event remaining k e inv lg)).
Proof.
  induction remaining as [|remaining IH]; intros k e inv lg (Hc & Hs & Hclk & Hlt);
    simpl; [exact Hs|].
  destruct (arr e event !! k) as [l|] eqn:Hk.
  - rewrite tryCatch_call. apply IH.
    set (e' := fold_left perform (actions (code (callback l) e)) e).
    destruct (moved_actions event (actions (code (callback l) e)) e) as [Hclock Hmoved].
    fold e' in Hclock, Hmoved.
    destruct (consistent_arr e event Hc) as [Harr Hold].
    assert (stamp l < clock e) as Hl.
    { rewrite Forall_forall in Hold. apply Hold, list_elem_of_lookup. by exists k. }
    split; [by apply consistent_actions|]. split; [|split].
    + apply in_order_snoc; [exact Hs|].
      apply Forall_forall. intros y Hy. by apply (Hlt y k l).
    + apply Forall_app. split; [|repeat constructor; lia].
      eapply Forall_impl; [exact Hclk|]. simpl. lia.
    + intros y i x Hy Hi Hx.
      assert (stamp y < clock e) as Hyc.
      { apply elem_of_app in Hy as [Hy| ->%list_elem_of_singleton]; [|exact Hl].
        rewrite Forall_forall in Hclk. by apply Hclk. }
      destruct (Hmoved i x Hx) as [(j & Hj & Hxj)|Hfresh]; [|lia].
      apply elem_of_app in Hy as [Hy| ->%list_elem_of_singleton].
      * apply (Hlt y j x); [done|lia|done].
      * apply (in_order_lookup (arr e event) k j); [done..|lia].
  - apply IH. split; [done|]. split; [done|]. split; [done|].
    intros y i x Hy Hi Hx. apply (Hlt y i x); [done|lia|done].
Qed.

Lemma forEach_result code event remaining : forall k e inv lg,
  result (forEach code event remaining k e inv lg) = Normal.
Proof.
  induction remaining as [|remaining IH]; intros k e inv lg; simpl; [reflexivity|].
  destruct (arr e event !! k) as [l|]; [|apply IH].
  rewrite tryCatch_call. apply IH.
Qed.

(** Whether the callbacks throw or not makes no difference to the listeners
    that are invoked and to the emitter that is left. *)
Lemma forEach_quiet code event remaining : forall k e inv lg lg',
  final (forEach (quiet code) event remaining k e inv lg')
  = final (forEach code event remaining k e inv lg)
  /\ invoked (forEach (quiet code) event remaining k e inv lg')
     = invoked (forEach code event remaining k e inv lg).
Proof.
  induction remaining as [|remaining IH]; intros k e inv lg lg'; simpl; [done|].
  destruct (arr e event !! k) as [l|]; [|apply IH].
  rewrite !tryCatch_call. simpl. apply IH.
Qed.

(** Callbacks that leave the emitter alone: the loop goes through the rest
    of the array. *)
Lemma forEach_silent (throwers : nat -> bool) event remaining : forall k e inv lg,
  remaining + k = length (arr e event) ->
  let r := forEach (fun cb _ => mkBehaviour [] (throwers cb)) event remaining k e inv lg in
  final r = e
  /\ invoked r = inv ++ drop k (arr e event)
  /\ logged r = lg ++ List.filter (fun l => throwers (callback l)) (drop k (arr e event)).
Proof.
  induction remaining as [|remaining IH]; intros k e inv lg Hlen; simpl.
  - rewrite drop_ge by lia. simpl. by rewrite !app_nil_r.
  - destruct (arr e event !! k) as [l|] eqn:Hk.
    + rewrite tryCatch_call. simpl.
      destruct (IH (S k) e (inv ++ [l]) (if throwers (callback l) then lg ++ [l] else lg))
        as (Hf & Hi & Hl); [lia|].
      rewrite Hf, Hi, Hl, (drop_S _ _ _ Hk), <- app_assoc. simpl.
      repeat split.
      destruct (throwers (callback l)); [by rewrite <- app_assoc|done].
    + apply lookup_ge_None in Hk. lia.
Qed.

(** C9.  Take an emitter in any state that calls of [on] and [off] lead to,
    any event, and callbacks that do anything to the emitter and throw or
    return as they please.  Then [emit] returns normally: no exception leaves
    it.  The listeners it invokes have strictly increasing registration
    stamps: none is invoked twice, and they are invoked in registration
    order.  Making the callbacks that throw return instead changes neither
    the listeners invoked nor the emitter left behind: an exception stops
    nothing.  In particular, when the callbacks leave the emitter alone,
    every listener of the event is invoked, once and in order, the throwing
    ones are logged, and the emitter is unchanged. *)
Theorem emit_delivery (history : list action) (code : nat -> t -> behaviour)
    (throwers : nat -> bool) (event : string) :
  let e := fold_left perform history create in
  let r := emit code e event in
  result r = Normal
  /\ in_order (invoked r)
  /\ final (emit (quiet code) e event) = final r
  /\ invoked (emit (quiet code) e event) = invoked r
  /\ (let r0 := emit (fun cb _ => mkBehaviour [] (throwers cb)) e event in
      result r0 = Normal
      /\ final r0 = e
      /\ invoked r0 = default [] (events e !! event)
      /\ logged r0
         = List.filter (fun l => throwers (callback l)) (default [] (events e !! event))).
Proof.
  intros e r.
  assert (consistent e) as Hc by apply consistent_actions, consistent_create.
  subst r. unfold emit.
  destruct (events e !! event) as [callbacks|] eqn:He; simpl.
  - split; [apply forEach_result|]. split.
    + apply forEach_in_order. split; [exact Hc|]. split; [constructor|].
      split; [constructor|]. intros l i x Hl. by apply elem_of_nil in Hl.
    + split; [apply forEach_quiet|]. split; [apply forEach_quiet|].
      split; [apply forEach_result|].
      destruct (forEach_silent throwers event (length callbacks) 0 e [] [])
        as (Hf & Hi & Hl); [rewrite He; simpl; lia|].
      rewrite He in Hi, Hl. simpl in Hi, Hl. auto.
  - repeat split. constructor.
Qed.

(** A listener installed by [once] takes itself off the array while the
    loop runs, and the listener registered next is passed over in that
    [emit]: it is invoked at most once, here not at all. *)
Example once_then_on :
  let e := on (on create "ready" 1) "ready" 2 in
  let code := fun cb (_ : t) =>
                if (cb =? 1)%nat then mkBehaviour [Unsubscribe "ready" 1] false
                else mkBehaviour [] false in
  invoked (emit code e "ready") = [mkListener 0 1]
  /\ events (final (emit code e "ready")) !! "ready" = Some [mkListener 1 2].
Proof. split; vm_compute; reflexivity. Qed.

End EventEmitterFacts.

(** * Further properties of DeviceManager *)

Module DeviceManagerMore.
Import DeviceManager DeviceManagerFacts.

Ltac branch_if :=
  match goal with
  | |- context [if ?b then _ else _] => destruct b eqn:?
  end.

(** ** Volume *)

Lemma dispatch_volume ty st command :
  prop_within "volume" 0 100 st ->
  prop_within "volume" 0 100 (fst (dispatch ty st command)).
Proof.
  intros H. destruct (prop_within_prop _ _ _ _ H) as (v & Hv & Hr).
  unfold dispatch, controlLight, controlThermostat, controlTV, controlSpeaker,
    controlGenericDevice.
  repeat branch_if; try (destruct (param _ _); simpl);
    first [ done
          | by apply store_other
          | apply store_same; [|done]; intros n;
            first [ by apply (raise_within _ v) | by apply (lower_within _ v _ 0) ]
          | repeat apply set_prop_other; done ].
Qed.

(** X1.  The volume of a device (a TV or a speaker) that lies within [0, 100]
    stays there under any sequence of calls of [controlDevice], for any
    device, action and parameters, and discovery passes: volume_up and
    increase stop at 100, volume_down and decrease at 0. *)
Theorem volume_bounded (m : t) (deviceId : string) (ops : list op) :
  within "volume" 0 100 m deviceId ->
  forallb keeps ops = true ->
  within "volume" 0 100 (run m ops) deviceId.
Proof.
  revert m. induction ops as [|o ops IH]; intros m H Hops; simpl in *; [done|].
  apply andb_prop in Hops as [Ho Hops].
  apply IH; [|done].
  destruct o; simpl in *; try discriminate.
  - apply controlDevice_within; [|done]. intros ty st. apply dispatch_volume.
  - by apply discoverDevices_within.
Qed.

Lemma volume_bounded_witness :
  within "volume" 0 100
    (run (construct (fun _ => true) 1000)
       (repeat (OpControl "kitchen-speaker" "volume_up" None 1001) 9
        ++ [OpControl "living_room-tv" "decrease" None 1002]))
    "kitchen-speaker".
Proof.
  apply volume_bounded.
  - eexists. split; [vm_compute; reflexivity|].
    exists 30. split; [vm_compute; reflexivity|lia].
  - reflexivity.
Defined.

(** ** What a call may change *)

Lemma dispatch_frame ty st command :
  let st' := fst (dispatch ty st command) in
  ds_id st' = ds_id st /\ ds_status st' = ds_status st /\ lastSeen st' = lastSeen st.
Proof.
  unfold dispatch, controlLight, controlThermostat, controlTV, controlSpeaker,
    controlGenericDevice, store.
  repeat branch; simpl; done.
Qed.


Lemma controlDevice_interval (m : t) (deviceId act : string)
    (params : option (gmap string read)) (now : Z) :
  discoveryInterval (fst (controlDevice m deviceId act params now)) = discoveryInterval m.
Proof.
  unfold controlDevice.
  destruct (devices m !! deviceId) as [device|]; [|done].
  destruct (deviceStates m !! deviceId) as [st0|]; [|done].
  destruct (negb (Status_eqb (ds_status st0) online)); [done|].
  unfold executeDeviceCommand.
  destruct (deviceStates m !! id device) as [st1|]; simpl; [|done].
  by destruct (dispatch (type device) st1 _) as [st' [response|]].
Qed.

Lemma controlDevice_ids (m : t) (deviceId act : string)
    (params : option (gmap string read)) (now : Z) (k : string) (st' : DeviceState) :
  deviceStates (fst (controlDevice m deviceId act params now)) !! k = Some st' ->
  exists st, deviceStates m !! k = Some st /\ ds_id st' = ds_id st.
Proof.
  destruct (controlDevice_states m deviceId act params now)
    as [->|(device & st1 & _ & Hst1 & ->)]; [by exists st'|].
  intros H. destruct (decide (id device = k)) as [<-|Hne].
  - rewrite lookup_insert_eq in H. injection H as <-.
    exists st1. split; [done|]. apply dispatch_frame.
  - rewrite lookup_insert_ne in H by done. by exists st'.
Qed.

(** X2.  [controlDevice] never touches the registry of devices, nor the identity,
    the status or the lastSeen stamp of any device state; and the only state
    whose properties it may change is the one filed under the [id] of the
    addressed device. *)
Theorem controlDevice_frame (m : t) (deviceId act : string)
    (params : option (gmap string read)) (now : Z) :
  let m' := fst (controlDevice m deviceId act params now) in
  devices m' = devices m
  /\ discoveryInterval m' = discoveryInterval m
  /\ forall k st', deviceStates m' !! k = Some st' ->
       exists st, deviceStates m !! k = Some st
                  /\ ds_id st' = ds_id st
                  /\ ds_status st' = ds_status st
                  /\ lastSeen st' = lastSeen st
                  /\ (forall device, devices m !! deviceId = Some device ->
                        k <> id device -> st' = st).
Proof.
  cbv zeta. split; [apply controlDevice_devices|].
  split; [apply controlDevice_interval|].
  intros k st' H.
  destruct (controlDevice_states m deviceId act params now)
    as [Heq|(device & st1 & Hdev & Hst1 & Heq)]; rewrite Heq in H.
  - exists st'. repeat split; done.
  - destruct (decide (id device = k)) as [<-|Hne].
    + rewrite lookup_insert_eq in H. injection H as <-.
      exists st1.
      destruct (dispatch_frame (type device) st1
                  (mkCommand ("cmd-" +:+ pretty now) act (default ∅ params)))
        as (? & ? & ?).
      repeat split; try done.
      intros device' Hdev' Hk. rewrite Hdev in Hdev'. by injection Hdev' as <-.
    + rewrite lookup_insert_ne in H by done. exists st'. repeat split; done.
Qed.



(** ** The event *)













(** A device of a type without a handler of its own accepts every action:
    for such a device, filed under its [id] and online, [controlDevice]
    returns true whatever the action is. *)
Theorem generic_device_accepts_all (m : t) (act : string)
    (params : option (gmap string read)) (now : Z) (device : Device) (st : DeviceState) :
  devices m !! id device = Some device ->
  deviceStates m !! id device = Some st ->
  ds_status st = online ->
  typed (type device) = false ->
  snd (controlDevice m (id device) act params now) = true.
Proof.
  intros Hdev Hst Hon Hty. unfold controlDevice. rewrite Hdev, Hst, Hon. simpl.
  unfold executeDeviceCommand. rewrite Hst.
  unfold typed in Hty. repeat (apply orb_false_elim in Hty as [Hty ?]).
  unfold dispatch. rewrite Hty, H, H0, H1.
  unfold controlGenericDevice. simpl. repeat branch; reflexivity.
Qed.

Lemma generic_device_accepts_all_witness :
  let plug := mkDevice "hall-plug" "Hall Plug" "smart_plug" "online" in
  snd (controlDevice (addDevice (construct (fun _ => true) 1000) plug 1001)
                     "hall-plug" "make_coffee" None 1002) = true.
Proof.
  apply (generic_device_accepts_all _ _ _ _
           (mkDevice "hall-plug" "Hall Plug" "smart_plug" "online")
           (mkState "hall-plug" online 1001 ∅)).
  - vm_compute. reflexivity.
  - vm_compute. reflexivity.
  - reflexivity.
  - reflexivity.
Defined.

(** ** Identifiers *)

Lemma keyed_addDevice m device now : keyed m -> keyed (addDevice m device now).
Proof.
  intros [Hd Hs]. split; intros k x H; unfold addDevice in H; simpl in H;
    apply lookup_insert_Some in H as [[<- <-]|[_ H]]; eauto.
Qed.

Lemma keyed_removeDevice m deviceId : keyed m -> keyed (fst (removeDevice m deviceId)).
Proof.
  intros [Hd Hs]. unfold removeDevice.
  destruct (devices m !! deviceId); [|done].
  split; intros k x H; simpl in H; apply lookup_delete_Some in H as [_ H]; eauto.
Qed.

Lemma keyed_discoverDevices m isOnline now : keyed m -> keyed (discoverDevices m isOnline now).
Proof.
  intros [Hd Hs]. split; [exact Hd|].
  intros k st H. unfold discoverDevices in H; simpl in H.
  rewrite map_lookup_imap in H.
  destruct (deviceStates m !! k) as [st0|] eqn:Hk; simpl in H; [|done].
  injection H as <-. simpl. eauto.
Qed.

Lemma keyed_controlDevice m deviceId act params now :
  keyed m -> keyed (fst (controlDevice m deviceId act params now)).
Proof.
  intros [Hd Hs]. split.
  - rewrite controlDevice_devices. exact Hd.
  - intros k st' H.
    destruct (controlDevice_ids m deviceId act params now k st' H) as (st & Hk & Hid).
    rewrite Hid. eauto.
Qed.

Lemma keyed_step m o : keyed m -> keyed (step m o).
Proof.
  destruct o; simpl.
  - apply keyed_addDevice.
  - apply keyed_removeDevice.
  - apply keyed_controlDevice.
  - apply keyed_discoverDevices.
  - intros _. split; intros k x H; simpl in H; by rewrite lookup_empty in H.
Qed.

Lemma keyed_construct (isOnline : string -> bool) (now : Z) :
  keyed (construct isOnline now).
Proof.
  unfold construct. apply keyed_discoverDevices.
  assert (forall l m, keyed m ->
            keyed (fold_left (fun acc device => addDevice acc device now) l m)) as Hfold.
  { induction l as [|d l IH]; intros m H; simpl; [done|]. apply IH, keyed_addDevice, H. }
  pose proof (Hfold defaultDevices (mkManager ∅ ∅ false [])) as H.
  unfold initializeDefaultDevices. unfold keyed in *. simpl in *. apply H.
  split; intros k x Hk; by rewrite lookup_empty in Hk.
Qed.

(** X5.  From the constructor on, whatever is done with the manager, every
    device is filed under its own [id] and every state under the [id] it
    carries: the state that [controlDevice(id)] works on is the state of
    [id]. *)
Theorem registry_keyed_by_id (isOnline : string -> bool) (now : Z) (ops : list op) :
  keyed (run (construct isOnline now) ops).
Proof.
  pose proof (keyed_construct isOnline now) as Hc.
  revert Hc. generalize (construct isOnline now).
  induction ops as [|o ops IH]; intros m H; simpl; [done|].
  apply IH, keyed_step, H.
Qed.

(** ** Adding and removing *)

(** Removing a device that was just added, under an identifier that was
    free, gives back the manager as it was, and [removeDevice] returns
    true. *)
Theorem add_then_remove (m : t) (device : Device) (now : Z) :
  devices m !! id device = None ->
  deviceStates m !! id device = None ->
  removeDevice (addDevice m device now) (id device) = (m, true).
Proof.
  intros Hd Hs. unfold removeDevice, addDevice; simpl.
  rewrite lookup_insert_eq, !delete_insert_id by done.
  by destruct m.
Qed.

Lemma add_then_remove_witness :
  let m := construct (fun _ => true) 1000 in
  let plug := mkDevice "hall-plug" "Hall Plug" "smart_plug" "online" in
  removeDevice (addDevice m plug 1001) "hall-plug" = (m, true).
Proof.
  apply (add_then_remove _ (mkDevice "hall-plug" "Hall Plug" "smart_plug" "online")).
  - vm_compute. reflexivity.
  - vm_compute. reflexivity.
Defined.

(** ** Discovery *)

(** X6.  A discovery pass rewrites the status of every state from its draw,
    refreshes lastSeen for the devices found online only, and keeps the
    properties; and a device that the pass found offline is refused by
    [controlDevice], which then changes nothing, whatever it was before. *)
Theorem discovery_gates_control (m : t) (isOnline : string -> bool) (t0 : Z) :
  (forall k,
     deviceStates (discoverDevices m isOnline t0) !! k
     = (fun st => mkState (ds_id st)
                          (if isOnline k then online else offline)
                          (if isOnline k then t0 else lastSeen st)
                          (properties st)) <$> deviceStates m !! k)
  /\ (forall deviceId act params now,
        isOnline deviceId = false ->
        controlDevice (discoverDevices m isOnline t0) deviceId act params now
        = (discoverDevices m isOnline t0, false)).
Proof.
  assert (forall k,
    deviceStates (discoverDevices m isOnline t0) !! k
    = (fun st => mkState (ds_id st)
                         (if isOnline k then online else offline)
                         (if isOnline k then t0 else lastSeen st)
                         (properties st)) <$> deviceStates m !! k) as Hlook.
  { intros k. unfold discoverDevices; simpl. rewrite map_lookup_imap.
    by destruct (deviceStates m !! k). }
  split; [exact Hlook|].
  intros deviceId act params now Hoff.
  unfold controlDevice. rewrite Hlook, Hoff.
  destruct (devices (discoverDevices m isOnline t0) !! deviceId); [|done].
  by destruct (deviceStates m !! deviceId).
Qed.

Lemma discovery_gates_control_witness :
  let m := discoverDevices (construct (fun _ => true) 1000)
             (fun k => negb (String.eqb k "main-thermostat")) 2000 in
  controlDevice m "main-thermostat" "increase" None 2001 = (m, false).
Proof.
  apply (proj2 (discovery_gates_control (construct (fun _ => true) 1000)
                  (fun k => negb (String.eqb k "main-thermostat")) 2000)).
  reflexivity.
Defined.

(** ** Requests for the value 0 *)

(** X7.  A requested value of 0 is read as no request: set_brightness with
    value 0 sets the brightness to 50, turn_on with brightness 0 sets it to
    100, and set_temperature with value 0 and no other temperature sets the
    target to 72. *)
Theorem zero_request_reads_as_absent (st : DeviceState) (command : Command) :
  (action command = "set_brightness" ->
   parameters command !! "value" = Some (Holds (PNum (Fin 0))) ->
   properties (fst (controlLight st command)) !! "brightness" = Some (PNum (Fin 50)))
  /\ (action command = "turn_on" ->
      parameters command !! "brightness" = Some (Holds (PNum (Fin 0))) ->
      properties (fst (controlLight st command)) !! "brightness" = Some (PNum (Fin 100)))
  /\ (action command = "set_temperature" ->
      parameters command !! "value" = Some (Holds (PNum (Fin 0))) ->
      parameters command !! "temperature" = None ->
      properties (fst (controlThermostat st command)) !! "target" = Some (PNum (Fin 72))).
Proof.
  repeat split.
  - intros Ha Hv. unfold controlLight, param. rewrite Ha, Hv. simpl.
    by rewrite lookup_insert_eq.
  - intros Ha Hv. unfold controlLight, param. rewrite Ha, Hv. simpl.
    by rewrite lookup_insert_eq.
  - intros Ha Hv Ht. unfold controlThermostat, requested, param. rewrite Ha, Hv, Ht. simpl.
    by rewrite lookup_insert_eq.
Qed.

Lemma zero_request_reads_as_absent_witness :
  properties (fst (controlLight (mkState "kitchen-light" online 0 (getDefaultProperties "smart_light"))
                                (mkCommand "cmd-1" "set_brightness"
                                           {[ "value" := Holds (PNum (Fin 0)) ]})))
    !! "brightness" = Some (PNum (Fin 50)).
Proof.
  apply (proj1 (zero_request_reads_as_absent _ _)).
  - reflexivity.
  - vm_compute. reflexivity.
Defined.

End DeviceManagerMore.

(** * Further properties of SpeechSynthesis *)

Module SpeechSynthesisMore.
Import SpeechSynthesis SpeechSynthesisFacts.
Local Open Scope list_scope.

(** ** What [speak] adds *)

Lemma trim_start_spaces (l : list ascii) :
  forallb is_space l = true -> trim_start l = [].
Proof.
  induction l as [|c l IH]; simpl; [done|].
  intros H. apply andb_prop in H as [Hc Hl]. rewrite Hc. by apply IH.
Qed.

Lemma trim_blank (txt : string) :
  forallb is_space (list_ascii_of_string txt) = true -> trim txt = "".
Proof. intros H. unfold trim, trim_chars. rewrite (trim_start_spaces _ H). reflexivity. Qed.

Lemma processQueue_holds (s : t) :
  spoken (processQueue s) ++ speechQueue (processQueue s) = spoken s ++ speechQueue s.
Proof.
  unfold processQueue. destruct (isPlaying s); [reflexivity|].
  destruct (speechQueue s) as [|request rest] eqn:Hq; [by rewrite Hq|].
  simpl. by rewrite <- app_assoc.
Qed.

(** X8.  [speak] with a text that is empty or all white space changes nothing.
    With any other text it adds exactly one request to the requests that the
    instance holds (those already handed to playback followed by those
    queued): the request carries the trimmed text, the given priority or 1,
    and the given language or the default one, and goes somewhere into the
    queue; no other request is lost or moved behind another. *)
Theorem speak_adds_one (s : t) (txt : string) (language : option string) (prio : option num) :
  (forallb is_space (list_ascii_of_string txt) = true -> speak s txt language prio = s)
  /\ (String.eqb (trim txt) "" = false ->
      exists request before after,
        text request = trim txt
        /\ priority request = default (Fin 1) prio
        /\ SpeechSynthesis.language request
           = match language with
             | Some l => if String.eqb l "" then defaultLanguage s else l
             | None => defaultLanguage s
             end
        /\ speechQueue s = before ++ after
        /\ spoken (speak s txt language prio) ++ speechQueue (speak s txt language prio)
           = spoken s ++ before ++ request :: after).
Proof.
  split.
  - intros H. unfold speak. by rewrite (trim_blank txt H).
  - intros H. unfold speak. rewrite H.
    set (request := mkRequest _ _ _).
    destruct (enqueue_somewhere (speechQueue s) request) as (before & after & Hq & He).
    exists request, before, after. repeat split; [exact Hq|].
    rewrite processQueue_holds. simpl. by rewrite He.
Qed.

Lemma speak_adds_one_witness :
  let s := mkSynth [mkRequest "queued" "en-US" (Fin 1)] true [] 1 0 "en-US" in
  exists request before after,
    text request = trim "  hello " /\ priority request = Fin 1
    /\ SpeechSynthesis.language request = "en-US"
    /\ speechQueue s = before ++ after
    /\ spoken (speak s "  hello " None None) ++ speechQueue (speak s "  hello " None None)
       = spoken s ++ before ++ request :: after.
Proof.
  apply (proj2 (speak_adds_one (mkSynth [mkRequest "queued" "en-US" (Fin 1)] true [] 1 0
                                        "en-US")
                  "  hello " None None)).
  reflexivity.
Defined.

(** ** The queue over the life of an instance *)

Lemma enqueue_ordinary queue request :
  ordinary request ->
  Forall ordinary queue ->
  Forall ordinary (enqueue queue request).
Proof.
  intros Hr Hq.
  destruct (enqueue_somewhere queue request) as (before & after & -> & ->).
  apply Forall_app in Hq as [Hb Ha]. apply Forall_app. split; [done|by constructor].
Qed.

Lemma tidy_processQueue s : tidy s -> tidy (processQueue s).
Proof.
  intros [Hs Hn]. unfold processQueue. destruct (isPlaying s); [done|].
  destruct (speechQueue s) as [|request rest] eqn:Hq; [by rewrite <- Hq in *|].
  unfold tidy, descending in *. simpl.
  apply StronglySorted_cons in Hs as [_ Hs]. apply Forall_cons in Hn as [_ Hn]. done.
Qed.

Lemma tidy_exec s c : ordinary_priority c = true -> tidy s -> tidy (exec s c).
Proof.
  intros Hc [Hs Hn]. destruct c as [txt language prio| |[|]]; simpl.
  - unfold speak. destruct (String.eqb (trim txt) ""); [done|].
    assert (exists p, default (Fin 1) prio = Fin p /\ p <> 0) as (p & Hp & Hnz).
    { destruct prio as [[p|]|]; simpl in *; [|done|by exists 1].
      exists p. split; [done|]. apply negb_true_iff in Hc. by apply Z.eqb_neq in Hc. }
    apply tidy_processQueue. split; simpl.
    + by apply (enqueue_descending _ _ p).
    + apply enqueue_ordinary; [|done]. by exists p.
  - split; simpl; constructor.
  - unfold settle. destruct (inflight s); done.
  - unfold timer. destruct (timers s); [done|]. by apply tidy_processQueue.
Qed.

(** X9.  As long as every priority that a call of [speak] gives is a number
    other than 0 and NaN, the queue of an instance is in descending order of
    priority at every moment of its life, whatever calls of [speak] and
    [stopSpeaking] and whatever host events occur.  (A priority of 0 or NaN
    is read as 1 once it is queued, and NaN compares false with everything:
    either can leave the queue out of order.) *)
Theorem queue_always_sorted (defaultLang : string) (cs : list call) :
  forallb ordinary_priority cs = true ->
  descending (speechQueue (execs (create defaultLang) cs)).
Proof.
  intros H.
  assert (tidy (create defaultLang)) as Ht by (split; constructor).
  revert Ht H. generalize (create defaultLang).
  induction cs as [|c cs IH]; intros s Ht H; simpl in *; [apply Ht|].
  apply andb_prop in H as [Hc Hcs]. apply IH; [|done]. by apply tidy_exec.
Qed.

Lemma queue_always_sorted_witness :
  descending
    (speechQueue
       (execs (create "en-US")
          [ Speak "one" None None; Speak "two" None (Some (Fin 3));
            Speak "three" None (Some (Fin 2)); Host Settle;
            Speak "four" None (Some (Fin 3)); Host Timer; Speak "five" None None ])).
Proof. apply queue_always_sorted. reflexivity. Defined.

Lemma live_processQueue s :
  (isPlaying s = true -> (0 < inflight s)%nat) -> live (processQueue s).
Proof.
  intros Hp. unfold processQueue.
  destruct (isPlaying s) eqn:Hplaying.
  - split; [intros _; by left|intros _; by apply Hp].
  - destruct (speechQueue s) as [|request rest] eqn:Hq.
    + split; [by rewrite Hq|]. rewrite Hplaying. done.
    + split; simpl; [intros _; by left|lia].
Qed.

Lemma live_exec s c : live s -> live (exec s c).
Proof.
  intros Hl. pose proof Hl as [Hq Hp]. destruct c as [txt language prio| |[|]]; simpl.
  - unfold speak. destruct (String.eqb (trim txt) ""); [exact Hl|].
    by apply live_processQueue.
  - split; simpl; [done|discriminate].
  - unfold settle. destruct (inflight s) as [|n]; [exact Hl|].
    split; simpl; [|discriminate].
    destruct (speechQueue s); [done|]. intros _. right. lia.
  - unfold timer. destruct (timers s) as [|n]; [exact Hl|].
    by apply live_processQueue.
Qed.

Lemma live_execs cs : forall s, live s -> live (execs s cs).
Proof.
  induction cs as [|c cs IH]; intros s H; simpl; [done|]. by apply IH, live_exec.
Qed.

(** From a live state the host events can empty the queue, in queue order. *)
Lemma live_drains (n : nat) : forall s,
  length (speechQueue s) = n -> live s ->
  exists es,
    speechQueue (drain s es) = []
    /\ spoken (drain s es) = spoken s ++ speechQueue s.
Proof.
  induction n as [|n IH]; intros s Hn Hl.
  - exists []. simpl. destruct (speechQueue s); [|done]. by rewrite app_nil_r.
  - destruct (speechQueue s) as [|request rest] eqn:Hq; [done|].
    injection Hn as Hn.
    (* a state that is not playing, with the same queue and a timer pending *)
    assert (exists pre,
              isPlaying (drain s pre) = false /\ (0 < timers (drain s pre))%nat
              /\ speechQueue (drain s pre) = request :: rest
              /\ spoken (drain s pre) = spoken s) as (pre & Hidle & Htimer & Hq1 & Hsp1).
    { destruct Hl as [Hl Hp]. destruct (isPlaying s) eqn:Hplaying.
      - specialize (Hp eq_refl). exists [Settle]. simpl. unfold settle.
        destruct (inflight s) as [|k]; [lia|]. rewrite Hq. simpl.
        repeat split. lia.
      - rewrite Hq in Hl. destruct Hl as [Hl|Hl]; [done|discriminate|].
        exists []. simpl. repeat split; done. }
    set (s1 := drain s pre) in *.
    assert (speechQueue (timer s1) = rest /\ spoken (timer s1) = spoken s ++ [request]
            /\ live (timer s1)) as (Hq2 & Hsp2 & Hl2).
    { unfold timer. destruct (timers s1) as [|k]; [lia|].
      unfold processQueue; simpl. rewrite Hidle, Hq1. simpl.
      rewrite Hsp1. repeat split; simpl; [intros _; by left|lia]. }
    destruct (IH (timer s1)) as (es & He1 & He2); [by rewrite Hq2|done|].
    exists (pre ++ [Timer] ++ es).
    unfold drain in *. rewrite !fold_left_app. simpl. fold s1.
    split; [exact He1|]. rewrite He2, Hsp2, Hq2, <- app_assoc. done.
Qed.

(** X10.  No request is stranded.  At every moment of the life of an instance,
    a non-empty queue comes with an utterance that is playing or with a
    pending timer, and an utterance that is playing with a promise still to
    settle; so the host events can always empty the queue, handing the queued
    requests to playback in queue order. *)
Theorem queue_never_stranded (defaultLang : string) (cs : list call) :
  let s := execs (create defaultLang) cs in
  live s
  /\ exists es,
       speechQueue (drain s es) = []
       /\ spoken (drain s es) = spoken s ++ speechQueue s.
Proof.
  intros s.
  assert (live s) as Hl.
  { apply live_execs. split; simpl; [done|discriminate]. }
  split; [exact Hl|]. by apply (live_drains (length (speechQueue s))).
Qed.

(** X11.  [stopSpeaking] discards what is queued: the queue is empty, and
    whatever host events follow, no request is handed to playback until the
    next call of [speak]. *)
Theorem stopSpeaking_discards (s : t) (es : list event) :
  speechQueue (stopSpeaking s) = []
  /\ isPlaying (stopSpeaking s) = false
  /\ spoken (drain (stopSpeaking s) es) = spoken s
  /\ speechQueue (drain (stopSpeaking s) es) = [].
Proof.
  destruct (drain_prefix es (stopSpeaking s)) as (k & Hs & Hq).
  simpl in Hs, Hq. rewrite firstn_nil, app_nil_r in Hs. rewrite skipn_nil in Hq.
  repeat split; done.
Qed.

(** ** Voice selection *)

Lemma prefix_langCode (language : string) : String.prefix (langCode language) language = true.
Proof.
  induction language as [|c rest IH]; simpl; [done|].
  destruct (Ascii.eqb c "-"); simpl; [done|].
  destruct (ascii_dec c c); [exact IH|done].
Qed.

(** The first pick: an exact match, or else the first loose match. *)
Lemma first_pick (voices : list Voice) (language : string) :
  match
    match List.find (fun v => String.eqb (lang v) language) voices with
    | Some v => Some v
    | None => List.find (fun v => String.prefix (langCode language) (lang v)) voices
    end
  with
  | Some v =>
      In v voices /\ String.prefix (langCode language) (lang v) = true
      /\ ((exists w, In w voices /\ lang w = language) -> lang v = language)
  | None => forall v, In v voices -> String.prefix (langCode language) (lang v) = false
  end.
Proof.
  destruct (List.find (fun v => String.eqb (lang v) language) voices) as [x|] eqn:Hx.
  - apply find_some in Hx as [Hin Hl]. apply String.eqb_eq in Hl.
    split; [done|]. split; [|done]. rewrite Hl. apply prefix_langCode.
  - destruct (List.find (fun v => String.prefix (langCode language) (lang v)) voices)
      as [y|] eqn:Hy.
    + apply find_some in Hy as [Hin Hl]. split; [done|]. split; [done|].
      intros (w & Hw & Hwl). pose proof (find_none _ _ Hx w Hw) as Hn. simpl in Hn.
      apply String.eqb_neq in Hn. done.
    + intros v Hin. apply (find_none _ _ Hy v Hin).
Qed.

(** X12.  The voice chosen for a language.  There is none exactly when no voice
    has a language tag that starts with the primary subtag of the language.
    A chosen voice is one of the voices and its tag starts with that subtag;
    its tag is the language itself whenever some voice has exactly that tag;
    and it is a local voice whenever some voice with the same tag is local. *)
Theorem best_voice (voices : list Voice) (language : string) :
  (getBestVoiceForLanguage voices language = None
   <-> forall v, In v voices -> String.prefix (langCode language) (lang v) = false)
  /\ (forall v, getBestVoiceForLanguage voices language = Some v ->
        In v voices
        /\ String.prefix (langCode language) (lang v) = true
        /\ ((exists w, In w voices /\ lang w = language) -> lang v = language)
        /\ ((exists w, In w voices /\ lang w = lang v /\ localService w = true) ->
            localService v = true)).
Proof.
  unfold getBestVoiceForLanguage.
  destruct voices as [|v0 rest] eqn:Hvoices.
  { split; [split; [intros _ v []|done]|discriminate]. }
  rewrite <- Hvoices. clear Hvoices v0 rest.
  pose proof (first_pick voices language) as Hpick.
  destruct (match List.find (fun v => String.eqb (lang v) language) voices with
            | Some v => Some v
            | None => List.find (fun v => String.prefix (langCode language) (lang v)) voices
            end) as [x|].
  - destruct Hpick as (Hin & Hp & Hex).
    destruct (List.find (fun w => String.eqb (lang w) (lang x) && localService w) voices)
      as [l|] eqn:Hl.
    + apply find_some in Hl as [Hlin Hl].
      apply andb_prop in Hl as [Hll Hlocal]. apply String.eqb_eq in Hll.
      split.
      * split; [discriminate|]. intros Hall. rewrite (Hall x Hin) in Hp. done.
      * intros v [= <-]. rewrite Hll. repeat split; done.
    + split.
      * split; [discriminate|]. intros Hall. rewrite (Hall x Hin) in Hp. done.
      * intros v [= <-]. repeat split; try done.
        intros (w & Hw & Hwl & Hlocal).
        pose proof (find_none _ _ Hl w Hw) as Hn. simpl in Hn.
        rewrite Hwl, String.eqb_refl, Hlocal in Hn. done.
  - split; [split; [intros _; exact Hpick|done]|discriminate].
Qed.

(** A remote exact match gives way to the local voice of the same tag. *)
Lemma best_voice_witness :
  let voices := [ mkVoice "Remote UK" "en-GB" false; mkVoice "Remote US" "en-US" false;
                  mkVoice "Local US" "en-US" true ] in
  exists v,
    getBestVoiceForLanguage voices "en-US" = Some v
    /\ lang v = "en-US" /\ localService v = true.
Proof.
  intros voices. exists (mkVoice "Local US" "en-US" true).
  split; [reflexivity|].
  destruct (proj2 (best_voice voices "en-US") (mkVoice "Local US" "en-US" true) eq_refl)
    as (_ & _ & Hexact & Hlocal).
  split.
  - apply Hexact. exists (mkVoice "Remote US" "en-US" false). split; [|done].
    simpl. auto.
  - apply Hlocal. exists (mkVoice "Local US" "en-US" true). repeat split. simpl. auto.
Defined.

End SpeechSynthesisMore.

(** * Further properties of EventEmitter *)

Module EventEmitterMore.
Import EventEmitter EventEmitterFacts.
Local Open Scope list_scope.
Local Open Scope nat_scope.

(** ** Removing listeners *)

Lemma indexOf_none (cb : nat) (callbacks : list listener) :
  Forall (fun l => callback l <> cb) callbacks -> indexOf cb callbacks = None.
Proof.
  induction 1 as [|l ls Hl _ IH]; simpl; [done|].
  destruct (Nat.eqb_spec (callback l) cb); [done|]. by rewrite IH.
Qed.

Lemma indexOf_first (cb : nat) (before : list listener) (x : listener) (after : list listener) :
  Forall (fun l => callback l <> cb) before ->
  callback x = cb ->
  indexOf cb (before ++ x :: after) = Some (length before).
Proof.
  intros Hb Hx. induction Hb as [|l ls Hl _ IH]; simpl.
  - by rewrite Hx, Nat.eqb_refl.
  - destruct (Nat.eqb_spec (callback l) cb); [done|]. by rewrite IH.
Qed.

Lemma splice_out_middle {A} (before : list A) (x : A) (after : list A) :
  splice_out (length before) (before ++ x :: after) = before ++ after.
Proof. induction before as [|y before IH]; simpl; [done|]. by rewrite IH. Qed.

(** X13.  [off] takes away the oldest registration of the callback and nothing
    else: later registrations of the same callback stay, the other
    listeners keep their order, and the other events are untouched.  When
    the callback is not registered for the event, [off] does nothing. *)
Theorem off_removes_oldest (e : t) (event : string) (cb : nat) :
  (forall before x after,
     events e !! event = Some (before ++ x :: after) ->
     Forall (fun l => callback l <> cb) before ->
     callback x = cb ->
     events (off e event cb) !! event = Some (before ++ after)
     /\ listenerCount (off e event cb) event = listenerCount e event - 1
     /\ forall event', event' <> event ->
          events (off e event cb) !! event' = events e !! event')
  /\ (Forall (fun l => callback l <> cb) (arr e event) -> off e event cb = e).
Proof.
  split.
  - intros before x after He Hb Hx. unfold off, listenerCount. rewrite He.
    rewrite (indexOf_first cb before x after Hb Hx), splice_out_middle. simpl.
    rewrite lookup_insert_eq. repeat split.
    + rewrite !length_app. simpl. lia.
    + intros event' Hne. by rewrite lookup_insert_ne.
  - intros Hnone. unfold off.
    destruct (events e !! event) as [callbacks|]; [|done].
    simpl in Hnone. by rewrite (indexOf_none cb callbacks Hnone).
Qed.

Lemma off_removes_oldest_witness :
  let e := on (on (on create "ready" 7) "ready" 8) "ready" 7 in
  events (off e "ready" 7) !! "ready" = Some [mkListener 1 8; mkListener 2 7].
Proof.
  intros e.
  apply (proj1 (off_removes_oldest e "ready" 7) [] (mkListener 0 7)
           [mkListener 1 8; mkListener 2 7]).
  - vm_compute. reflexivity.
  - constructor.
  - reflexivity.
Defined.

(** X14.  [on] followed by [off] for a callback that was not registered for the
    event gives back the listeners that the event had, but not always the
    emitter: an event that was unknown is now known, with no listener. *)
Theorem on_then_off (e : t) (event : string) (cb : nat) :
  Forall (fun l => callback l <> cb) (arr e event) ->
  events (off (on e event cb) event cb) !! event = Some (arr e event)
  /\ listenerCount (off (on e event cb) event cb) event = listenerCount e event
  /\ forall event', event' <> event ->
       events (off (on e event cb) event cb) !! event' = events e !! event'.
Proof.
  intros Hnone.
  assert (events (on e event cb) !! event
          = Some (arr e event ++ mkListener (clock e) cb :: [])) as Hon.
  { unfold on; simpl. by rewrite lookup_insert_eq. }
  unfold off. rewrite Hon.
  rewrite (indexOf_first cb (arr e event) (mkListener (clock e) cb) [] Hnone eq_refl).
  rewrite splice_out_middle, app_nil_r. simpl. rewrite lookup_insert_eq.
  unfold listenerCount. simpl. rewrite lookup_insert_eq. repeat split.
  - by destruct (events e !! event).
  - intros event' Hne. rewrite lookup_insert_ne by done.
    unfold on; simpl. by rewrite lookup_insert_ne.
Qed.

Lemma on_then_off_witness :
  events (off (on create "ready" 7) "ready" 7) !! "ready" = Some []
  /\ events create !! "ready" = None.
Proof.
  split; [|reflexivity].
  apply (on_then_off create "ready" 7). constructor.
Defined.

(** ** Listeners installed by [once] *)

(** Past the end of the array the loop has nothing left to call. *)
Lemma forEach_beyond code event remaining : forall k e inv lg,
  length (arr e event) <= k ->
  forEach code event remaining k e inv lg = mkEmitted e inv lg Normal.
Proof.
  induction remaining as [|remaining IH]; intros k e inv lg Hk; simpl; [done|].
  rewrite (proj2 (lookup_ge_None _ _) Hk). apply IH. lia.
Qed.

(** A stretch of listeners whose callbacks leave the emitter alone is
    called in order. *)
Lemma forEach_stretch code event e (mid : list listener) : forall before after remaining inv lg,
  arr e event = before ++ mid ++ after ->
  Forall (fun l => actions (code (callback l) e) = []) mid ->
  exists lg',
    forEach code event (length mid + remaining) (length before) e inv lg
    = forEach code event remaining (length before + length mid) e (inv ++ mid) lg'.
Proof.
  induction mid as [|x mid IH]; intros before after remaining inv lg Harr Hsilent.
  - exists lg. simpl. by rewrite Nat.add_0_r, app_nil_r.
  - apply Forall_cons in Hsilent as [Hx Hsilent]. simpl.
    assert (arr e event !! length before = Some x) as Hk.
    { rewrite Harr. by rewrite lookup_app_r, Nat.sub_diag by lia. }
    rewrite Hk, tryCatch_call, Hx. simpl.
    destruct (IH (before ++ [x]) after remaining (inv ++ [x])
                (if throws (code (callback x) e) then lg ++ [x] else lg))
      as (lg' & Hrun); [by rewrite Harr, <- app_assoc|done|].
    exists lg'. rewrite length_app in Hrun. simpl in Hrun.
    rewrite Nat.add_1_r in Hrun. rewrite Hrun.
    by rewrite <- app_assoc, <- Nat.add_succ_comm.
Qed.

(** X15.  An event whose listeners are [before], then the wrapper of a [once]
    listener, then [after], all other callbacks leaving the emitter alone.
    [emit] calls the listeners of [before] and the wrapper, which takes
    itself off the event; the listener that was registered right after the
    wrapper is then passed over in this [emit], and the rest of [after] is
    called.  Afterwards the event has the listeners of [before] and
    [after]. *)
Theorem once_listener (e : t) (event : string) (wrapper : nat) (throwers : nat -> bool)
    (before : list listener) (w : listener) (after : list listener) :
  events e !! event = Some (before ++ w :: after) ->
  callback w = wrapper ->
  Forall (fun l => callback l <> wrapper) before ->
  Forall (fun l => callback l <> wrapper) after ->
  let r := emit (withOnce event wrapper false throwers) e event in
  invoked r = before ++ w :: drop 1 after
  /\ events (final r) !! event = Some (before ++ after)
  /\ result r = Normal.
Proof.
  intros He Hw Hb Ha r. subst r.
  set (code := withOnce event wrapper false throwers).
  assert (forall (e0 : t) ls, Forall (fun l => callback l <> wrapper) ls ->
            Forall (fun l => actions (code (callback l) e0) = []) ls) as Hsilent.
  { intros e0 ls Hls. eapply Forall_impl; [exact Hls|]. simpl. intros l Hl.
    unfold code, withOnce. by destruct (Nat.eqb_spec (callback l) wrapper). }
  unfold emit. rewrite He. rewrite length_app. simpl.
  destruct (forEach_stretch code event e before [] (w :: after) (S (length after)) [] [])
    as (lg1 & Hrun1); [by rewrite He|by apply Hsilent|].
  simpl in Hrun1. rewrite Hrun1. clear Hrun1. simpl.
  assert (arr e event !! length before = Some w) as Hk.
  { rewrite He. simpl. by rewrite lookup_app_r, Nat.sub_diag by lia. }
  rewrite Hk, tryCatch_call.
  assert (code (callback w) e = mkBehaviour [Unsubscribe event wrapper] false) as Hcode.
  { unfold code, withOnce, onceCallback. by rewrite Hw, Nat.eqb_refl. }
  rewrite Hcode. simpl.
  set (e' := off e event wrapper).
  assert (events e' !! event = Some (before ++ after)) as He'.
  { subst e'. unfold off. rewrite He, (indexOf_first wrapper before w after Hb Hw).
    rewrite splice_out_middle. simpl. by rewrite lookup_insert_eq. }
  destruct after as [|x after].
  - simpl. rewrite He'. done.
  - apply Forall_cons in Ha as [Hx Ha].
    destruct (forEach_stretch code event e' after (before ++ [x]) [] 1 (before ++ [w]) lg1)
      as (lg2 & Hrun2);
      [by rewrite He', app_nil_r, <- app_assoc|by apply Hsilent|].
    replace (length (x :: after)) with (length after + 1) by (simpl; lia).
    replace (S (length before)) with (length (before ++ [x]))
      by (rewrite length_app; simpl; lia).
    rewrite Hrun2, forEach_beyond
      by (rewrite He'; simpl; rewrite !length_app; simpl; lia).
    simpl. rewrite He', <- !app_assoc. simpl. done.
Qed.

Lemma once_listener_witness :
  let e := on (on (on (on create "ready" 1) "ready" 2) "ready" 3) "ready" 4 in
  let r := emit (withOnce "ready" 2 false (fun _ => false)) e "ready" in
  invoked r = [mkListener 0 1; mkListener 1 2; mkListener 3 4]
  /\ events (final r) !! "ready" = Some [mkListener 0 1; mkListener 2 3; mkListener 3 4]
  /\ result r = Normal.
Proof.
  intros e.
  apply (once_listener e "ready" 2 (fun _ => false) [mkListener 0 1] (mkListener 1 2)
           [mkListener 2 3; mkListener 3 4]).
  - vm_compute. reflexivity.
  - reflexivity.
  - repeat constructor; simpl; lia.
  - repeat constructor; simpl; lia.
Defined.

(** X16.  When the callback of a [once] listener throws, the wrapper does not
    reach its call of [off]: [emit] logs the error, calls every listener of
    the event, and leaves the emitter as it was, the wrapper still
    registered. *)
Theorem once_listener_that_throws (e : t) (event : string) (wrapper : nat)
    (throwers : nat -> bool) (callbacks : list listener) :
  events e !! event = Some callbacks ->
  let r := emit (withOnce event wrapper true throwers) e event in
  final r = e /\ invoked r = callbacks /\ result r = Normal.
Proof.
  intros He r. subst r. unfold emit. rewrite He.
  destruct (forEach_stretch (withOnce event wrapper true throwers) event e callbacks
              [] [] 0 [] []) as (lg & Hrun).
  - by rewrite He, app_nil_r.
  - apply Forall_forall. intros l _. unfold withOnce, onceCallback.
    by destruct (callback l =? wrapper).
  - rewrite Nat.add_0_r in Hrun. simpl in Hrun. rewrite Hrun. done.
Qed.

Lemma once_listener_that_throws_witness :
  let e := on (on create "ready" 1) "ready" 2 in
  let r := emit (withOnce "ready" 1 true (fun _ => false)) e "ready" in
  final r = e /\ invoked r = [mkListener 0 1; mkListener 1 2] /\ result r = Normal.
Proof.
  intros e.
  apply (once_listener_that_throws e "ready" 1 (fun _ => false)
           [mkListener 0 1; mkListener 1 2]).
  vm_compute. reflexivity.
Defined.

(** [on] never looks for the callback among the listeners: every call adds
    a registration at the end, and a callback registered twice is called
    twice by [emit]. *)
Theorem on_registers_each_time (e : t) (event : string) (cb : nat) (throwers : nat -> bool) :
  let e1 := on e event cb in
  let e2 := on e1 event cb in
  events e1 !! event = Some (arr e event ++ [mkListener (clock e) cb])
  /\ listenerCount e1 event = S (listenerCount e event)
  /\ invoked (emit (fun c _ => mkBehaviour [] (throwers c)) e2 event)
     = arr e event ++ [mkListener (clock e) cb; mkListener (S (clock e)) cb].
Proof.
  cbv zeta.
  assert (forall e0, events (on e0 event cb) !! event
                     = Some (arr e0 event ++ [mkListener (clock e0) cb])) as Hon.
  { intros e0. unfold on; simpl. by rewrite lookup_insert_eq. }
  split; [apply Hon|]. split.
  - unfold listenerCount. rewrite Hon, length_app. simpl.
    destruct (events e !! event); simpl; lia.
  - set (e2 := on (on e event cb) event cb).
    set (cbs := (arr e event ++ [mkListener (clock e) cb]) ++ [mkListener (S (clock e)) cb]).
    assert (events e2 !! event = Some cbs) as Hcbs.
    { subst e2 cbs. rewrite Hon, Hon. reflexivity. }
    unfold emit. rewrite Hcbs.
    destruct (forEach_silent throwers event (length cbs) 0 e2 [] []) as (_ & Hi & _);
      [rewrite Hcbs; simpl; lia|].
    rewrite Hi, Hcbs. subst cbs. simpl. by rewrite <- app_assoc.
Qed.

End EventEmitterMore.

(** * Further properties of ConfigManager *)

Module ConfigManagerMore.
Import ConfigManager ConfigManagerFacts.
Local Open Scope list_scope.

(** ** The merge, key by key *)

Lemma lookup_assign_same fields key x : lookup_field key (assign fields key x) = Some x.
Proof.
  induction fields as [|[k' x'] fields IH]; simpl.
  - by rewrite String.eqb_refl.
  - destruct (String.eqb_spec key k') as [->|Hne]; simpl.
    + by rewrite String.eqb_refl.
    + destruct (String.eqb_spec key k'); [done|exact IH].
Qed.

Lemma lookup_assign_other fields key key' x :
  key' <> key -> lookup_field key' (assign fields key x) = lookup_field key' fields.
Proof.
  intros Hne. induction fields as [|[k x'] fields IH]; simpl.
  - by destruct (String.eqb_spec key' key).
  - destruct (String.eqb_spec key k) as [->|Hk]; simpl.
    + by destruct (String.eqb_spec key' k).
    + by rewrite IH.
Qed.

(** The loop of [deepMerge], seen from one key. *)
Lemma merge_loop_lookup (target : jsval) (source : list (string * jsval)) :
  forall result key,
    lookup_field key
      (fold_left
         (fun result kv =>
            assign result (fst kv) (mergeValue (get_prop target (fst kv)) (snd kv)))
         source result)
    = match lookup_field key (rev source) with
      | Some x => Some (mergeValue (get_prop target key) x)
      | None => lookup_field key result
      end.
Proof.
  induction source as [|[k x] source IH] using rev_ind; intros result key; [done|].
  rewrite fold_left_app, rev_app_distr. simpl.
  destruct (String.eqb_spec key k) as [->|Hne].
  - apply lookup_assign_same.
  - rewrite lookup_assign_other by done. apply IH.
Qed.

Lemma lookup_field_rev fields key :
  distinct (map fst fields) = true ->
  lookup_field key (rev fields) = lookup_field key fields.
Proof.
  intros Hd.
  destruct (lookup_field key fields) as [x|] eqn:Hx.
  - apply lookup_field_In.
    + clear Hx. induction fields as [|[k y] fields IH]; [done|].
      simpl in *. apply andb_prop in Hd as [Hk Hd].
      rewrite map_app. simpl.
      assert (forall l1 l2, distinct l1 = true -> ~ In k l1 -> l2 = [k] ->
                distinct (l1 ++ l2) = true) as Happ.
      { intros l1 l2 H1 Hk1 ->. induction l1 as [|a l1 IH1]; simpl in *; [done|].
        apply andb_prop in H1 as [Ha H1].
        rewrite IH1 by tauto. rewrite andb_true_r.
        apply negb_true_iff. apply negb_true_iff in Ha.
        rewrite existsb_app, Ha. simpl. rewrite orb_false_r.
        destruct (String.eqb_spec a k); [|done]. subst. tauto. }
      apply Happ; [rewrite map_rev in *; by apply IH| |done].
      intros Hin. apply in_map_iff in Hin as ([k' y'] & Hk' & Hin). simpl in Hk'. subst k'.
      apply in_rev in Hin. apply negb_true_iff in Hk.
      assert (existsb (String.eqb k) (map fst fields) = true) as Hex; [|congruence].
      apply existsb_exists. exists k. split; [|apply String.eqb_refl].
      apply in_map_iff. by exists (k, y').
    + apply in_rev. rewrite rev_involutive.
      clear Hd. induction fields as [|[k y] fields IH]; simpl in *; [done|].
      destruct (String.eqb_spec key k) as [->|Hne].
      * injection Hx as ->. by left.
      * right. by apply IH.
  - destruct (lookup_field key (rev fields)) as [y|] eqn:Hy; [|done].
    exfalso.
    assert (forall fs k v, lookup_field k fs = Some v -> In (k, v) fs) as Hin.
    { intros fs k v. induction fs as [|[k' y'] fs IH]; simpl; [done|].
      destruct (String.eqb_spec k k') as [->|Hne].
      - intros [= ->]. by left.
      - intros H. right. by apply IH. }
    apply Hin in Hy. apply in_rev in Hy.
    rewrite (lookup_field_In fields key y Hd Hy) in Hx. done.
Qed.

(** X17.  [deepMerge(target, source)], key by key, for plain objects and
    ordinary keys: [source] is an object with distinct keys, none of its
    keys (at any depth that the merge descends to) is a property name of
    [Object.prototype] such as __proto__ or toString, and [target] holds a
    plain object or a falsy value wherever [source] holds an object.  A key
    that [source] does not have keeps the value it has in [target].  A key
    that [source] has gets the value of [source], unless that value is an
    object: then it gets the merge of that object into the value of
    [target], or into an empty object when [target] has nothing truthy
    there.  So arrays and other values replace, objects merge, and no key of
    [target] is lost. *)
Theorem deepMerge_by_key (target : jsval) (fields : list (string * jsval)) (key : string) :
  distinct (map fst fields) = true ->
  plain_merge target (JObj fields) = true ->
  lookup_field key (own_fields (deepMerge target (JObj fields)))
  = match lookup_field key fields with
    | Some (JObj inner) => Some (deepMerge (or_empty (get_prop target key)) (JObj inner))
    | Some x => Some x
    | None => lookup_field key (own_fields target)
    end.
Proof.
  intros Hd _. unfold deepMerge at 1. cbn [own_fields].
  rewrite merge_loop_lookup, lookup_field_rev by done.
  destruct (lookup_field key fields) as [x|]; [|done].
  by destruct x.
Qed.

Lemma deepMerge_by_key_witness :
  lookup_field "speechSynthesis"
    (own_fields (deepMerge defaultConfig
                   (JObj [("logLevel", JStr "DEBUG");
                          ("speechSynthesis", JObj [("rate", q 2 1)])])))
  = Some (deepMerge (or_empty (get_prop defaultConfig "speechSynthesis"))
                    (JObj [("rate", q 2 1)])).
Proof.
  apply (deepMerge_by_key defaultConfig
           [("logLevel", JStr "DEBUG"); ("speechSynthesis", JObj [("rate", q 2 1)])]
           "speechSynthesis").
  - reflexivity.
  - reflexivity.
Defined.

(** ** Merging twice *)

Lemma merge_loop_fixed (target : jsval) (result : list (string * jsval)) :
  forall visited,
    (forall kv, In kv visited ->
       lookup_field (fst kv) result
       = Some (mergeValue (get_prop target (fst kv)) (snd kv))) ->
    merge_loop target visited result = result.
Proof.
  induction visited as [|[k x] visited IH]; intros Hv; simpl; [reflexivity|].
  rewrite assign_same by (apply (Hv (k, x)); by left).
  apply IH. intros kv Hkv. apply Hv. by right.
Qed.

Lemma merge_loop_twice (target : jsval) (fields : list (string * jsval)) :
  distinct (map fst fields) = true ->
  Forall (fun kv => forall a, mergeValue (mergeValue a (snd kv)) (snd kv)
                              = mergeValue a (snd kv)) fields ->
  let r := merge_loop target fields (own_fields target) in
  merge_loop (JObj r) fields r = r.
Proof.
  intros Hd IH r. apply merge_loop_fixed.
  intros [k x] Hin. simpl.
  assert (lookup_field k r = Some (mergeValue (get_prop target k) x)) as Hk.
  { subst r. rewrite merge_loop_lookup, lookup_field_rev by done.
    by rewrite (lookup_field_In fields k x Hd Hin). }
  assert (get_prop (JObj r) k = mergeValue (get_prop target k) x) as Hg.
  { unfold get_prop. cbn [own_fields]. by rewrite Hk. }
  rewrite Hk, Hg. f_equal.
  rewrite List.Forall_forall in IH. symmetry. apply (IH (k, x) Hin).
Qed.

Lemma mergeValue_twice (x : jsval) :
  well_formed x = true ->
  forall a, mergeValue (mergeValue a x) x = mergeValue a x.
Proof.
  induction x as [| |b|n|s|items IH|fields IH] using jsval_nested_ind; intros Hwf a;
    try reflexivity.
  simpl in Hwf. apply andb_prop in Hwf as [Hd Hwf].
  cbn [mergeValue]. unfold or_empty at 1. cbn [truthy own_fields]. f_equal.
  apply merge_loop_twice; [exact Hd|].
  rewrite List.Forall_forall in *. intros kv Hin. apply (IH kv Hin).
  rewrite forallb_forall in Hwf. by apply Hwf.
Qed.

(** X18.  Merging the same object a second time changes nothing: for an object
    [source] with distinct keys at every level and any [target],
    [deepMerge(deepMerge(target, source), source)] is
    [deepMerge(target, source)]; so calling [update] twice with the same
    argument is the same as calling it once. *)
Theorem update_twice (config : jsval) (fields : list (string * jsval)) :
  well_formed (JObj fields) = true ->
  update (update config (JObj fields)) (JObj fields) = update config (JObj fields).
Proof.
  intros Hwf. pose proof (mergeValue_twice (JObj fields) Hwf) as H.
  simpl in Hwf. apply andb_prop in Hwf as [Hd Hwf].
  unfold update, deepMerge. cbn [own_fields]. f_equal.
  apply merge_loop_twice; [exact Hd|].
  rewrite List.Forall_forall. intros kv Hin a. apply mergeValue_twice.
  rewrite forallb_forall in Hwf. by apply Hwf.
Qed.

Lemma update_twice_witness :
  let patch := JObj [ ("speechSynthesis", JObj [("rate", q 2 1)]); ("tags", JArr [JNull]) ] in
  update (update defaultConfig patch) patch = update defaultConfig patch.
Proof.
  apply (update_twice defaultConfig
           [ ("speechSynthesis", JObj [("rate", q 2 1)]); ("tags", JArr [JNull]) ]).
  reflexivity.
Defined.

End ConfigManagerMore.

(** * Further properties of LanguageProcessing *)

Module LanguageProcessingMore.
Import Regex LanguageProcessing.
Local Open Scope list_scope.

(** ** What a match consumes *)

Lemma run_consumes {R : Type} (icase : bool) (r : regex) :
  forall (prev : option ascii) (s : list ascii)
         (k : option ascii -> list ascii -> option R) (x : R),
    run icase r prev s k = Some x ->
    exists prev' s',
      k prev' s' = Some x /\ (length s' + min_len r <= length s)%nat.
Proof.
  assert (forall (p : ascii -> bool) s (k : option ascii -> list ascii -> option R) x,
             one_char p s k = Some x ->
             exists prev' s', k prev' s' = Some x /\ (length s' + 1 <= length s)%nat)
    as Hone.
  { intros p [|c s'] k x H; simpl in H; [discriminate|].
    destruct (p c); [|discriminate]. exists (Some c), s'. split; [exact H|simpl; lia]. }
  induction r as [| c | | | | | r1 IH1 r2 IH2 | r1 IH1 r2 IH2 | r' IH];
    intros prev s k x H; [simpl in H .. | ].
  - exists prev, s. split; [exact H|simpl; lia].
  - by apply Hone in H.
  - by apply Hone in H.
  - by apply Hone in H.
  - by apply Hone in H.
  - destruct (xorb _ _); [|discriminate]. exists prev, s. split; [exact H|simpl; lia].
  - apply IH1 in H as (prev1 & s1 & H & Hlen1).
    apply IH2 in H as (prev2 & s2 & H & Hlen2).
    exists prev2, s2. split; [exact H|simpl; lia].
  - destruct (run icase r1 prev s k) as [y|] eqn:H1.
    + injection H as ->. apply IH1 in H1 as (prev1 & s1 & H1 & Hlen).
      exists prev1, s1. split; [exact H1|simpl; lia].
    + apply IH2 in H as (prev2 & s2 & H & Hlen).
      exists prev2, s2. split; [exact H|simpl; lia].
  - change (run icase (Star r') prev s k) with
      ((fix iterate (fuel : nat) (prev : option ascii) (s : list ascii) {struct fuel}
          : option R :=
          match fuel with
          | O => k prev s
          | S fuel' =>
              match run icase r' prev s
                      (fun prev' s' =>
                         if (length s' <? length s)%nat then iterate fuel' prev' s'
                         else None) with
              | Some x => Some x
              | None => k prev s
              end
          end) (S (length s)) prev s) in H.
    revert H. generalize (S (length s)) as fuel. intros fuel. revert prev s.
    induction fuel as [|fuel IHfuel]; intros prev s H.
    + exists prev, s. split; [exact H|simpl; lia].
    + match type of H with
      | match ?m with _ => _ end = _ => destruct m as [y|] eqn:Hrun
      end.
      * injection H as ->. apply IH in Hrun as (prev1 & s1 & Hrun & Hlen).
        destruct (length s1 <? length s)%nat eqn:Hlt; [|discriminate].
        apply IHfuel in Hrun as (prev2 & s2 & Hk & Hlen2).
        exists prev2, s2. split; [exact Hk|]. simpl in *. lia.
      * exists prev, s. split; [exact H|simpl; lia].
Qed.

Lemma match_here_length (icase : bool) (r : regex) (prev : option ascii) (s : list ascii)
    (len : nat) :
  match_here icase r prev s = Some len ->
  (min_len r <= len <= length s)%nat.
Proof.
  unfold match_here. intros H.
  apply run_consumes in H as (prev' & s' & H & Hlen). injection H as <-. lia.
Qed.

Lemma search_span (icase : bool) (r : regex) (s : list ascii) :
  forall (prev : option ascii) (i len : nat),
    search icase r prev s = Some (i, len) ->
    (min_len r <= len)%nat /\ (i + len <= length s)%nat.
Proof.
  induction s as [|c s IH]; intros prev i len H; simpl in H.
  - destruct (match_here icase r prev []) as [n|] eqn:Hm; [|discriminate].
    injection H as <- <-. apply match_here_length in Hm. simpl in *. lia.
  - destruct (match_here icase r prev (c :: s)) as [n|] eqn:Hm.
    + injection H as <- <-. apply match_here_length in Hm. simpl in *. lia.
    + destruct (search icase r (Some c) s) as [[j n]|] eqn:Hs; [|discriminate].
      injection H as <- <-. apply IH in Hs. simpl. lia.
Qed.

Lemma advance_rest (n : nat) : forall (prev : option ascii) (s : list ascii),
  snd (advance n prev s) = skipn n s.
Proof.
  induction n as [|n IH]; intros prev [|c s]; simpl; try reflexivity. apply IH.
Qed.

(** ** The matches of a global pattern *)

Lemma exec_loop_matches (p : RegExp) (text : list ascii) (fuel : nat) :
  forall (pos : nat) (prev : option ascii) (ms : list (nat * list ascii)),
    (pos <= length text)%nat ->
    exec_loop fuel p pos prev (skipn pos text) = Some ms ->
    ordered_from pos ms
    /\ Forall (fun m => (0 < length (snd m))%nat
                        /\ (fst m + length (snd m) <= length text)%nat
                        /\ snd m = firstn (length (snd m)) (skipn (fst m) text)) ms.
Proof.
  induction fuel as [|fuel IH]; intros pos prev ms Hpos H; simpl in H; [discriminate|].
  destruct (search (ignoreCase p) (source p) prev (skipn pos text)) as [[i len]|] eqn:Hs.
  2:{ injection H as <-. split; [exact I|constructor]. }
  apply search_span in Hs as [_ Hspan]. rewrite length_skipn in Hspan.
  destruct len as [|len]; [discriminate|].
  destruct (advance (i + S len) prev (skipn pos text)) as [prev' s'] eqn:Ha.
  assert (s' = skipn (pos + i + S len) text) as ->.
  { pose proof (advance_rest (i + S len) prev (skipn pos text)) as Hr.
    rewrite Ha in Hr. simpl in Hr. rewrite Hr, skipn_skipn. f_equal. lia. }
  destruct (exec_loop fuel p (pos + i + S len) prev' _) as [ms'|] eqn:Hl; [|discriminate].
  injection H as <-.
  apply IH in Hl as [Ho Hf]; [|lia].
  assert (length (firstn (S len) (skipn i (skipn pos text))) = S len) as Hlen.
  { rewrite length_firstn, !length_skipn. lia. }
  split.
  - cbn [ordered_from fst snd]. rewrite Hlen. split; [lia|].
    exact Ho.
  - constructor; [|exact Hf]. cbn [fst snd]. rewrite Hlen.
    split; [lia|]. split; [lia|]. rewrite skipn_skipn. f_equal. f_equal. lia.
Qed.

Lemma exec_loop_ends (p : RegExp) (fuel : nat) :
  forall (pos : nat) (prev : option ascii) (s : list ascii),
    (1 <= min_len (source p))%nat ->
    (length s < fuel)%nat ->
    exists ms, exec_loop fuel p pos prev s = Some ms.
Proof.
  induction fuel as [|fuel IH]; intros pos prev s Hmin Hfuel; [lia|]. simpl.
  destruct (search (ignoreCase p) (source p) prev s) as [[i len]|] eqn:Hs; [|by eexists].
  apply search_span in Hs as [Hlen Hspan].
  destruct len as [|len]; [lia|].
  destruct (advance (i + S len) prev s) as [prev' s'] eqn:Ha.
  assert (s' = skipn (i + S len) s) as ->.
  { pose proof (advance_rest (i + S len) prev s) as Hr. by rewrite Ha in Hr. }
  destruct (IH (pos + i + S len)%nat prev' (skipn (i + S len) s) Hmin) as [ms ->].
  - rewrite length_skipn. lia.
  - by eexists.
Qed.

(** The matches that [regex.exec] reports for one pattern lie from left to
    right without overlap, none is empty, and each is the text found at its
    index. *)
Theorem exec_all_spans (p : RegExp) (text : list ascii) (ms : list (nat * list ascii)) :
  exec_all p text = Some ms ->
  ordered_from 0 ms
  /\ Forall (fun m => (0 < length (snd m))%nat
                      /\ (fst m + length (snd m) <= length text)%nat
                      /\ snd m = substring (fst m) (fst m + length (snd m)) text) ms.
Proof.
  unfold exec_all. intros H.
  apply (exec_loop_matches p text _ 0 None ms) in H; [|lia].
  destruct H as [Ho Hf]. split; [exact Ho|].
  eapply Forall_impl; [exact Hf|]. intros m (H1 & H2 & H3). unfold substring.
  repeat split; [exact H1|exact H2|].
  by replace (fst m + length (snd m) - fst m)%nat with (length (snd m)) by lia.
Qed.

Lemma exec_all_spans_witness :
  ordered_from 0 [(12, list_ascii_of_string "living room"); (28, list_ascii_of_string "kitchen")]%nat.
Proof.
  apply (exec_all_spans room_pattern
           (list_ascii_of_string "turn on the living room and kitchen lights")).
  vm_compute. reflexivity.
Defined.
(** ** The entities of a command *)

(** X19.  Every entity that [extractEntities] reports spans a non-empty part of the
    text, carries the normalised text of that part as its value, has a type
    of the table and the confidence 0.9. *)
Theorem entities_point_at_text (lp : t) (text : list ascii) (es : list Entity) :
  extractEntities lp text = Some es ->
  Forall (fun e =>
            (start e < end_ e <= length text)%nat
            /\ value e = normalizeEntityValue (substring (start e) (end_ e) text) (type e)
            /\ In (type e) (map fst (entityPatterns lp))
            /\ e_confidence e = (9 # 10)%Q) es.
Proof.
  unfold extractEntities. revert es.
  induction (entityPatterns lp) as [|[entityType pattern] patterns IH]; intros es H;
    simpl in H.
  - injection H as <-. constructor.
  - destruct (exec_all pattern text) as [ms|] eqn:Hms; [|discriminate].
    destruct (extractEntitiesFrom patterns text) as [es'|]; [|discriminate].
    injection H as <-. apply Forall_app. split.
    + apply exec_all_spans in Hms as [_ Hf].
      apply Forall_map. eapply Forall_impl; [exact Hf|].
      intros m (H1 & H2 & H3). cbn [start end_ value type e_confidence].
      split; [lia|]. split; [by rewrite <- H3|]. split; [by left|reflexivity].
    + eapply Forall_impl; [exact (IH es' eq_refl)|].
      intros e (H1 & H2 & H3 & H4).
      split; [exact H1|]. split; [exact H2|]. split; [by right|exact H4].
Qed.

Lemma entities_point_at_text_witness :
  Forall (fun e =>
            (start e < end_ e <= 30)%nat
            /\ value e = normalizeEntityValue
                           (substring (start e) (end_ e)
                              (list_ascii_of_string "turn on the living room lights"))
                           (type e)
            /\ In (type e) (map fst (entityPatterns initializePatterns))
            /\ e_confidence e = (9 # 10)%Q)
         [mkEntity "room" "living_room" 12 23 (9 # 10);
          mkEntity "action" "on" 5 7 (9 # 10)].
Proof.
  apply (entities_point_at_text initializePatterns
           (list_ascii_of_string "turn on the living room lights")).
  vm_compute. reflexivity.
Defined.

(** ** Termination of the entity loops *)

Lemma extractEntitiesFrom_ends (patterns : list (string * RegExp)) (text : list ascii) :
  forallb (fun entry : string * RegExp => (1 <=? min_len (source (snd entry)))%nat)
          patterns = true ->
  exists es, extractEntitiesFrom patterns text = Some es.
Proof.
  induction patterns as [|[entityType pattern] patterns IH]; intros H; simpl in *.
  - by eexists.
  - apply andb_prop in H as [Hp Hps].
    assert (1 <= min_len (source pattern))%nat as Hmin
      by (destruct (min_len (source pattern)); [discriminate|lia]).
    unfold exec_all.
    destruct (exec_loop_ends pattern (S (length text)) 0 None text Hmin) as [ms ->]; [lia|].
    destruct (IH Hps) as [es ->]. by eexists.
Qed.

(** X20.  With the pattern tables of [initializePatterns], [processCommand]
    returns a result for every command: none of the six entity patterns can
    match the empty string, so every loop over [regex.exec] ends.  The result
    carries the command as it was given, the entities that [extractEntities]
    finds in it, and the intent name and the confidence that [extractIntent]
    finds for the lower-cased, trimmed command. *)
Theorem processCommand_returns (command : string) :
  exists r,
    processCommand initializePatterns command = Some r
    /\ originalText r = command
    /\ extractEntities initializePatterns (list_ascii_of_string command) = Some (entities r)
    /\ intent r = name (extractIntent initializePatterns (normalize command))
    /\ (confidence r
        == i_confidence (extractIntent initializePatterns (normalize command)))%Q.
Proof.
  assert (consuming initializePatterns = true) as H by (vm_compute; reflexivity).
  unfold processCommand, extractEntities.
  destruct (extractEntitiesFrom_ends (entityPatterns initializePatterns)
              (list_ascii_of_string command) H) as [es ->].
  eexists. split; [reflexivity|]. cbn [originalText intent confidence entities].
  repeat split; reflexivity.
Qed.

(** ** The best match *)

Lemma calculatePatternConfidence_le_1 (m : nat * list ascii) (command : list ascii) (c : Q) :
  calculatePatternConfidence m command = Some c -> (c <= 1)%Q.
Proof.
  unfold calculatePatternConfidence.
  destruct (length command); [destruct (length (snd m)); [discriminate|]|].
  - intros [= <-]. apply Qle_refl.
  - match goal with
    | |- Some (if Qle_bool ?q 1 then _ else _) = _ -> _ => destruct (Qle_bool q 1) eqn:Hq
    end; intros [= <-]; [by apply Qle_bool_iff|apply Qle_refl].
Qed.

Lemma Qgtb_lt (a b : Q) : Qgtb a b = true -> (b < a)%Q.
Proof.
  unfold Qgtb. intros H. apply Qnot_le_lt. intros Hle.
  apply Qle_bool_iff in Hle. by rewrite Hle in H.
Qed.

Lemma Qgtb_le (a b : Q) : Qgtb a b = false -> (a <= b)%Q.
Proof.
  unfold Qgtb. intros H. apply Qle_bool_iff. by destruct (Qle_bool a b).
Qed.

Lemma attained_nonneg lp command i : attained lp command i -> (0 <= i_confidence i)%Q.
Proof.
  intros [->|(? & ? & ? & _ & _ & _ & _ & [H _] & _)]; [apply Qle_refl|by apply Qlt_le_weak].
Qed.

Lemma tryPattern_attained lp command intentName patterns pattern bestMatch :
  In (intentName, patterns) (intentPatterns lp) ->
  In pattern patterns ->
  attained lp command bestMatch ->
  attained lp command (tryPattern command intentName bestMatch pattern).
Proof.
  intros Hin Hp Hbest. unfold tryPattern.
  destruct (str_match pattern command) as [m|] eqn:Hm; [|exact Hbest].
  destruct (calculatePatternConfidence m command) as [c|] eqn:Hc; [|exact Hbest].
  destruct (Qgtb c (i_confidence bestMatch)) eqn:Hgt; [|exact Hbest].
  right. exists patterns, pattern, m. cbn [name i_confidence i_entities].
  repeat split; try done.
  - eapply Qle_lt_trans; [by eapply attained_nonneg|by apply Qgtb_lt].
  - by eapply calculatePatternConfidence_le_1.
Qed.

Lemma fold_tryPattern_attained lp command intentName patterns :
  In (intentName, patterns) (intentPatterns lp) ->
  forall ps bestMatch,
    (forall p, In p ps -> In p patterns) ->
    attained lp command bestMatch ->
    attained lp command (fold_left (tryPattern command intentName) ps bestMatch).
Proof.
  intros Hin. induction ps as [|p ps IH]; intros bestMatch Hps Hbest; simpl; [exact Hbest|].
  apply IH; [intros q Hq; apply Hps; by right|].
  apply (tryPattern_attained lp command intentName patterns); [exact Hin| |exact Hbest].
  apply Hps. by left.
Qed.

Lemma extractIntent_loop_attained lp command (table : list (string * list RegExp)) :
  forall bestMatch,
    (forall e, In e table -> In e (intentPatterns lp)) ->
    attained lp command bestMatch ->
    attained lp command
      (fold_left (fun bestMatch '(intentName, patterns) =>
                    fold_left (tryPattern command intentName) patterns bestMatch)
                 table bestMatch).
Proof.
  induction table as [|[intentName patterns] table IH]; intros bestMatch Hsub Hbest; simpl;
    [exact Hbest|].
  apply IH; [intros e He; apply Hsub; by right|].
  apply (fold_tryPattern_attained lp command intentName patterns); try done.
  apply Hsub. by left.
Qed.

(** X21.  [extractIntent] returns the unknown intent with confidence 0, or the name
    of an entry of the table together with the confidence of one of its
    patterns that matches the command, a number above 0 and at most 1. *)
Theorem extractIntent_attained (lp : t) (command : list ascii) :
  extractIntent lp command = mkIntent "unknown" 0 []
  \/ exists patterns pattern m,
       In (name (extractIntent lp command), patterns) (intentPatterns lp)
       /\ In pattern patterns
       /\ str_match pattern command = Some m
       /\ calculatePatternConfidence m command
          = Some (i_confidence (extractIntent lp command))
       /\ (0 < i_confidence (extractIntent lp command) <= 1)%Q
       /\ i_entities (extractIntent lp command) = [].
Proof.
  change (attained lp command (extractIntent lp command)). unfold extractIntent.
  apply extractIntent_loop_attained; [done|by left].
Qed.

Lemma tryPattern_grows command intentName bestMatch pattern :
  (i_confidence bestMatch <= i_confidence (tryPattern command intentName bestMatch pattern))%Q.
Proof.
  unfold tryPattern.
  destruct (str_match pattern command) as [m|]; [|apply Qle_refl].
  destruct (calculatePatternConfidence m command) as [c|]; [|apply Qle_refl].
  destruct (Qgtb c (i_confidence bestMatch)) eqn:Hgt; [|apply Qle_refl].
  cbn [i_confidence]. apply Qlt_le_weak. by apply Qgtb_lt.
Qed.

Lemma fold_tryPattern_grows command intentName patterns : forall bestMatch,
  (i_confidence bestMatch
   <= i_confidence (fold_left (tryPattern command intentName) patterns bestMatch))%Q.
Proof.
  induction patterns as [|p ps IH]; intros bestMatch; simpl; [apply Qle_refl|].
  eapply Qle_trans; [apply tryPattern_grows|apply IH].
Qed.

Lemma extractIntent_loop_grows command (table : list (string * list RegExp)) :
  forall bestMatch,
    (i_confidence bestMatch
     <= i_confidence
          (fold_left (fun bestMatch '(intentName, patterns) =>
                        fold_left (tryPattern command intentName) patterns bestMatch)
                     table bestMatch))%Q.
Proof.
  induction table as [|[intentName patterns] table IH]; intros bestMatch; simpl;
    [apply Qle_refl|].
  eapply Qle_trans; [apply fold_tryPattern_grows|apply IH].
Qed.

Lemma tryPattern_covers command intentName bestMatch pattern m c :
  str_match pattern command = Some m ->
  calculatePatternConfidence m command = Some c ->
  (c <= i_confidence (tryPattern command intentName bestMatch pattern))%Q.
Proof.
  intros Hm Hc. unfold tryPattern. rewrite Hm, Hc.
  destruct (Qgtb c (i_confidence bestMatch)) eqn:Hgt; [apply Qle_refl|by apply Qgtb_le].
Qed.

(** X22.  No pattern of the table matches the command with a confidence above the
    one that [extractIntent] returns. *)
Theorem extractIntent_best (lp : t) (command : list ascii) (intentName : string)
    (patterns : list RegExp) (pattern : RegExp) (m : nat * list ascii) (c : Q) :
  In (intentName, patterns) (intentPatterns lp) ->
  In pattern patterns ->
  str_match pattern command = Some m ->
  calculatePatternConfidence m command = Some c ->
  (c <= i_confidence (extractIntent lp command))%Q.
Proof.
  intros Hin Hp Hm Hc. unfold extractIntent.
  apply in_split in Hin as (t1 & t2 & ->). apply in_split in Hp as (p1 & p2 & ->).
  rewrite fold_left_app. cbn [fold_left]. rewrite fold_left_app. cbn [fold_left].
  eapply Qle_trans; [|apply extractIntent_loop_grows].
  eapply Qle_trans; [|apply fold_tryPattern_grows].
  by eapply tryPattern_covers.
Qed.

Lemma extractIntent_best_witness :
  ((14 # 14) * (8 # 10) + (1 # 10)
   <= i_confidence (extractIntent initializePatterns
                      (list_ascii_of_string "stop the music")))%Q.
Proof.
  apply (extractIntent_best initializePatterns (list_ascii_of_string "stop the music")
           "device_control" device_control_patterns
           (ri (seq [words "start" ["stop"]; sp; the_; rest]))
           (0%nat, list_ascii_of_string "stop the music")).
  - left. reflexivity.
  - do 4 right. left. reflexivity.
  - vm_compute. reflexivity.
  - vm_compute. reflexivity.
Defined.

End LanguageProcessingMore.

(** * Properties of ConfigManager on a heap *)

Module ConfigHeapFacts.
Import ConfigManager ConfigHeap.
Local Open Scope list_scope.
Local Open Scope nat_scope.

(** ** Reading *)

Lemma split_path_nonempty (path : string) : split_path path <> [].
Proof.
  induction path as [|c path IH]; simpl; [discriminate|].
  destruct (Ascii.eqb c "."); [discriminate|].
  by destruct (split_path path).
Qed.

Lemma read_ref (h : heap) (current : value) (key : string) (l : loc) :
  read h current key = Some (VRef l) ->
  exists l0 o, current = VRef l0 /\ h !! l0 = Some o /\ o !! key = Some (VRef l).
Proof.
  unfold read, inherited. intros H.
  destruct current as [| | | | |l0| |]; try discriminate.
  - destruct (h !! l0) as [o|] eqn:Ho; [|discriminate].
    destruct (o !! key) as [x|] eqn:Hx.
    + injection H as ->. by exists l0, o.
    + destruct (String.eqb key "__proto__"); [discriminate|].
      destruct (is_method key); discriminate.
  - destruct (String.eqb key "__proto__"); [discriminate|].
    destruct (is_method key); discriminate.
Qed.

Lemma read_from (h : heap) (current : value) (key : string) (x : value) :
  read h current key = Some x ->
  (exists l, current = VRef l /\ is_Some (h !! l)) \/ current = VObjectPrototype.
Proof.
  unfold read. intros H. destruct current as [| | | | |l| |]; try discriminate.
  - left. exists l. split; [done|]. by destruct (h !! l).
  - by right.
Qed.

Lemma trail_not_ref (h : heap) (keys : list string) : forall current,
  (forall l, current <> VRef l) ->
  trail h current keys = [].
Proof.
  induction keys as [|key keys IH]; intros current Hc; simpl; [done|].
  destruct (read h current key) as [next|] eqn:Hr.
  - rewrite IH.
    + destruct current; try done. by destruct (Hc l).
    + intros l ->. apply read_ref in Hr as (l0 & _ & -> & _). by destruct (Hc l0).
  - destruct current; try done. by destruct (Hc l).
Qed.

Lemma trail_fresh (h : heap) (l : loc) (key : string) (keys : list string) :
  h !! l = Some ∅ ->
  trail h (VRef l) (key :: keys) = [l].
Proof.
  intros Hl.
  assert (read h (VRef l) key = inherited key) as Hr
    by (unfold read; by rewrite Hl, lookup_empty).
  cbn [trail]. rewrite Hr.
  destruct (inherited key) as [next|] eqn:Hi; [|done].
  rewrite trail_not_ref; [done|].
  intros l' ->. unfold inherited in Hi.
  destruct (String.eqb key "__proto__"); [discriminate|].
  destruct (is_method key); discriminate.
Qed.

(** ** Writing *)

Lemma write_done (h h' : heap) (current : value) (key : string) (v : value) :
  write h current key v = Done h' ->
  exists l o,
    current = VRef l /\ h !! l = Some o
    /\ (h' = <[l := <[key := v]> o]> h \/ (key = "__proto__" /\ h' = h)).
Proof.
  unfold write. intros H. destruct current as [| | | | |l| |]; try discriminate.
  destruct (h !! l) as [o|] eqn:Ho; [|discriminate].
  exists l, o. split; [done|]. split; [done|].
  destruct (String.eqb key "__proto__" && bool_decide (o !! key = None)) eqn:Hk.
  - apply andb_prop in Hk as [Hk _]. apply String.eqb_eq in Hk.
    destruct (primitive v); [|discriminate]. injection H as <-. by right.
  - injection H as <-. by left.
Qed.

Lemma write_plain (h : heap) (l : loc) (o : object) (key : string) (v : value) :
  h !! l = Some o ->
  key <> "__proto__" ->
  write h (VRef l) key v = Done (<[l := <[key := v]> o]> h).
Proof.
  intros Ho Hk. unfold write. rewrite Ho.
  apply String.eqb_neq in Hk. by rewrite Hk.
Qed.

Lemma write_length (h h' : heap) (current : value) (key : string) (v : value) :
  write h current key v = Done h' -> length h' = length h.
Proof.
  intros H. apply write_done in H as (l & o & _ & _ & [->|[_ ->]]); [|done].
  by rewrite length_insert.
Qed.

(** What the replacement [current[key] = {}] does. *)
Lemma write_fresh (h h' : heap) (current : value) (key : string) :
  write h current key (VRef (length h)) = Done h' ->
  exists l o,
    current = VRef l /\ h !! l = Some o /\ l < length h
    /\ h' = <[l := <[key := VRef (length h)]> o]> h.
Proof.
  unfold write. intros H. destruct current as [| | | | |l| |]; try discriminate.
  destruct (h !! l) as [o|] eqn:Ho; [|discriminate].
  exists l, o. split; [done|]. split; [done|].
  split; [by eapply lookup_lt_Some|].
  destruct (String.eqb key "__proto__" && bool_decide (o !! key = None)); [discriminate|].
  by injection H as <-.
Qed.

(** ** One round of the loop of [set] *)

Lemma set_from_cons (h : heap) (current : value) (key : string) (rest : list string)
    (v : value) :
  rest <> [] ->
  set_from h current (key :: rest) v
  = match descend h current key with
    | Done (h', next) => set_from h' next rest v
    | TypeError (h', _) => TypeError h'
    | Unsupported => Unsupported
    end.
Proof. by destruct rest. Qed.

Lemma descend_done (h h1 : heap) (current next : value) (key : string) :
  descend h current key = Done (h1, next) ->
  (h1 = h /\ read h current key = Some next /\ object_type next = true)
  \/ exists l o,
       current = VRef l /\ h !! l = Some o /\ l < length h
       /\ h1 = <[l := <[key := VRef (length h)]> o]> h ++ [∅]
       /\ next = VRef (length h).
Proof.
  unfold descend. intros H.
  assert (match write h current key (VRef (length h)) with
          | Done h' => Done (h' ++ [∅], VRef (length h))
          | TypeError h' => TypeError (h', current)
          | Unsupported => Unsupported
          end = Done (h1, next) ->
          exists l o,
            current = VRef l /\ h !! l = Some o /\ l < length h
            /\ h1 = <[l := <[key := VRef (length h)]> o]> h ++ [∅]
            /\ next = VRef (length h)) as Hreplace.
  { destruct (write h current key (VRef (length h))) as [h'| |] eqn:Hw; try discriminate.
    intros [= <- <-]. apply write_fresh in Hw as (l & o & -> & Ho & Hl & ->).
    by exists l, o. }
  destruct current as [| | | | |l| |]; try discriminate;
    (destruct (read h _ key) as [x|] eqn:Hr;
     [destruct (object_type x) eqn:Hx; [injection H as <- <-; by left|right; by apply Hreplace]
     |right; by apply Hreplace]).
Qed.

Lemma write_throws (h h' : heap) (current : value) (key : string) (v : value) :
  write h current key v = TypeError h' -> h' = h /\ current = VNull.
Proof.
  unfold write. intros H. destruct current as [| | | | |l| |]; try discriminate.
  - by injection H as <-.
  - destruct (h !! l); [|discriminate].
    destruct (_ && _); [destruct (primitive _)|]; discriminate.
Qed.

Lemma descend_throws (h h1 : heap) (current c : value) (key : string) :
  descend h current key = TypeError (h1, c) ->
  h1 = h /\ current = VNull.
Proof.
  unfold descend. intros H.
  assert (current = VNull \/ current <> VNull) as [->|Hc]
    by (destruct current; (by left) || (by right)).
  { by injection H as <- _. }
  assert (match write h current key (VRef (length h)) with
          | Done h' => Done (h' ++ [∅], VRef (length h))
          | TypeError h' => TypeError (h', current)
          | Unsupported => Unsupported
          end <> TypeError (h1, c)) as Hreplace.
  { destruct (write h current key (VRef (length h))) as [h'|h'|] eqn:Hw; try done.
    by apply write_throws in Hw as [_ ->]. }
  destruct current as [| | | | |l| |]; try done;
    (destruct (read h _ key) as [x|]; [destruct (object_type x); [discriminate|]|];
     by destruct Hreplace).
Qed.

(** ** The objects that [set] leaves as they are *)

Lemma set_from_frame (keys : list string) (v : value) :
  forall (h h' : heap) (current : value),
    set_from h current keys v = Done h' ->
    forall l, l < length h -> l ∉ trail h current keys -> h' !! l = h !! l.
Proof.
  induction keys as [|key keys IH]; intros h h' current H l Hl Hnot.
  - by injection H as <-.
  - destruct (decide (keys = [])) as [->|Hrest].
    + simpl in H. apply write_done in H as (l0 & o & -> & Ho & [->|[_ ->]]); [|done].
      simpl in Hnot. rewrite Ho in Hnot.
      apply list_lookup_insert_ne. intros <-. apply Hnot. left.
    + rewrite set_from_cons in H by done.
      destruct (descend h current key) as [[h1 next]|[h1 c]|] eqn:Hd; try discriminate.
      cbn [trail] in Hnot. apply not_elem_of_app in Hnot as [Hnot1 Hnot2].
      apply descend_done in Hd as [(-> & Hr & _)|(l0 & o & -> & Ho & Hl0 & -> & ->)].
      * rewrite Hr in Hnot2. by apply (IH _ _ _ H).
      * assert (l <> l0) as Hne by (intros ->; apply Hnot1; left).
        rewrite (IH _ _ _ H l).
        -- rewrite lookup_app_l by (by rewrite length_insert).
           by apply list_lookup_insert_ne.
        -- rewrite length_app, length_insert. simpl. lia.
        -- destruct keys as [|key' keys]; [done|]. rewrite trail_fresh.
           ++ intros Hin. apply list_elem_of_singleton in Hin. lia.
           ++ rewrite lookup_app_r by (by rewrite length_insert).
              by rewrite length_insert, Nat.sub_diag.
Qed.

(** ** Reading back what [set] has written *)

Lemma get_after_set_from (keys : list string) (v : value) :
  forall (h h' : heap) (current : value),
    keys <> [] ->
    last keys <> Some "__proto__" ->
    NoDup (trail h current keys) ->
    set_from h current keys v = Done h' ->
    get_from h' current keys = Some v.
Proof.
  induction keys as [|key keys IH]; intros h h' current Hne Hlast Hdup H; [done|].
  destruct (decide (keys = [])) as [->|Hrest].
  - simpl in *. apply write_done in H as (l & o & -> & Ho & [->|[-> _]]); [|done].
    unfold read. rewrite list_lookup_insert_eq by (by eapply lookup_lt_Some).
    by rewrite lookup_insert_eq.
  - rewrite set_from_cons in H by done.
    assert (last (key :: keys) = last keys) as Hl by (by destruct keys).
    rewrite Hl in Hlast.
    destruct (descend h current key) as [[h1 next]|[h1 c]|] eqn:Hd; try discriminate.
    cbn [trail] in Hdup. apply NoDup_app in Hdup as (Hdup1 & Hdisj & Hdup2).
    cbn [get_from].
    apply descend_done in Hd as [(-> & Hr & _)|(l0 & o & -> & Ho & Hl0 & -> & ->)].
    + rewrite Hr in Hdup2, Hdisj.
      assert (read h' current key = Some next) as ->.
      { destruct (read_from _ _ _ _ Hr) as [(l0 & -> & Hsome)| ->]; [|exact Hr].
        unfold read in *. rewrite (set_from_frame _ _ _ _ _ H l0); [exact Hr| |].
        - apply lookup_lt_is_Some. exact Hsome.
        - apply Hdisj. left. }
      by apply (IH h).
    + assert (h' !! l0 = Some (<[key := VRef (length h)]> o)) as Hl0'.
      { rewrite (set_from_frame _ _ _ _ _ H l0).
        - rewrite lookup_app_l by (by rewrite length_insert).
          by apply list_lookup_insert_eq.
        - rewrite length_app, length_insert. simpl. lia.
        - destruct keys as [|key' keys]; [done|]. rewrite trail_fresh.
          + intros Hin. apply list_elem_of_singleton in Hin. lia.
          + rewrite lookup_app_r by (by rewrite length_insert).
            by rewrite length_insert, Nat.sub_diag. }
      unfold read at 1. rewrite Hl0', lookup_insert_eq.
      apply (IH _ _ _ Hrest Hlast) in H; [exact H|].
      destruct keys as [|key' keys]; [done|]. rewrite trail_fresh.
      * apply NoDup_singleton.
      * rewrite lookup_app_r by (by rewrite length_insert).
        by rewrite length_insert, Nat.sub_diag.
Qed.

(** X24.  In a configuration that is made of plain objects, with primitive
    values or plain objects as the values stored (no array, and no other
    object that treats some keys in a way of its own): after [set(path, v)]
    has returned, [get(path)] returns [v], when the last key of the path is
    not [__proto__] and the objects that the path visits are distinct. *)
Theorem get_after_set (s s' : t) (path : string) (v defaultValue : value) :
  last (split_path path) <> Some "__proto__" ->
  NoDup (trail (store s) (VRef (config s)) (split_path path)) ->
  set s path v = Done s' ->
  get s' path defaultValue = v.
Proof.
  intros Hlast Hdup. unfold set, get.
  destruct (set_from (store s) (VRef (config s)) (split_path path) v) as [h'| |] eqn:H;
    try discriminate.
  intros [= <-]. cbn [with_store store config].
  by rewrite (get_after_set_from _ _ _ _ _ (split_path_nonempty path) Hlast Hdup H).
Qed.

Lemma get_after_set_witness :
  exists s',
    set (construct [] ∅) "deviceManager.retryAttempts" (vnum 5 1) = Done s'
    /\ get s' "deviceManager.retryAttempts" VUndefined = vnum 5 1.
Proof.
  eexists. split; [vm_compute; reflexivity|].
  apply (get_after_set (construct [] ∅)).
  - vm_compute. discriminate.
  - apply (bool_decide_unpack _). vm_compute. reflexivity.
  - vm_compute. reflexivity.
Defined.

(** ** When [set] throws *)

Lemma set_from_null (h : heap) (keys : list string) (v : value) :
  keys <> [] -> set_from h VNull keys v = TypeError h.
Proof. destruct keys as [|key [|key' keys]]; done. Qed.

Lemma set_from_fresh (keys : list string) (v : value) :
  forall (h h' : heap) (l : loc),
    h !! l = Some ∅ ->
    "__proto__" ∉ keys ->
    set_from h (VRef l) keys v <> TypeError h'.
Proof.
  induction keys as [|key keys IH]; intros h h' l Hl Hkeys; [done|].
  destruct (decide (keys = [])) as [->|Hrest].
  - cbn [set_from]. intros H. by apply write_throws in H as [_ ?].
  - rewrite set_from_cons by done.
    apply not_elem_of_cons in Hkeys as [Hkey Hkeys].
    destruct (descend h (VRef l) key) as [[h1 next]|[h1 c]|] eqn:Hd; [| |done].
    + apply descend_done in Hd as [(-> & Hr & Hobj)|(l0 & o & _ & _ & _ & -> & ->)].
      * unfold read, inherited in Hr. rewrite Hl, lookup_empty in Hr.
        apply not_eq_sym, String.eqb_neq in Hkey. rewrite Hkey in Hr.
        destruct (is_method key); [|discriminate]. by injection Hr as <-.
      * apply IH; [|done].
        rewrite lookup_app_r by (by rewrite length_insert).
        by rewrite length_insert, Nat.sub_diag.
    + by apply descend_throws in Hd as [_ ?].
Qed.

Lemma set_from_throws (keys : list string) (v : value) :
  forall (h h' : heap) (current : value),
    "__proto__" ∉ keys ->
    set_from h current keys v = TypeError h' ->
    h' = h
    /\ exists pre post,
         keys = pre ++ post /\ post <> [] /\ get_from h current pre = Some VNull.
Proof.
  induction keys as [|key keys IH]; intros h h' current Hkeys H; [done|].
  destruct (decide (keys = [])) as [->|Hrest].
  - cbn [set_from] in H. apply write_throws in H as [-> ->]. split; [done|].
    by exists [], [key].
  - rewrite set_from_cons in H by done.
    apply not_elem_of_cons in Hkeys as [Hkey Hkeys].
    destruct (descend h current key) as [[h1 next]|[h1 c]|] eqn:Hd; [| |done].
    + apply descend_done in Hd as [(-> & Hr & Hobj)|(l0 & o & _ & _ & _ & -> & ->)].
      * apply IH in H as (-> & pre & post & -> & Hpost & Hget); [|done].
        split; [done|]. exists (key :: pre), post. simpl. by rewrite Hr.
      * exfalso. revert H. apply set_from_fresh; [|done].
        rewrite lookup_app_r by (by rewrite length_insert).
        by rewrite length_insert, Nat.sub_diag.
    + injection H as <-. apply descend_throws in Hd as [-> ->]. split; [done|].
      by exists [], (key :: keys).
Qed.

Lemma set_from_reaches_null (pre post : list string) (v : value) (h : heap) :
  forall current,
    post <> [] ->
    get_from h current pre = Some VNull ->
    set_from h current (pre ++ post) v = TypeError h.
Proof.
  induction pre as [|key pre IH]; intros current Hpost Hget.
  - injection Hget as ->. by apply set_from_null.
  - cbn [get_from] in Hget. destruct (read h current key) as [next|] eqn:Hr; [|done].
    change ((key :: pre) ++ post) with (key :: (pre ++ post)).
    rewrite set_from_cons by (by destruct pre, post).
    assert (object_type next = true) as Hobj.
    { destruct pre as [|key' pre]; [by injection Hget as ->|].
      cbn [get_from] in Hget. destruct (read h next key') as [x|] eqn:Hr'; [|done].
      by destruct (read_from _ _ _ _ Hr') as [(l & -> & _)| ->]. }
    assert (descend h current key = Done (h, next)) as ->.
    { unfold descend. rewrite Hr, Hobj.
      destruct current; try done. }
    by apply IH.
Qed.

(** X25.  [set] throws a [TypeError] exactly when a proper prefix of the path leads
    to [null], and then it has changed nothing; the path has no key
    [__proto__]. *)
Theorem set_throws (s s' : t) (path : string) (v : value) :
  "__proto__" ∉ split_path path ->
  set s path v = TypeError s'
  <-> s' = s
      /\ exists pre post,
           split_path path = pre ++ post /\ post <> []
           /\ get_from (store s) (VRef (config s)) pre = Some VNull.
Proof.
  intros Hkeys. unfold set. split.
  - destruct (set_from (store s) (VRef (config s)) (split_path path) v) as [h'|h'|] eqn:H;
      try discriminate.
    intros [= <-]. apply set_from_throws in H as (-> & Hpre); [|done].
    split; [by destruct s|exact Hpre].
  - intros (-> & pre & post & -> & Hpost & Hget).
    rewrite (set_from_reaches_null pre post v _ _ Hpost Hget). by destruct s.
Qed.

Lemma set_throws_witness :
  set (construct [] {[ "schedule" := VNull ]}) "schedule.start" (vnum 8 1)
  = TypeError (construct [] {[ "schedule" := VNull ]}).
Proof.
  apply (set_throws (construct [] {[ "schedule" := VNull ]})).
  - apply (bool_decide_unpack _). vm_compute. reflexivity.
  - split; [reflexivity|]. exists ["schedule"], ["start"].
    split; [vm_compute; reflexivity|]. split; [discriminate|vm_compute; reflexivity].
Defined.

(** ** [reset] after [set] *)

Lemma lookup_app_add {A : Type} (l1 l2 : list A) (i : nat) :
  (l1 ++ l2) !! (length l1 + i) = l2 !! i.
Proof. rewrite lookup_app_r by lia. f_equal. lia. Qed.

Lemma construct_config (h : heap) (initial : object) :
  store (construct h initial) !! config (construct h initial)
  = Some (initial ∪ defaults (length h)).
Proof. unfold construct. cbn [store config]. by rewrite lookup_app_add. Qed.

Lemma construct_defaultConfig (h : heap) (initial : object) :
  store (construct h initial) !! defaultConfig (construct h initial)
  = Some (defaults (length h)).
Proof. unfold construct. cbn [store defaultConfig]. by rewrite lookup_app_add. Qed.

(** The three sections of the defaults: where they are and what they hold. *)
Lemma construct_section (h : heap) (initial : object) (section : string) :
  section ∈ ["speechRecognition"; "speechSynthesis"; "deviceManager"] ->
  exists i o,
    i < 3
    /\ defaults (length h) !! section = Some (VRef (length h + i))
    /\ store (construct h initial) !! (length h + i) = Some o.
Proof.
  intros Hin. unfold construct. cbn [store].
  repeat (apply elem_of_cons in Hin as [->|Hin]);
    [exists 0| exists 1 | exists 2 | by apply elem_of_nil in Hin];
    eexists; (split; [lia|]); (split; [|by rewrite lookup_app_add]);
    rewrite ?Nat.add_0_r; vm_compute; reflexivity.
Qed.

Lemma nested_set_survives_reset (s : t) (c d o : object) (l : loc)
    (section sub : string) (v : value) :
  store s !! config s = Some c ->
  store s !! defaultConfig s = Some d ->
  c !! section = Some (VRef l) ->
  d !! section = Some (VRef l) ->
  store s !! l = Some o ->
  l <> defaultConfig s ->
  sub <> "__proto__" ->
  exists h1,
    set_from (store s) (VRef (config s)) [section; sub] v = Done h1
    /\ get_from (store (reset (with_store s h1))) (VRef (config (reset (with_store s h1))))
                [section; sub] = Some v.
Proof.
  intros Hc Hd Hcs Hds Ho Hne Hsub.
  exists (<[l := <[sub := v]> o]> (store s)).
  assert (descend (store s) (VRef (config s)) section = Done (store s, VRef l)) as Hdesc.
  { unfold descend, read. by rewrite Hc, Hcs. }
  split.
  - cbn [set_from]. rewrite Hdesc. by apply write_plain.
  - unfold reset. cbn [with_store store defaultConfig].
    rewrite list_lookup_insert_ne by done. rewrite Hd. cbn [store config get_from].
    unfold read at 1.
    rewrite lookup_app_r by done. rewrite Nat.sub_diag. cbn [lookup list_lookup].
    rewrite Hds. unfold read.
    rewrite lookup_app_l by (rewrite length_insert; by eapply lookup_lt_Some).
    rewrite list_lookup_insert_eq by (by eapply lookup_lt_Some).
    by rewrite lookup_insert_eq.
Qed.

(** X26.  A value that [set] has stored in a section of the defaults is still
    there after [reset]: the configuration and the defaults share their
    sections, and [reset] copies the top level only. *)
Theorem reset_keeps_nested_set (h : heap) (initialConfig : object)
    (path section sub : string) (v defaultValue : value) :
  split_path path = [section; sub] ->
  section ∈ ["speechRecognition"; "speechSynthesis"; "deviceManager"] ->
  initialConfig !! section = None ->
  sub <> "__proto__" ->
  exists s1,
    set (construct h initialConfig) path v = Done s1
    /\ get (reset s1) path defaultValue = v.
Proof.
  intros Hpath Hin Hinit Hsub.
  destruct (construct_section h initialConfig section Hin) as (i & o & Hi & Hd & Ho).
  destruct (nested_set_survives_reset (construct h initialConfig) _ _ o (length h + i)
              section sub v (construct_config h initialConfig)
              (construct_defaultConfig h initialConfig))
    as (h1 & Hset & Hget); try done.
  - by rewrite lookup_union_r.
  - unfold construct. cbn [defaultConfig]. lia.
  - exists (with_store (construct h initialConfig) h1). unfold set, get.
    rewrite Hpath, Hset. split; [done|]. by rewrite Hget.
Qed.

Lemma reset_keeps_nested_set_witness :
  exists s1,
    set (construct [] ∅) "speechSynthesis.rate" (vnum 2 1) = Done s1
    /\ get (reset s1) "speechSynthesis.rate" VUndefined = vnum 2 1.
Proof.
  apply (reset_keeps_nested_set [] ∅ "speechSynthesis.rate" "speechSynthesis" "rate").
  - vm_compute. reflexivity.
  - apply (bool_decide_unpack _). vm_compute. reflexivity.
  - vm_compute. reflexivity.
  - discriminate.
Defined.

(** ** [reset] after a [set] at the top level *)

Lemma read_not_ref (hA hB : heap) (current : value) (key : string) :
  (forall l, current <> VRef l) ->
  read hA current key = read hB current key
  /\ forall x l, read hA current key = Some x -> x <> VRef l.
Proof.
  intros Hc. destruct current as [| | | | |l0| |]; try done; [by destruct (Hc l0)|].
  split; [done|]. intros x l. simpl.
  destruct (String.eqb key "__proto__"); [by intros [= <-]|].
  destruct (is_method key); [by intros [= <-]|done].
Qed.

Lemma get_from_not_ref (hA hB : heap) (keys : list string) : forall current,
  (forall l, current <> VRef l) ->
  get_from hA current keys = get_from hB current keys.
Proof.
  induction keys as [|key keys IH]; intros current Hc; [done|]. cbn [get_from].
  destruct (read_not_ref hA hB current key Hc) as [<- Hnext].
  destruct (read hA current key) as [x|] eqn:Hr; [|done].
  apply IH. intros l. by apply Hnext.
Qed.

Lemma primitive_not_ref (x : value) (l : loc) : primitive x = true -> x <> VRef l.
Proof. by destruct x. Qed.

Lemma inherited_not_ref (key : string) (x : value) (l : loc) :
  inherited key = Some x -> x <> VRef l.
Proof.
  unfold inherited. destruct (String.eqb key "__proto__"); [by intros [= <-]|].
  destruct (is_method key); [by intros [= <-]|done].
Qed.

(** Reading below an object that holds primitive values only. *)
Lemma get_from_flat (hA hB : heap) (l : loc) (o : object) (keys : list string) :
  hA !! l = Some o ->
  hB !! l = Some o ->
  map_Forall (fun _ x => primitive x = true) o ->
  get_from hA (VRef l) keys = get_from hB (VRef l) keys.
Proof.
  intros HA HB Ho. destruct keys as [|key keys]; [done|].
  cbn [get_from]. unfold read. rewrite HA, HB.
  destruct (o !! key) as [x|] eqn:Hx.
  - apply get_from_not_ref. intros l'. apply primitive_not_ref. by apply (Ho key).
  - destruct (inherited key) as [x|] eqn:Hi; [|done].
    apply get_from_not_ref. intros l'. by apply (inherited_not_ref key).
Qed.

Lemma sections_flat (i : nat) (o : object) :
  sections !! i = Some o -> map_Forall (fun _ x => primitive x = true) o.
Proof.
  destruct i as [|[|[|i]]]; intros [= <-];
    apply (bool_decide_unpack _); vm_compute; reflexivity.
Qed.

Lemma defaults_values (l : loc) (key : string) (x : value) :
  defaults l !! key = Some x ->
  primitive x = true \/ exists i o, sections !! i = Some o /\ x = VRef (l + i).
Proof.
  unfold defaults. intros H.
  repeat (apply lookup_insert_Some in H as [[_ <-]|[_ H]];
          [first [by left
                 |right; exists 0; eexists; split; [reflexivity|by rewrite Nat.add_0_r]
                 |right; exists 1; eexists; split; reflexivity
                 |right; exists 2; eexists; split; reflexivity]|]).
  apply lookup_singleton_Some in H as [_ <-]. by left.
Qed.

(** Two heaps in which [a] and [b] hold the top level of the defaults, over
    the same sections, read alike from there. *)
Lemma get_from_defaults (hA hB : heap) (a b l : loc) (keys : list string) :
  hA !! a = Some (defaults l) ->
  hB !! b = Some (defaults l) ->
  (forall i o, sections !! i = Some o ->
               hA !! (l + i) = Some o /\ hB !! (l + i) = Some o) ->
  keys <> [] ->
  get_from hA (VRef a) keys = get_from hB (VRef b) keys.
Proof.
  intros HA HB Hsec Hkeys. destruct keys as [|key keys]; [done|].
  cbn [get_from]. unfold read. rewrite HA, HB.
  destruct (defaults l !! key) as [x|] eqn:Hx.
  - apply defaults_values in Hx as [Hp|(i & o & Hi & ->)].
    + apply get_from_not_ref. intros l'. by apply primitive_not_ref.
    + destruct (Hsec i o Hi) as [Ha Hb].
      apply (get_from_flat _ _ _ o); [done|done|by apply (sections_flat i)].
  - destruct (inherited key) as [x|] eqn:Hi; [|done].
    apply get_from_not_ref. intros l'. by apply (inherited_not_ref key).
Qed.

Lemma construct_sections (h : heap) (initial : object) (i : nat) (o : object) :
  sections !! i = Some o ->
  store (construct h initial) !! (length h + i) = Some o.
Proof.
  intros Hi. unfold construct. cbn [store]. rewrite lookup_app_add.
  by destruct i as [|[|[|i]]].
Qed.

Lemma when_set_unset (x : option string) (k : string -> t -> result t) (s : t) :
  match x with Some v => String.eqb v "" | None => true end = true ->
  when_set x k s = Done s.
Proof. destruct x as [v|]; simpl; [intros ->|]; done. Qed.

Lemma loadFromEnvironment_unset (s : t) (env : Env) :
  unset env = true -> loadFromEnvironment s env = Done s.
Proof.
  unfold unset. cbn [forallb]. intros H.
  repeat (apply andb_prop in H as [? H]).
  unfold loadFromEnvironment.
  repeat (rewrite when_set_unset by assumption; cbn [and_then]).
  reflexivity.
Qed.

(** X27.  In an environment that sets none of the variables read by
    [loadFromEnvironment] (or where there is no [process.env]): after a
    [set] at the top level, under a key other than __proto__, [reset] gives
    back a configuration that reads, on every path, like one that has just
    been constructed in that environment without an initial configuration. *)
Theorem reset_undoes_top_level_set (h : heap) (initialConfig : object) (env : Env)
    (path key : string) (v : value) :
  unset env = true ->
  split_path path = [key] ->
  key <> "__proto__" ->
  exists s0 s1 fresh,
    constructor h initialConfig env = Done s0
    /\ set s0 path v = Done s1
    /\ constructor h ∅ env = Done fresh
    /\ forall (path' : string) (defaultValue : value),
         get (reset s1) path' defaultValue = get fresh path' defaultValue.
Proof.
  intros Henv Hpath Hkey.
  set (s := construct h initialConfig).
  set (h1 := <[config s := <[key := v]> (initialConfig ∪ defaults (length h))]> (store s)).
  exists s, (with_store s h1), (construct h ∅).
  unfold constructor. rewrite !loadFromEnvironment_unset by done.
  split; [done|]. split; [|split; [done|]].
  - unfold set. rewrite Hpath. cbn [set_from].
    by rewrite (write_plain _ _ _ _ _ (construct_config h initialConfig) Hkey).
  - intros path' defaultValue. unfold get, reset.
    cbn [with_store store defaultConfig].
    assert (h1 !! defaultConfig s = Some (defaults (length h))) as ->.
    { unfold h1. rewrite list_lookup_insert_ne by (unfold s, construct; simpl; lia).
      apply construct_defaultConfig. }
    cbn [store config]. f_equal.
    apply (get_from_defaults _ _ _ _ (length h)).
    + rewrite lookup_app_r by done. by rewrite Nat.sub_diag.
    + rewrite (construct_config h ∅). by rewrite (left_id_L ∅ (∪)).
    + intros i o Hi. split; [|by apply construct_sections].
      assert (i < 3) by (apply lookup_lt_Some in Hi; simpl in Hi; lia).
      rewrite lookup_app_l
        by (unfold h1, s, construct; cbn [store config];
            rewrite length_insert, length_app; simpl; lia).
      unfold h1. rewrite list_lookup_insert_ne by (unfold s, construct; simpl; lia).
      by apply construct_sections.
    + apply split_path_nonempty.
Qed.

Lemma reset_undoes_top_level_set_witness :
  exists s0 s1 fresh,
    constructor [] ∅ (mkEnv None None (Some "") None None None) = Done s0
    /\ set s0 "logLevel" (VStr "DEBUG") = Done s1
    /\ constructor [] ∅ (mkEnv None None (Some "") None None None) = Done fresh
    /\ forall (path' : string) (defaultValue : value),
         get (reset s1) path' defaultValue = get fresh path' defaultValue.
Proof.
  apply (reset_undoes_top_level_set [] ∅ (mkEnv None None (Some "") None None None)
           "logLevel" "logLevel").
  - reflexivity.
  - vm_compute. reflexivity.
  - discriminate.
Defined.

(** With LOG_LEVEL set, [reset] does not give back what the constructor
    gave: the constructor has stored the variable in the configuration, not
    in the defaults. *)
Example reset_forgets_environment :
  let env := mkEnv None None (Some "DEBUG") None None None in
  exists s0,
    constructor [] ∅ env = Done s0
    /\ get s0 "logLevel" VUndefined = VStr "DEBUG"
    /\ get (reset s0) "logLevel" VUndefined = VStr "INFO".
Proof. eexists. split; [vm_compute; reflexivity|]. split; vm_compute; reflexivity. Qed.

(** [parseFloat] at work. *)
Example parseFloat_examples :
  parseFloat "0.85" = Finite (85 # 100)
  /\ parseFloat "  -1.5e1 volts" = Finite (-15 # 1)
  /\ parseFloat ".5" = Finite (5 # 10)
  /\ parseFloat "high" = NotANumber
  /\ parseFloat "-Infinity" = Infinity true.
Proof. repeat split; vm_compute; reflexivity. Qed.

(** ** Voice settings *)

Lemma validate_passes (s : t) : validate s = passes (store s) (config s).
Proof. reflexivity. Qed.

Lemma lt_Finite (x y : Q) : lt (Finite x) (Finite y) = negb (Qle_bool y x).
Proof. reflexivity. Qed.

Lemma Qle_bool_false (x y : Q) : Qle_bool x y = false -> (y < x)%Q.
Proof.
  intros H. apply Qnot_le_lt. intros Hle. apply Qle_bool_iff in Hle. congruence.
Qed.

(** [Math.max(lo, Math.min(hi, n))] passes the range check of [validate]:
    it lies between [lo] and [hi], or it is [NaN]. *)
Lemma clamped_in_range (lo hi : Q) (n : number) :
  (lo <= hi)%Q ->
  out_of_range (VNum (clamp lo hi n)) lo hi = false.
Proof.
  intros Hle. unfold out_of_range, gt, clamp.
  destruct n as [x| |[|]]; cbn [num_min num_max lt]; try reflexivity.
  - destruct (Qle_bool hi x) eqn:H1; cbn [negb].
    + cbn [lt]. destruct (Qle_bool hi lo) eqn:H2; cbn [negb lt].
      * apply Qle_bool_iff in H2.
        assert (Qle_bool lo lo = true) as -> by (apply Qle_bool_iff; lra).
        assert (Qle_bool lo hi = true) as -> by (by apply Qle_bool_iff). done.
      * assert (Qle_bool lo hi = true) as -> by (by apply Qle_bool_iff).
        assert (Qle_bool hi hi = true) as -> by (apply Qle_bool_iff; lra). done.
    + apply Qle_bool_false in H1. cbn [lt].
      destruct (Qle_bool x lo) eqn:H2; cbn [negb lt].
      * assert (Qle_bool lo lo = true) as -> by (apply Qle_bool_iff; lra).
        assert (Qle_bool lo hi = true) as -> by (by apply Qle_bool_iff). done.
      * apply Qle_bool_false in H2.
        assert (Qle_bool lo x = true) as -> by (apply Qle_bool_iff; lra).
        assert (Qle_bool x hi = true) as -> by (apply Qle_bool_iff; lra). done.
  - assert (Qle_bool lo lo = true) as -> by (apply Qle_bool_iff; lra).
    assert (Qle_bool lo hi = true) as -> by (by apply Qle_bool_iff). done.
  - destruct (Qle_bool hi lo) eqn:H2; cbn [negb lt].
    + apply Qle_bool_iff in H2.
      assert (Qle_bool lo lo = true) as -> by (apply Qle_bool_iff; lra).
      assert (Qle_bool lo hi = true) as -> by (by apply Qle_bool_iff). done.
    + assert (Qle_bool lo hi = true) as -> by (by apply Qle_bool_iff).
      assert (Qle_bool hi hi = true) as -> by (apply Qle_bool_iff; lra). done.
Qed.

Lemma read_insert_other (h : heap) (l : loc) (o : object) (k key : string)
    (v current : value) :
  h !! l = Some o ->
  key <> k ->
  read (<[l := <[k := v]> o]> h) current key = read h current key.
Proof.
  intros Ho Hne. destruct current as [| | | | |l'| |]; try done. unfold read.
  destruct (decide (l' = l)) as [->|Hl].
  - rewrite list_lookup_insert_eq by (by eapply lookup_lt_Some).
    rewrite Ho. by rewrite lookup_insert_ne.
  - by rewrite list_lookup_insert_ne.
Qed.

Lemma get_from_insert_other (h : heap) (l : loc) (o : object) (k : string) (v : value)
    (keys : list string) : forall current,
  h !! l = Some o ->
  k ∉ keys ->
  get_from (<[l := <[k := v]> o]> h) current keys = get_from h current keys.
Proof.
  induction keys as [|key keys IH]; intros current Ho Hk; [done|].
  apply not_elem_of_cons in Hk as [Hne Hk]. cbn [get_from].
  rewrite (read_insert_other h l o k key v current Ho) by done.
  destruct (read h current key); [by apply IH|done].
Qed.

(** A [set] on a path of two keys that leads to a value. *)
Lemma set_from_two (h : heap) (c : loc) (k1 k2 : string) (v x : value) :
  get_from h (VRef c) [k1; k2] = Some x ->
  k2 <> "__proto__" ->
  is_method k2 = false ->
  k1 <> k2 ->
  exists l o,
    h !! l = Some o
    /\ set_from h (VRef c) [k1; k2] v = Done (<[l := <[k2 := v]> o]> h)
    /\ get_from (<[l := <[k2 := v]> o]> h) (VRef c) [k1; k2] = Some v.
Proof.
  intros Hget Hproto Hmethod Hne. cbn [get_from] in Hget.
  destruct (read h (VRef c) k1) as [next|] eqn:Hr1; [|done].
  destruct (read h next k2) as [y|] eqn:Hr2; [|done].
  destruct (read_from _ _ _ _ Hr2) as [(l & -> & [o Ho])| ->].
  2:{ simpl in Hr2. apply String.eqb_neq in Hproto. by rewrite Hproto, Hmethod in Hr2. }
  exists l, o. split; [done|]. split.
  - cbn [set_from]. unfold descend. rewrite Hr1. cbn [object_type].
    by apply write_plain.
  - cbn [get_from]. rewrite (read_insert_other h l o k2 k1 v (VRef c) Ho Hne), Hr1.
    unfold read. rewrite list_lookup_insert_eq by (by eapply lookup_lt_Some).
    by rewrite lookup_insert_eq.
Qed.

Lemma out_of_range_number (x : option value) (lo hi : Q) :
  out_of_range (default VUndefined x) lo hi = false -> exists n, x = Some (VNum n).
Proof. destruct x as [[]|]; try done. by eexists. Qed.

Ltac passing H :=
  repeat match type of H with
         | (if ?c then _ else _) = true => destruct c eqn:?; [discriminate|]
         end.

Ltac other_keys :=
  rewrite !get_from_insert_other
    by (done || (apply (bool_decide_unpack _); vm_compute; reflexivity)).

Ltac split_literal_path :=
  match goal with
  | |- context [split_path ?p] =>
      let keys := eval vm_compute in (split_path p) in
      change (split_path p) with keys
  end.

(** One setting of [setVoiceSettings] on a valid configuration. *)
Lemma setClamped_valid (s : t) (path sub : string) (lo hi : Q) (x : option number) :
  (path, sub, lo, hi) ∈ [ ("speechSynthesis.rate", "rate", 1 # 10, 10);
                          ("speechSynthesis.pitch", "pitch", 0, 2);
                          ("speechSynthesis.volume", "volume", 0, 1) ]%Q ->
  validate s = true ->
  exists s',
    setClamped s path lo hi x = Done s'
    /\ validate s' = true
    /\ (forall n, x = Some n ->
          get_from (store s') (VRef (config s')) (split_path path)
          = Some (VNum (clamp lo hi n)))
    /\ (forall keys, sub ∉ keys ->
          get_from (store s') (VRef (config s')) keys
          = get_from (store s) (VRef (config s)) keys).
Proof.
  intros Hin Hvalid. destruct x as [n|]; [|by exists s].
  rewrite validate_passes in Hvalid. unfold passes in Hvalid. passing Hvalid.
  unfold setClamped, set.
  repeat (apply elem_of_cons in Hin as [[= -> -> -> ->]|Hin]);
    [| | |by apply elem_of_nil in Hin];
    split_literal_path;
    match goal with
    | H : out_of_range (default VUndefined (get_from _ _ ["speechSynthesis"; ?k])) ?lo ?hi
          = false |- context [clamp ?lo ?hi _] =>
        destruct (out_of_range_number _ _ _ H) as [m Hm];
        destruct (set_from_two (store s) (config s) "speechSynthesis" k
                    (VNum (clamp lo hi n)) _ Hm)
          as (l & o & Ho & -> & Hback); [done|done|done|]
    end;
    (eexists; split; [reflexivity|]); cbn [with_store store config];
    (split; [|split]).
  all: try (intros n' [= <-]; exact Hback).
  all: try (intros keys Hkeys; by apply get_from_insert_other).
  all: rewrite validate_passes; unfold passes; cbn [with_store store config];
    rewrite Hback; other_keys; cbn [default id];
    rewrite clamped_in_range by (vm_compute; discriminate);
    repeat match goal with H : _ = false |- _ => rewrite H end; reflexivity.
Qed.

(** X28.  [SpeechSynthesis.setVoiceSettings] on a configuration that [validate]
    accepts returns and leaves a configuration that [validate] accepts, where
    each setting that was given reads as its value clamped to its range. *)
Theorem setVoiceSettings_keeps_valid (s : t) (rate pitch volume : option number) :
  validate s = true ->
  exists s',
    setVoiceSettings s rate pitch volume = Done s'
    /\ validate s' = true
    /\ (forall n d, rate = Some n ->
          get s' "speechSynthesis.rate" d = VNum (clamp (1 # 10) 10 n))
    /\ (forall n d, pitch = Some n ->
          get s' "speechSynthesis.pitch" d = VNum (clamp 0 2 n))
    /\ (forall n d, volume = Some n ->
          get s' "speechSynthesis.volume" d = VNum (clamp 0 1 n)).
Proof.
  intros Hvalid. unfold setVoiceSettings.
  destruct (setClamped_valid s "speechSynthesis.rate" "rate" (1 # 10) 10 rate)
    as (s1 & -> & Hvalid1 & Hrate & _); [set_solver|done|].
  destruct (setClamped_valid s1 "speechSynthesis.pitch" "pitch" 0 2 pitch)
    as (s2 & -> & Hvalid2 & Hpitch & Hframe2); [set_solver|done|].
  destruct (setClamped_valid s2 "speechSynthesis.volume" "volume" 0 1 volume)
    as (s3 & -> & Hvalid3 & Hvolume & Hframe3); [set_solver|done|].
  exists s3. split; [done|]. split; [done|]. unfold get.
  split; [|split]; intros n d Hn.
  - rewrite Hframe3, Hframe2 by (apply (bool_decide_unpack _); vm_compute; reflexivity).
    by rewrite (Hrate n Hn).
  - rewrite Hframe3 by (apply (bool_decide_unpack _); vm_compute; reflexivity).
    by rewrite (Hpitch n Hn).
  - by rewrite (Hvolume n Hn).
Qed.

Lemma setVoiceSettings_keeps_valid_witness :
  exists s',
    setVoiceSettings (construct [] ∅) (Some (Finite 25)) None (Some NotANumber) = Done s'
    /\ validate s' = true
    /\ (forall n d, Some (Finite 25) = Some n ->
          get s' "speechSynthesis.rate" d = VNum (clamp (1 # 10) 10 n))
    /\ (forall n d, @None number = Some n ->
          get s' "speechSynthesis.pitch" d = VNum (clamp 0 2 n))
    /\ (forall n d, Some NotANumber = Some n ->
          get s' "speechSynthesis.volume" d = VNum (clamp 0 1 n)).
Proof.
  apply (setVoiceSettings_keeps_valid (construct [] ∅)). vm_compute. reflexivity.
Defined.

End ConfigHeapFacts.

(** * The words of the entities *)

Module LanguageProcessingWords.
Import Regex LanguageProcessing.
Local Open Scope list_scope.
Local Open Scope nat_scope.

(** ** Matches belong to the language of the pattern *)

Lemma run_sound {R : Type} (icase : bool) (r : regex) :
  forall (prev : option ascii) (s : list ascii)
         (k : option ascii -> list ascii -> option R) (x : R),
    run icase r prev s k = Some x ->
    exists w prev' s',
      s = w ++ s' /\ lang icase r w /\ k prev' s' = Some x.
Proof.
  assert (forall (p : ascii -> bool) s (k : option ascii -> list ascii -> option R) x,
             one_char p s k = Some x ->
             exists a s', s = a :: s' /\ p a = true /\ k (Some a) s' = Some x)
    as Hone.
  { intros p [|c s'] k x H; simpl in H; [discriminate|].
    destruct (p c) eqn:Hp; [|discriminate]. by exists c, s'. }
  induction r as [| c | | | | | r1 IH1 r2 IH2 | r1 IH1 r2 IH2 | r' IH];
    intros prev s k x H; [simpl in H .. | ].
  - exists [], prev, s. split; [done|]. split; [constructor|done].
  - apply Hone in H as (a & s' & -> & Hp & H).
    exists [a], (Some a), s'. split; [done|]. split; [by constructor|done].
  - apply Hone in H as (a & s' & -> & Hp & H).
    exists [a], (Some a), s'. split; [done|]. split; [|done].
    constructor. by destruct (is_line_terminator a).
  - apply Hone in H as (a & s' & -> & Hp & H).
    exists [a], (Some a), s'. split; [done|]. split; [by constructor|done].
  - apply Hone in H as (a & s' & -> & Hp & H).
    exists [a], (Some a), s'. split; [done|]. split; [by constructor|done].
  - destruct (xorb _ _); [|discriminate].
    exists [], prev, s. split; [done|]. split; [constructor|done].
  - apply IH1 in H as (w1 & prev1 & s1 & -> & Hw1 & H).
    apply IH2 in H as (w2 & prev2 & s2 & -> & Hw2 & H).
    exists (w1 ++ w2), prev2, s2. split; [by rewrite app_assoc|].
    split; [by constructor|done].
  - destruct (run icase r1 prev s k) as [y|] eqn:H1.
    + injection H as ->. apply IH1 in H1 as (w & prev1 & s1 & -> & Hw & H1).
      exists w, prev1, s1. split; [done|]. split; [by apply lang_Alt_l|done].
    + apply IH2 in H as (w & prev2 & s2 & -> & Hw & H).
      exists w, prev2, s2. split; [done|]. split; [by apply lang_Alt_r|done].
  - change (run icase (Star r') prev s k) with
      ((fix iterate (fuel : nat) (prev : option ascii) (s : list ascii) {struct fuel}
          : option R :=
          match fuel with
          | O => k prev s
          | S fuel' =>
              match run icase r' prev s
                      (fun prev' s' =>
                         if (length s' <? length s)%nat then iterate fuel' prev' s'
                         else None) with
              | Some x => Some x
              | None => k prev s
              end
          end) (S (length s)) prev s) in H.
    revert H. generalize (S (length s)) as fuel. intros fuel. revert prev s.
    induction fuel as [|fuel IHfuel]; intros prev s H.
    + exists [], prev, s. split; [done|]. split; [constructor|done].
    + match type of H with
      | match ?m with _ => _ end = _ => destruct m as [y|] eqn:Hrun
      end.
      * injection H as ->. apply IH in Hrun as (w1 & prev1 & s1 & -> & Hw1 & Hrun).
        destruct (length s1 <? length (w1 ++ s1))%nat; [|discriminate].
        apply IHfuel in Hrun as (w2 & prev2 & s2 & -> & Hw2 & Hk).
        exists (w1 ++ w2), prev2, s2. split; [by rewrite app_assoc|].
        split; [by constructor|done].
      * exists [], prev, s. split; [done|]. split; [constructor|done].
Qed.

Lemma match_here_sound (icase : bool) (r : regex) (prev : option ascii) (s : list ascii)
    (len : nat) :
  match_here icase r prev s = Some len -> lang icase r (firstn len s).
Proof.
  unfold match_here. intros H.
  apply run_sound in H as (w & prev' & s' & -> & Hw & H). injection H as <-.
  rewrite length_app. replace (length w + length s' - length s') with (length w) by lia.
  by rewrite firstn_app, firstn_all, Nat.sub_diag, firstn_0, app_nil_r.
Qed.

Lemma search_sound (icase : bool) (r : regex) (s : list ascii) :
  forall (prev : option ascii) (i len : nat),
    search icase r prev s = Some (i, len) ->
    lang icase r (firstn len (skipn i s)).
Proof.
  induction s as [|c s IH]; intros prev i len H; simpl in H.
  - destruct (match_here icase r prev []) as [n|] eqn:Hm; [|discriminate].
    injection H as <- <-. by apply match_here_sound in Hm.
  - destruct (match_here icase r prev (c :: s)) as [n|] eqn:Hm.
    + injection H as <- <-. by apply match_here_sound in Hm.
    + destruct (search icase r (Some c) s) as [[j n]|] eqn:Hs; [|discriminate].
      injection H as <- <-. by apply IH in Hs.
Qed.

Lemma exec_loop_sound (p : RegExp) (fuel : nat) :
  forall (pos : nat) (prev : option ascii) (s : list ascii) (ms : list (nat * list ascii)),
    exec_loop fuel p pos prev s = Some ms ->
    Forall (fun m => lang (ignoreCase p) (source p) (snd m)) ms.
Proof.
  induction fuel as [|fuel IH]; intros pos prev s ms H; simpl in H; [discriminate|].
  destruct (search (ignoreCase p) (source p) prev s) as [[i len]|] eqn:Hs.
  2:{ injection H as <-. constructor. }
  destruct len as [|len]; [discriminate|].
  destruct (advance (i + S len) prev s) as [prev' s'].
  destruct (exec_loop fuel p (pos + i + S len) prev' s') as [ms'|] eqn:Hl; [|discriminate].
  injection H as <-. constructor; [|by eapply IH].
  by apply search_sound in Hs.
Qed.
(** ** Words and gaps *)

Lemma lang_Seq_inv (icase : bool) (r1 r2 : regex) (w : list ascii) :
  lang icase (Seq r1 r2) w ->
  exists w1 w2, w = w1 ++ w2 /\ lang icase r1 w1 /\ lang icase r2 w2.
Proof. inversion 1; subst. by eexists _, _. Qed.

Lemma lang_Bound_inv (icase : bool) (w : list ascii) : lang icase Bound w -> w = [].
Proof. by inversion 1. Qed.

Lemma lang_alt (icase : bool) (rs : list regex) : forall (r : regex) (w : list ascii),
  lang icase (alt r rs) w -> Exists (fun r' => lang icase r' w) (r :: rs).
Proof.
  induction rs as [|r' rs IH]; intros r w H; simpl in H.
  - by left.
  - inversion H; subst; [by left|]. right. by apply IH.
Qed.

Lemma lang_whole_word (r : regex) (w : list ascii) :
  lang (ignoreCase (whole_word r)) (source (whole_word r)) w -> lang true r w.
Proof.
  unfold whole_word, ri. cbn [source ignoreCase seq]. intros H.
  apply lang_Seq_inv in H as (w1 & w' & -> & H1 & H).
  apply lang_Seq_inv in H as (w2 & w3 & -> & H2 & H3).
  apply lang_Bound_inv in H1 as ->. apply lang_Bound_inv in H3 as ->.
  by rewrite app_nil_r.
Qed.

Lemma lang_lit_chars (l : list ascii) : forall w,
  lang true (lit_chars l) w -> toLowerCase w = toLowerCase l.
Proof.
  assert (forall c w, lang true (Chr c) w -> toLowerCase w = [lower c]) as Hchr.
  { intros c w H. inversion H as [|c' a Heq| | | | | | | | |]; subst.
    unfold chr_eq in Heq. apply Ascii.eqb_eq in Heq. simpl. by rewrite Heq. }
  induction l as [|c l IH]; intros w H.
  - by inversion H.
  - destruct l as [|c' l]; [by apply Hchr|].
    change (lit_chars (c :: c' :: l)) with (Seq (Chr c) (lit_chars (c' :: l))) in H.
    apply lang_Seq_inv in H as (w1 & w2 & -> & H1 & H2).
    unfold toLowerCase in *. rewrite map_app, (Hchr _ _ H1), (IH _ H2). done.
Qed.

Lemma lang_spaces (icase : bool) (w : list ascii) :
  lang icase (Star Space) w -> Forall (fun c => is_space c = true) w.
Proof.
  intros H. remember (Star Space) as r eqn:Hr.
  induction H as [| | | | | | | | | |r' w1 w2 H1 _ H2 IH2]; try discriminate.
  - constructor.
  - injection Hr as ->. apply Forall_app. split; [|by apply IH2].
    inversion H1; subst. by constructor.
Qed.

Lemma plain_word_lower (l : list ascii) : plain_word l = true -> toLowerCase l = l.
Proof.
  induction l as [|c l IH]; [done|]. simpl. intros H.
  apply andb_prop in H as [Hc Hl]. apply andb_prop in Hc as [_ Hc].
  apply Ascii.eqb_eq in Hc. by rewrite Hc, IH.
Qed.

Lemma plain_word_no_space (l : list ascii) :
  plain_word l = true -> Forall (fun c => is_space c = false) l.
Proof.
  induction l as [|c l IH]; [constructor|]. simpl. intros H.
  apply andb_prop in H as [Hc Hl]. apply andb_prop in Hc as [Hc _].
  constructor; [by destruct (is_space c)|by apply IH].
Qed.

Lemma lower_space (c : ascii) : is_space c = true -> lower c = c.
Proof. destruct c as [[] [] [] [] [] [] [] []]; vm_compute; congruence. Qed.

Lemma lower_spaces (ws : list ascii) :
  Forall (fun c => is_space c = true) ws -> toLowerCase ws = ws.
Proof.
  induction 1 as [|c ws Hc _ IH]; [done|]. simpl. by rewrite lower_space, IH.
Qed.

(** [trim] leaves a text as it is when it begins and ends with words. *)
Lemma trim_start_word (l rest : list ascii) :
  l <> [] ->
  Forall (fun c => is_space c = false) l ->
  trim_start (l ++ rest) = l ++ rest.
Proof.
  destruct l as [|c l]; [done|]. intros _ Hl.
  apply Forall_cons in Hl as [Hc _]. simpl. by rewrite Hc.
Qed.

Lemma trim_chars_words (a mid b : list ascii) :
  a <> [] -> b <> [] ->
  Forall (fun c => is_space c = false) a ->
  Forall (fun c => is_space c = false) b ->
  trim_chars (a ++ mid ++ b) = a ++ mid ++ b.
Proof.
  intros Ha Hb Hfa Hfb. unfold trim_chars. rewrite trim_start_word by done.
  rewrite !rev_app_distr, <- app_assoc.
  rewrite trim_start_word.
  - by rewrite !rev_app_distr, !rev_involutive, <- app_assoc.
  - intros Hr. apply (f_equal (@rev ascii)) in Hr. by rewrite rev_involutive in Hr.
  - apply List.Forall_forall. intros c Hc. apply in_rev in Hc.
    by apply (proj1 (List.Forall_forall _ _) Hfb).
Qed.

Lemma replace_spaces_from_word (l rest : list ascii) : forall in_run,
  l <> [] ->
  Forall (fun c => is_space c = false) l ->
  replace_spaces_from in_run (l ++ rest) = l ++ replace_spaces_from false rest.
Proof.
  induction l as [|c l IH]; intros in_run Hne Hl; [done|].
  apply Forall_cons in Hl as [Hc Hl]. simpl. rewrite Hc. f_equal.
  destruct l as [|c' l]; [done|]. by apply IH.
Qed.

Lemma replace_spaces_from_end (l : list ascii) : forall in_run,
  Forall (fun c => is_space c = false) l ->
  replace_spaces_from in_run l = l.
Proof.
  induction l as [|c l IH]; intros in_run Hl; [done|].
  apply Forall_cons in Hl as [Hc Hl]. simpl. by rewrite Hc, IH.
Qed.

Lemma replace_spaces_from_gap (ws rest : list ascii) :
  Forall (fun c => is_space c = true) ws ->
  replace_spaces_from true (ws ++ rest) = replace_spaces_from true rest.
Proof.
  induction 1 as [|c ws Hc _ IH]; [done|]. simpl. by rewrite Hc, IH.
Qed.

Lemma trim_start_plain (l : list ascii) :
  Forall (fun c => is_space c = false) l -> trim_start l = l.
Proof. destruct 1 as [|c l Hc _]; [done|]. simpl. by rewrite Hc. Qed.

Lemma trim_chars_plain (l : list ascii) :
  Forall (fun c => is_space c = false) l -> trim_chars l = l.
Proof.
  intros Hl. unfold trim_chars. rewrite (trim_start_plain l Hl).
  rewrite trim_start_plain by (by apply List.Forall_rev).
  apply rev_involutive.
Qed.

(** The value of a match of one word. *)
Lemma joined_word (s w : list ascii) :
  plain_word s = true ->
  lang true (lit_chars s) w ->
  trim_chars (toLowerCase w) = s /\ joined w = s.
Proof.
  intros Hs H. unfold joined.
  rewrite (lang_lit_chars _ _ H), (plain_word_lower _ Hs).
  pose proof (plain_word_no_space _ Hs) as Hf.
  rewrite (trim_chars_plain _ Hf).
  split; [done|]. unfold replace_spaces. by apply replace_spaces_from_end.
Qed.

(** The value of a match of two words with optional white space between
    them. *)
Lemma joined_gap (a b w : list ascii) :
  a <> [] -> b <> [] ->
  plain_word a = true -> plain_word b = true ->
  lang true (Seq (lit_chars a) (Seq (Star Space) (lit_chars b))) w ->
  joined w = a ++ b \/ joined w = a ++ "_"%char :: b.
Proof.
  intros Ha Hb Hpa Hpb H.
  apply lang_Seq_inv in H as (w1 & w' & -> & H1 & H).
  apply lang_Seq_inv in H as (ws & w3 & -> & H2 & H3).
  apply lang_spaces in H2.
  pose proof (plain_word_no_space _ Hpa) as Hfa.
  pose proof (plain_word_no_space _ Hpb) as Hfb.
  unfold joined, toLowerCase. rewrite !map_app.
  fold (toLowerCase w1) (toLowerCase ws) (toLowerCase w3).
  rewrite (lang_lit_chars _ _ H1), (lang_lit_chars _ _ H3), (lower_spaces _ H2).
  rewrite (plain_word_lower _ Hpa), (plain_word_lower _ Hpb).
  rewrite trim_chars_words by done.
  unfold replace_spaces. rewrite replace_spaces_from_word by done.
  destruct H2 as [|c ws Hc Hws].
  - left. simpl. by rewrite replace_spaces_from_end.
  - right. simpl. rewrite Hc. f_equal. f_equal.
    rewrite replace_spaces_from_gap by done. by apply replace_spaces_from_end.
Qed.

Ltac one_of_the_words :=
  apply list_elem_of_In, (bool_decide_unpack _); vm_compute; reflexivity.

Ltac word_or_gap H :=
  first
    [ apply joined_word in H as [_ H]; [rewrite H; one_of_the_words|reflexivity]
    | apply joined_gap in H as [H|H];
      [rewrite H; one_of_the_words|rewrite H; one_of_the_words
      |discriminate|discriminate|reflexivity|reflexivity] ].

Ltac plain_word_only H :=
  apply joined_word in H as [H _]; [rewrite H; one_of_the_words|reflexivity].

Ltac each_alternative H tac :=
  apply lang_whole_word, lang_alt in H;
  repeat (apply Exists_cons in H as [H|H]; [tac H|]);
  by apply Exists_nil in H.

Lemma device_values (w : list ascii) :
  lang (ignoreCase device_pattern) (source device_pattern) w ->
  In (string_of_list_ascii (joined w)) deviceWords.
Proof. intros H. each_alternative H word_or_gap. Qed.

Lemma room_values (w : list ascii) :
  lang (ignoreCase room_pattern) (source room_pattern) w ->
  In (string_of_list_ascii (joined w)) roomWords.
Proof. intros H. each_alternative H word_or_gap. Qed.

Lemma color_values (w : list ascii) :
  lang (ignoreCase color_pattern) (source color_pattern) w ->
  In (string_of_list_ascii (trim_chars (toLowerCase w))) colorWords.
Proof.
  intros H. unfold color_pattern, words in H. cbn [map] in H.
  each_alternative H plain_word_only.
Qed.

Lemma action_values (w : list ascii) :
  lang (ignoreCase action_pattern) (source action_pattern) w ->
  In (string_of_list_ascii (trim_chars (toLowerCase w))) actionWords.
Proof.
  intros H. unfold action_pattern, words in H. cbn [map] in H.
  each_alternative H plain_word_only.
Qed.

(** ** The entities of the built-in patterns *)

Lemma extractEntitiesFrom_elem (patterns : list (string * RegExp)) (text : list ascii) :
  forall (es : list Entity) (e : Entity),
    extractEntitiesFrom patterns text = Some es ->
    In e es ->
    exists entityType pattern w,
      In (entityType, pattern) patterns
      /\ lang (ignoreCase pattern) (source pattern) w
      /\ type e = entityType
      /\ value e = normalizeEntityValue w entityType.
Proof.
  induction patterns as [|[entityType pattern] patterns IH]; intros es e H He; simpl in H.
  - injection H as <-. destruct He.
  - destruct (exec_all pattern text) as [ms|] eqn:Hms; [|discriminate].
    destruct (extractEntitiesFrom patterns text) as [es'|]; [|discriminate].
    injection H as <-. apply in_app_or in He as [He|He].
    + apply in_map_iff in He as (m & <- & Hm).
      exists entityType, pattern, (snd m). split; [by left|]. split; [|done].
      apply exec_loop_sound in Hms.
      by apply (proj1 (List.Forall_forall _ _) Hms).
    + destruct (IH es' e eq_refl He) as (ty & p & w & Hin & Hw & Hty & Hv).
      exists ty, p, w. split; [by right|done].
Qed.

(** The entity behind a match: its pattern and the text that it matched. *)
Lemma entity_of_pattern (text : list ascii) (es : list Entity) (e : Entity) :
  extractEntities initializePatterns text = Some es ->
  In e es ->
  exists pattern w,
    In (type e, pattern) (entityPatterns initializePatterns)
    /\ lang (ignoreCase pattern) (source pattern) w
    /\ value e = normalizeEntityValue w (type e).
Proof.
  intros H He. unfold extractEntities in H.
  destruct (extractEntitiesFrom_elem _ _ _ _ H He) as (ty & p & w & Hin & Hw & <- & Hv).
  by exists p, w.
Qed.

Lemma device_and_room_words (text : list ascii) (es : list Entity) (e : Entity) :
  extractEntities initializePatterns text = Some es ->
  In e es ->
  (type e = "device" -> In (value e) deviceWords)
  /\ (type e = "room" -> In (value e) roomWords).
Proof.
  intros H He. destruct (entity_of_pattern text es e H He) as (p & w & Hin & Hw & ->).
  cbn [entityPatterns initializePatterns] in Hin.
  split; intros Hty; rewrite Hty in *;
    repeat (destruct Hin as [[= <-]|Hin]; try discriminate); try destruct Hin.
  - by apply device_values.
  - by apply room_values.
Qed.

(** X23.  With the built-in patterns, the value of a device entity is one of the
    seventeen words of [deviceWords], the value of a room entity one of the
    thirteen of [roomWords], and those of colours and actions are the words
    of their patterns in lower case. *)
Theorem entity_words (text : list ascii) (es : list Entity) (e : Entity) :
  extractEntities initializePatterns text = Some es ->
  In e es ->
  (type e = "device" -> In (value e) deviceWords)
  /\ (type e = "room" -> In (value e) roomWords)
  /\ (type e = "color" -> In (value e) colorWords)
  /\ (type e = "action" -> In (value e) actionWords).
Proof.
  intros H He. unfold extractEntities in H.
  destruct (extractEntitiesFrom_elem _ _ _ _ H He) as (ty & p & w & Hin & Hw & Hty & Hv).
  rewrite Hty, Hv. clear H He Hty Hv.
  cbn [entityPatterns initializePatterns] in Hin.
  repeat (destruct Hin as [[= <- <-]|Hin]); [.. | destruct Hin];
    repeat split; try discriminate; intros _.
  - by apply device_values.
  - by apply room_values.
  - by apply color_values.
  - by apply action_values.
Qed.

Lemma entity_words_witness :
  (type (mkEntity "room" "living_room" 12 24 (9 # 10)) = "device" ->
   In (value (mkEntity "room" "living_room" 12 24 (9 # 10))) deviceWords)
  /\ (type (mkEntity "room" "living_room" 12 24 (9 # 10)) = "room" ->
      In (value (mkEntity "room" "living_room" 12 24 (9 # 10))) roomWords)
  /\ (type (mkEntity "room" "living_room" 12 24 (9 # 10)) = "color" ->
      In (value (mkEntity "room" "living_room" 12 24 (9 # 10))) colorWords)
  /\ (type (mkEntity "room" "living_room" 12 24 (9 # 10)) = "action" ->
      In (value (mkEntity "room" "living_room" 12 24 (9 # 10))) actionWords).
Proof.
  apply (entity_words (list_ascii_of_string "Turn on the Living  Room lights")
           [mkEntity "room" "living_room" 12 24 (9 # 10);
            mkEntity "action" "on" 5 7 (9 # 10)]).
  - vm_compute. reflexivity.
  - left. reflexivity.
Defined.

End LanguageProcessingWords.

(** * Properties of SmartVoiceAssistant *)

Module SmartVoiceAssistantFacts.
Import LanguageProcessing SmartVoiceAssistant LanguageProcessingWords.
Local Open Scope list_scope.

Lemma entityValue_found (entityType : string) (es : list Entity) (v : string) :
  entityValue entityType es = Some v ->
  exists e, In e es /\ type e = entityType /\ value e = v.
Proof.
  unfold entityValue. destruct (List.find _ es) as [e|] eqn:Hf; [|discriminate].
  intros [= <-]. apply find_some in Hf as [Hin Hty]. apply String.eqb_eq in Hty.
  by exists e.
Qed.

Lemma processCommand_entities (lp : LanguageProcessing.t) (command : string) (r : ProcessingResult) :
  processCommand lp command = Some r ->
  extractEntities lp (list_ascii_of_string command) = Some (entities r).
Proof.
  unfold processCommand.
  destruct (extractEntities lp (list_ascii_of_string command)) as [es|]; [|discriminate].
  by intros [= <-].
Qed.

Lemma device_id_is_spelled_aux (command : string) (r : ProcessingResult) (device : string) :
  processCommand initializePatterns command = Some r ->
  entityValue "device" (entities r) = Some device ->
  In device deviceWords
  /\ (forall room, entityValue "room" (entities r) = Some room -> In room roomWords).
Proof.
  intros Hr Hd. apply processCommand_entities in Hr.
  apply entityValue_found in Hd as (e & He & Hty & <-).
  split; [by apply (device_and_room_words _ _ e Hr He)|].
  intros room Hroom. apply entityValue_found in Hroom as (e' & He' & Hty' & <-).
  by apply (device_and_room_words _ _ e' Hr He').
Qed.

(** X29.  The id that [executeDeviceCommand] hands to [controlDevice] is a device
    word of the built-in pattern, or a room word and a device word joined by
    a hyphen. *)
Theorem device_id_is_spelled (command : string) (r : ProcessingResult) (device : string) :
  processCommand initializePatterns command = Some r ->
  entityValue "device" (entities r) = Some device ->
  In device deviceWords
  /\ (fullDeviceId device (entityValue "room" (entities r)) = device
      \/ exists room,
           In room roomWords
           /\ fullDeviceId device (entityValue "room" (entities r))
              = (room ++ "-" ++ device)%string).
Proof.
  intros Hr Hd. destruct (device_id_is_spelled_aux command r device Hr Hd) as [Hdev Hroom].
  split; [done|]. unfold fullDeviceId.
  destruct (entityValue "room" (entities r)) as [room|]; [|by left].
  cbn [present default]. destruct (String.eqb room ""); [by left|]. right.
  exists room. split; [by apply Hroom|done].
Qed.

Lemma device_id_is_spelled_witness :
  In "light" deviceWords
  /\ (fullDeviceId "light" (Some "kitchen") = "light"
      \/ exists room,
           In room roomWords
           /\ fullDeviceId "light" (Some "kitchen") = (room ++ "-" ++ "light")%string).
Proof.
  apply (device_id_is_spelled "dim the kitchen light"
           (mkResult "device_control" "dim"
              [mkEntity "device" "light" 16 21 (9 # 10);
               mkEntity "room" "kitchen" 8 15 (9 # 10);
               mkEntity "action" "dim" 0 3 (9 # 10)]
              (1890 # 2100) "dim the kitchen light")).
  - vm_compute. reflexivity.
  - reflexivity.
Defined.
(** ** Devices out of reach *)

Lemma fullDeviceId_spelled (device : string) (room : option string) :
  In device deviceWords ->
  (forall r, room = Some r -> In r roomWords) ->
  In (fullDeviceId device room) spelledIds.
Proof.
  intros Hd Hr. unfold fullDeviceId, spelledIds. apply in_or_app.
  destruct room as [r|]; [|by left]. cbn [present default].
  destruct (String.eqb r ""); [by left|]. right.
  apply in_flat_map. exists r. split; [by apply Hr|].
  apply in_map_iff. by exists device.
Qed.

Lemma controlDevice_other (m : DeviceManager.t) (deviceId act : string)
    (params : option (gmap string DeviceManager.read)) (now : Z) (k : string) :
  DeviceManager.keyed m ->
  k <> deviceId ->
  DeviceManager.deviceStates (DeviceManager.controlDevice m deviceId act params now).1 !! k
  = DeviceManager.deviceStates m !! k.
Proof.
  intros [Hkeyed _] Hk. unfold DeviceManager.controlDevice.
  destruct (DeviceManager.devices m !! deviceId) as [device|] eqn:Hdev; [|done].
  destruct (DeviceManager.deviceStates m !! deviceId) as [st|]; [|done].
  destruct (negb _); [done|].
  unfold DeviceManager.executeDeviceCommand.
  destruct (DeviceManager.deviceStates m !! DeviceManager.id device) as [st1|]; [|done].
  destruct (DeviceManager.dispatch _ _ _) as [st' [response|]]; cbn;
    (rewrite lookup_insert_ne; [done|]; by rewrite (Hkeyed _ _ Hdev)).
Qed.

Lemma say_deviceManager (a : SmartVoiceAssistant.t) (txt : string) :
  deviceManager (say a txt) = deviceManager a.
Proof. reflexivity. Qed.

(** X30.  No voice command changes the state of a device whose id is not spelled
    by a device word and an optional room word; the id of the built-in
    thermostat, 'main-thermostat', is not spelled so. *)
Theorem thermostat_out_of_reach :
  ~ In "main-thermostat" spelledIds
  /\ (forall (a : SmartVoiceAssistant.t) (command : string) (r : ProcessingResult)
             (now : Z) (deviceId : string),
        DeviceManager.keyed (deviceManager a) ->
        processCommand initializePatterns command = Some r ->
        ~ In deviceId spelledIds ->
        DeviceManager.deviceStates (deviceManager (executeDeviceCommand a r now)) !! deviceId
        = DeviceManager.deviceStates (deviceManager a) !! deviceId).
Proof.
  split.
  { intros Hin. apply list_elem_of_In in Hin. revert Hin.
    apply (bool_decide_unpack _). vm_compute. reflexivity. }
  intros a command r now deviceId Hkeyed Hr Hid.
  unfold executeDeviceCommand.
  destruct (entityValue "device" (entities r)) as [device|] eqn:Hd; [|done].
  cbn [present default]. destruct (String.eqb device ""); [done|]. cbn [negb].
  destruct (device_id_is_spelled_aux command r device Hr Hd) as [Hdev Hroom].
  pose proof (controlDevice_other (deviceManager a)
                (fullDeviceId device (entityValue "room" (entities r)))
                (action r) None now deviceId Hkeyed) as Hother.
  destruct (DeviceManager.controlDevice _ _ _ _ _) as [manager success].
  cbn [fst] in Hother.
  assert (deviceId <> fullDeviceId device (entityValue "room" (entities r))) as Hne.
  { intros ->. apply Hid. by apply fullDeviceId_spelled. }
  destruct success; rewrite say_deviceManager; by apply Hother.
Qed.

Lemma thermostat_out_of_reach_witness :
  let a := mkAssistant (SpeechSynthesis.create "en-US")
                       (DeviceManager.construct (fun _ => true) 0) in
  let r := mkResult "device_control" "increase"
             [mkEntity "device" "thermostat" 13 23 (9 # 10);
              mkEntity "action" "increase" 0 8 (9 # 10)]
             (2070 # 2300) "increase the thermostat" in
  DeviceManager.deviceStates (deviceManager (executeDeviceCommand a r 1)) !! "main-thermostat"
  = DeviceManager.deviceStates (deviceManager a) !! "main-thermostat".
Proof.
  apply (proj2 thermostat_out_of_reach
           (mkAssistant (SpeechSynthesis.create "en-US")
                        (DeviceManager.construct (fun _ => true) 0))
           "increase the thermostat").
  - apply DeviceManagerMore.keyed_construct.
  - vm_compute. reflexivity.
  - apply (proj1 thermostat_out_of_reach).
Defined.
(** ** The spoken answer *)

Lemma trim_start_ends (l : list ascii) (c : ascii) :
  is_space c = false -> trim_start (l ++ [c]) <> [].
Proof.
  intros Hc. induction l as [|x l IH]; simpl; [by rewrite Hc|].
  by destruct (is_space x).
Qed.

Lemma trim_starts (c : ascii) (rest : string) :
  is_space c = false -> String.eqb (trim (String c rest)) "" = false.
Proof.
  intros Hc. apply String.eqb_neq. unfold trim, trim_chars.
  cbn [list_ascii_of_string trim_start]. rewrite Hc. cbn [rev].
  pose proof (trim_start_ends (rev (list_ascii_of_string rest)) c Hc) as Hne.
  destruct (trim_start (rev (list_ascii_of_string rest) ++ [c])) as [|x l]; [done|].
  intros H. apply (f_equal list_ascii_of_string) in H.
  rewrite list_ascii_of_string_of_list_ascii in H. simpl in H.
  by destruct (rev l).
Qed.

Lemma speak_one (s : SpeechSynthesis.t) (txt : string) :
  String.eqb (trim txt) "" = false ->
  length (SpeechSynthesis.spoken (SpeechSynthesis.speak s txt None None)
          ++ SpeechSynthesis.speechQueue (SpeechSynthesis.speak s txt None None))
  = S (length (SpeechSynthesis.spoken s ++ SpeechSynthesis.speechQueue s)).
Proof.
  intros H. unfold SpeechSynthesis.speak. rewrite H.
  rewrite SpeechSynthesisMore.processQueue_holds. cbn.
  set (request := SpeechSynthesis.mkRequest _ _ _).
  destruct (SpeechSynthesisFacts.enqueue_somewhere (SpeechSynthesis.speechQueue s) request)
    as (before & after & -> & ->).
  rewrite !length_app. cbn. lia.
Qed.

(** [executeDeviceCommand] answers every result with exactly one request to
    the speech synthesis, and hands at most one command to the device
    manager. *)
Theorem executeDeviceCommand_answers_once (a : SmartVoiceAssistant.t)
    (r : ProcessingResult) (now : Z) :
  let a' := executeDeviceCommand a r now in
  length (SpeechSynthesis.spoken (speechSynthesis a')
          ++ SpeechSynthesis.speechQueue (speechSynthesis a'))
  = S (length (SpeechSynthesis.spoken (speechSynthesis a)
               ++ SpeechSynthesis.speechQueue (speechSynthesis a)))
  /\ (length (DeviceManager.emitted (deviceManager a'))
      <= S (length (DeviceManager.emitted (deviceManager a))))%nat.
Proof.
  cbv zeta. unfold executeDeviceCommand.
  destruct (negb (present (entityValue "device" (entities r)))).
  { split; [by apply speak_one, trim_starts|cbn; lia]. }
  assert (length (DeviceManager.emitted
                    (DeviceManager.controlDevice (deviceManager a)
                       (fullDeviceId (default "" (entityValue "device" (entities r)))
                          (entityValue "room" (entities r)))
                       (action r) None now).1)
          <= S (length (DeviceManager.emitted (deviceManager a))))%nat as Hemit.
  { unfold DeviceManager.controlDevice.
    destruct (DeviceManager.devices _ !! _) as [device|]; [|cbn; lia].
    destruct (DeviceManager.deviceStates _ !! _) as [st|]; [|cbn; lia].
    destruct (negb _); [cbn; lia|].
    unfold DeviceManager.executeDeviceCommand.
    destruct (DeviceManager.deviceStates _ !! DeviceManager.id device) as [st1|].
    - destruct (DeviceManager.dispatch _ _ _) as [st' [response|]]; cbn;
        rewrite ?length_app; cbn; lia.
    - cbn. rewrite length_app. cbn. lia. }
  destruct (DeviceManager.controlDevice _ _ _ _ _) as [manager success].
  cbn [fst] in Hemit.
  destruct success; (split; [by apply speak_one, trim_starts|exact Hemit]).
Qed.

End SmartVoiceAssistantFacts.
